(** * yptr: extended JSON pointers over yaml.Node trees

    A shallow embedding of [yptr.go] (package [yptr]) and the properties of
    its lookup ([FindAll], [Find]) and mutation ([Insert]) operations.

    The Go code works on [*yaml.Node] pointers and mutates nodes in place, so
    the embedding keeps an explicit store: a heap of node cells addressed by
    their index, a node's [Content] being a list of addresses.  Functions that
    return [(value, error)] pairs, mutate the tree, allocate nodes or can
    panic are written in one state-and-error monad [M].

    Modelling choices:
    - a [Content] slice is the list of its elements: two slices never share
      spare capacity, so an [append] to one is not seen through another;
    - the tree [yaml.Unmarshal] builds for a predicate token stays outside
      the store (type [Tree]): [match] never links it into the document;
    - [yaml.Unmarshal], of the yaml library, and [isTreeSubset], of a file of
      the package that is not among the sources, are parameters of the
      embedding; the worked examples instantiate them with [parse_flow] and
      [isTreeSubset_spec];
    - a run-time fault is an outcome of its own ([Panic]), apart from the
      errors the functions return. *)

From Stdlib Require Import ZArith String Ascii List Bool Lia.
From stdpp Require Import base list finite.

Local Open Scope string_scope.
Local Open Scope Z_scope.
Local Open Scope list_scope.

(** ** The yaml.Node data model (package gopkg.in/yaml.v3) *)

(** [yaml.Kind]: the five constants of the library, and the zero value of
    the type (a [yaml.Node{}] literal that sets no kind). *)
Inductive yaml_Kind : Set :=
| ZeroKind
| DocumentNode
| SequenceNode
| MappingNode
| ScalarNode
| AliasNode.

Definition Kind_eqb (a b : yaml_Kind) : bool :=
  match a, b with
  | ZeroKind, ZeroKind | DocumentNode, DocumentNode
  | SequenceNode, SequenceNode | MappingNode, MappingNode
  | ScalarNode, ScalarNode | AliasNode, AliasNode => true
  | _, _ => false
  end.

(** A [*yaml.Node]: the index of a cell of the heap.  An address with no cell
    stands for a nil pointer. *)
Abbreviation addr := nat (only parsing).

(** The fields of [yaml.Node] that the package reads or writes, and the
    position fields its tests print.  [Content] is a Go slice of pointers; it
    is modelled as the list of its elements (slices of different nodes are
    taken not to overlap in their spare capacity). *)
Record Node : Set := mkNode {
  Kind : yaml_Kind;
  Tag : string;
  Value : string;
  Content : list addr;
  Line : Z;
  Column : Z
}.

(** The Go composite literal [yaml.Node{Kind: k, Tag: t, Value: v}]: the
    fields not named are zero. *)
Definition node_lit (k : yaml_Kind) (t v : string) : Node :=
  mkNode k t v [] 0 0.

(** [n.Content = c] on a copy of the struct [n]. *)
Definition with_Content (n : Node) (c : list addr) : Node :=
  mkNode (Kind n) (Tag n) (Value n) c (Line n) (Column n).

Abbreviation heap := (list Node) (only parsing).

(** A tree that is not in the store: what [yaml.Unmarshal] builds for the
    text of a predicate token.  [match] keeps it in a local variable and
    never links it into the document. *)
#[warnings="-register-all"]
Inductive Tree : Set :=
| TNode (kind : yaml_Kind) (tag value : string) (content : list Tree)
        (line column : Z).

(** ** Errors and panics *)

(** The error values of the package, one constructor per place that makes
    one ([fmt.Errorf] with [%w] keeps the wrapped error as an argument). *)
Inductive error : Set :=
| ErrTooManyResults                     (* var ErrTooManyResults *)
| ErrNotFound                           (* var ErrNotFound *)
| EmptyPointerError                     (* "invalid empty pointer" *)
| SyntaxError                           (* "JSON pointer must be empty or start with a ..." *)
| GotMatches (n : nat) (e : error)      (* "got %d matches: %w" *)
| BadState (ptr : string)               (* "bad state while finding %q: ..." *)
| Quoted (s : string) (e : error)       (* "%q: %w" *)
| CannotInsert (vk : yaml_Kind) (vtag : string) (rk : yaml_Kind) (rtag : string)
                                        (* "cannot insert node type %v (%v) in node type %v (%v)" *)
| UnhandledNodeType (k : yaml_Kind) (tag : string)
                                        (* "unhandled node type: %v (%v)" *)
| OutOfBounds                           (* "out of bounds" *)
| MalformedTree (l : nat)               (* "yaml.Node invariant broken, found %d map content" *)
| NotAnIndex (tok : string)             (* the error of strconv.Atoi *)
| YamlError (text : string).            (* the error of yaml.Unmarshal *)

(** [errors.Is(e, ErrNotFound)]: [e] is the sentinel or wraps it. *)
Fixpoint errors_Is_ErrNotFound (e : error) : bool :=
  match e with
  | ErrNotFound => true
  | GotMatches _ e' | Quoted _ e' => errors_Is_ErrNotFound e'
  | _ => false
  end.

(** The run-time faults the code can hit. *)
Inductive panic : Set :=
| IndexOutOfRange      (* s[i] with i >= len(s) *)
| NilDereference       (* a field of a nil *yaml.Node *)
| StackOverflow.       (* unbounded recursion *)

Inductive result (A : Type) : Type :=
| Ok (a : A)
| Err (e : error)
| Panic (p : panic).
Arguments Ok {A} a.
Arguments Err {A} e.
Arguments Panic {A} p.

(** ** The state-and-error monad *)

Definition M (A : Type) : Type := heap -> heap * result A.

Definition ret {A} (a : A) : M A := fun h => (h, Ok a).

Definition bind {A B} (m : M A) (f : A -> M B) : M B :=
  fun h =>
    match m h with
    | (h', Ok a) => f a h'
    | (h', Err e) => (h', Err e)
    | (h', Panic p) => (h', Panic p)
    end.

Definition throw {A} (e : error) : M A := fun h => (h, Err e).
Definition crash {A} (p : panic) : M A := fun h => (h, Panic p).

(** [x, err := f(...)]: the error of [m] as a value, for the callers that
    inspect it instead of returning it. *)
Definition attempt {A} (m : M A) : M (A + error) :=
  fun h =>
    match m h with
    | (h', Ok a) => (h', Ok (inl a))
    | (h', Err e) => (h', Ok (inr e))
    | (h', Panic p) => (h', Panic p)
    end.

Declare Scope yptr_scope.
Delimit Scope yptr_scope with yptr.
Notation "'let!' x ':=' m 'in' k" := (bind m (fun x => k))
  (at level 10, x name, m at level 100, k at level 200) : yptr_scope.
Local Open Scope yptr_scope.

(** [*p]: the node behind a pointer. *)
Definition load (p : addr) : M Node :=
  fun h => match h !! p with
           | Some n => (h, Ok n)
           | None => (h, Panic NilDereference)
           end.

(** [*p = n]. *)
Definition store (p : addr) (n : Node) : M unit :=
  fun h => match h !! p with
           | Some _ => (<[p := n]> h, Ok tt)
           | None => (h, Panic NilDereference)
           end.

(** [&n] of a local variable or parameter [n] (Go moves it to the heap), and
    [&yaml.Node{...}]: a new cell. *)
Definition alloc (n : Node) : M addr :=
  fun h => (h ++ [n], Ok (length h)).

(** ** Go library functions *)

Definition dquote : string := String "034"%char EmptyString.

(** [strings.Split(s, "/")]. *)
Fixpoint split_slash (s : string) : list string :=
  match s with
  | EmptyString => [EmptyString]
  | String c s' =>
      if Ascii.eqb c "/"%char then EmptyString :: split_slash s'
      else match split_slash s' with
           | w :: ws => String c w :: ws
           | [] => [String c EmptyString]
           end
  end.

Definition minInt : Z := - 2 ^ 63.
Definition maxInt : Z := 2 ^ 63 - 1.

Definition digit_of (c : ascii) : option Z :=
  let n := Z.of_nat (nat_of_ascii c) in
  if (48 <=? n) && (n <=? 57) then Some (n - 48) else None.

Fixpoint digits (s : string) (acc : Z) : option Z :=
  match s with
  | EmptyString => Some acc
  | String c s' =>
      match digit_of c with
      | Some d => digits s' (acc * 10 + d)
      | None => None
      end
  end.

(** [strconv.Atoi] on a 64-bit platform: an optional sign, then one or more
    decimal digits, the value within the range of [int]; [None] is its
    [*NumError]. *)
Definition Atoi (s : string) : option Z :=
  match s with
  | EmptyString => None
  | String c s' =>
      let neg := Ascii.eqb c "-"%char in
      let body := if neg || Ascii.eqb c "+"%char then s' else s in
      match body with
      | EmptyString => None
      | _ =>
          match digits body 0 with
          | Some n =>
              let v := if neg then - n else n in
              if (minInt <=? v) && (v <=? maxInt) then Some v else None
          | None => None
          end
      end
  end.

(** [strings.HasPrefix(s, prefix)]. *)
Fixpoint HasPrefix (s prefix : string) {struct prefix} : bool :=
  match prefix with
  | EmptyString => true
  | String a prefix' =>
      match s with
      | EmptyString => false
      | String b s' => Ascii.eqb a b && HasPrefix s' prefix'
      end
  end.

(** [s[1:]] of a non-empty string. *)
Definition tail1 (s : string) : string :=
  match s with
  | EmptyString => EmptyString
  | String _ s' => s'
  end.

(** [slices.Insert(s, i, v)] for [0 <= i <= len(s)]. *)
Definition slices_Insert {A} (s : list A) (i : nat) (v : A) : list A :=
  take i s ++ v :: drop i s.

(** A function result that touches no node, as a computation. *)
Definition lift {A} (r : result A) : M A := fun h => (h, r).

(** ** Package yptr *)

(** [ValidateJSONPointer]: [None] is the nil error. *)
Definition ValidateJSONPointer (jsonPointer : string) : option error :=
  if String.eqb jsonPointer "" then None
  else if negb (HasPrefix jsonPointer "/") then Some SyntaxError
  else None.

(** [jsonPointerToTokens]. *)
Definition jsonPointerToTokens (jsonPointer : string) : result (list string) :=
  if String.eqb jsonPointer "" then Ok []
  else match ValidateJSONPointer jsonPointer with
       | Some err => Err err
       | None =>
           match split_slash jsonPointer with
           | _ :: referenceTokens => Ok referenceTokens
           | [] => Panic IndexOutOfRange
           end
       end.

(** [type nodePredicate]: a function from a node pointer to bool; it reads
    the node behind the pointer, so it is given the store. *)
Definition nodePredicate : Type := heap -> addr -> bool.

(** The loop of [filter]: [res] is the slice built so far. *)
Fixpoint filter_loop (pred : nodePredicate) (res nodes : list addr)
  : M (list addr) :=
  match nodes with
  | [] => ret res
  | n :: nodes' =>
      fun h => if pred h n then filter_loop pred (res ++ [n]) nodes' h
               else filter_loop pred res nodes' h
  end.

(** [filter]. *)
Definition filter (nodes : list addr) (pred : nodePredicate) : M (list addr) :=
  filter_loop pred [] nodes.

(** The loop of [match] over the pairs of a mapping, and the return that
    follows the switch when no key is equal to [tok]. *)
Fixpoint match_pairs (tok : string) (c : list addr) : M (list addr) :=
  match c with
  | k :: value :: c' =>
      let! key := load k in
      if String.eqb tok (Value key) then ret [value]
      else match_pairs tok c'
  | [_] => crash IndexOutOfRange
  | [] => throw (Quoted tok ErrNotFound)
  end.

Section Yptr.

(** [yaml.Unmarshal(text, &mtree)] of the yaml library: the tree it
    builds, or [None] for its error. *)
Variable Unmarshal : string -> option Tree.

(** [isTreeSubset(a, b)], which [treeSubsetPred] calls: [a] is the pattern
    [match] parsed, [b] an element of the document. *)
Variable isTreeSubset : Tree -> heap -> addr -> bool.

(** [treeSubsetPred]. *)
Definition treeSubsetPred (a : Tree) : nodePredicate :=
  fun h b => isTreeSubset a h b.

(** [match], with [fuel] bounding the chain of document nodes it skips. *)
Fixpoint match_fuel (fuel : nat) (root : addr) (tok : string) {struct fuel}
  : M (list addr) :=
  let! r := load root in
  let c := Content r in
  match Kind r with
  | MappingNode =>
      if Nat.odd (length c) then throw (MalformedTree (length c))
      else match_pairs tok c
  | SequenceNode =>
      if HasPrefix tok "~{" then
        match Unmarshal (tail1 tok) with
        | None => throw (YamlError (tail1 tok))
        | Some mtree => filter c (treeSubsetPred mtree)
        end
      else if String.eqb tok "-" then
        let! dummy := alloc (node_lit ScalarNode "" "") in
        ret [dummy]
      else
        match Atoi tok with
        | None => throw (NotAnIndex tok)
        | Some i =>
            if (i <? 0) || (i >=? Z.of_nat (length c)) then throw OutOfBounds
            else ret (take 1 (drop (Z.to_nat i) c))
        end
  | DocumentNode =>
      match c with
      | [] => crash IndexOutOfRange
      | c0 :: _ =>
          match fuel with
          | O => crash StackOverflow
          | S fuel' => match_fuel fuel' c0 tok
          end
      end
  | _ => throw (UnhandledNodeType (Kind r) (Tag r))
  end.

(** [match].  A chain of document nodes longer than the store has cells
    goes through some node twice, and the Go recursion does not end. *)
Definition match_ (root : addr) (tok : string) : M (list addr) :=
  fun h => match_fuel (length h) root tok h.

(** The loop of [find] over [next]. *)
Fixpoint find_loop (f : addr -> M (list addr)) (res next : list addr)
  : M (list addr) :=
  match next with
  | [] => ret res
  | n :: next' =>
      let! found := f n in
      find_loop f (res ++ found) next'
  end.

(** [find]. *)
Fixpoint find (root : addr) (toks : list string) : M (list addr) :=
  match toks with
  | [] => crash IndexOutOfRange
  | tok :: rest =>
      let! next := match_ root tok in
      match rest with
      | [] => ret next
      | _ :: _ => find_loop (fun n => find n rest) [] next
      end
  end.

(** [FindAll]. *)
Definition FindAll (root : addr) (ptr : string) : M (list addr) :=
  if String.eqb ptr "" then throw EmptyPointerError
  else
    let! toks := lift (jsonPointerToTokens ptr) in
    let! r := attempt (find root toks) in
    match r with
    | inr err => throw (Quoted ptr err)
    | inl res => ret res
    end.

(** [Find]. *)
Definition Find (root : addr) (ptr : string) : M addr :=
  let! res := FindAll root ptr in
  if (1 <? length res)%nat then
    throw (GotMatches (length res) ErrTooManyResults)
  else
    match res with
    | [] => throw (BadState ptr)
    | res0 :: _ => ret res0
    end.

(** [sequenceInsertAt]. *)
Definition sequenceInsertAt (root : addr) (tok : string) (n : Node) : M unit :=
  if String.eqb tok "-" then
    let! r := load root in
    let! pn := alloc n in
    store root (with_Content r (Content r ++ [pn]))
  else
    match Atoi tok with
    | None => throw (NotAnIndex tok)
    | Some i =>
        let! r := load root in
        if (i <? 0) || (i >=? Z.of_nat (length (Content r))) then
          throw OutOfBounds
        else
          let! pn := alloc n in
          store root (with_Content r (slices_Insert (Content r) (Z.to_nat i) pn))
    end.

Section Steps.

(** [insert(p, toks[1:], value)], the call both step functions end in. *)
Variable insert_rest : addr -> Node -> M unit.

(** [sequenceInsert] with [toks = tok :: rest]. *)
Definition sequenceInsert (root : addr) (tok : string) (rest : list string)
  (value : Node) : M unit :=
  let! next := match_ root tok in
  match rest with
  | [] => sequenceInsertAt root tok value
  | tok1 :: _ =>
      match next with
      | [] => crash IndexOutOfRange
      | next0 :: _ =>
          let! m := load next0 in
          if negb (Kind_eqb (Kind m) ScalarNode) then insert_rest next0 value
          else
            let! pn := alloc (node_lit MappingNode "!!map" "") in
            let! pk := alloc (node_lit ScalarNode "!!str" tok1) in
            let! pv := alloc (node_lit MappingNode "!!map" "") in
            let! n0 := load pn in
            let! _ := store pn (with_Content n0 (Content n0 ++ [pk; pv])) in
            let! n := load pn in
            let! _ := sequenceInsertAt root tok n in
            insert_rest pn value
      end
  end.

(** [mapInsert] with [toks = tok :: rest]. *)
Definition mapInsert (root : addr) (tok : string) (rest : list string)
  (value : Node) : M unit :=
  let! r := attempt (match_ root tok) in
  match r with
  | inr err =>
      if negb (errors_Is_ErrNotFound err) then throw err
      else
        let! pk := alloc (node_lit ScalarNode "" tok) in
        match rest with
        | [] =>
            let! pvalue := alloc value in
            let! m := load root in
            store root (with_Content m (Content m ++ [pk; pvalue]))
        | _ :: _ =>
            let! pv := alloc (node_lit MappingNode "!!map" "") in
            let! m := load root in
            let! _ := store root (with_Content m (Content m ++ [pk; pv])) in
            insert_rest pv value
        end
  | inl next =>
      match next with
      | [] => crash IndexOutOfRange
      | next0 :: _ => insert_rest next0 value
      end
  end.

End Steps.

(** [insert]. *)
Fixpoint insert (root : addr) (toks : list string) (value : Node) : M unit :=
  match toks with
  | [] =>
      let! r := load root in
      if Kind_eqb (Kind r) MappingNode then
        if Kind_eqb (Kind value) MappingNode then
          store root (with_Content r (Content r ++ Content value))
        else if (length (Content r) =? 0)%nat then
          store root value
        else
          throw (CannotInsert (Kind value) (Tag value) (Kind r) (Tag r))
      else
        throw (CannotInsert (Kind value) (Tag value) (Kind r) (Tag r))
  | tok :: rest =>
      let! r := load root in
      match Kind r with
      | SequenceNode =>
          sequenceInsert (fun p v => insert p rest v) root tok rest value
      | MappingNode =>
          mapInsert (fun p v => insert p rest v) root tok rest value
      | _ => throw (UnhandledNodeType (Kind r) (Tag r))
      end
  end.

(** [Insert]. *)
Definition Insert (root : addr) (ptr : string) (value : Node) : M unit :=
  let! toks := lift (jsonPointerToTokens ptr) in
  let! value :=
    if Kind_eqb (Kind value) DocumentNode then
      match Content value with
      | [] => crash IndexOutOfRange
      | c0 :: _ => load c0
      end
    else ret value in
  let! r := load root in
  let! root :=
    if Kind_eqb (Kind r) DocumentNode then
      match Content r with
      | [] => crash IndexOutOfRange
      | c0 :: _ => ret c0
      end
    else ret root in
  insert root toks value.

End Yptr.

(** ** Collaborators for the worked examples *)

(** Trees as the yaml library tags them. *)
Definition Tstr (v : string) : Tree := TNode ScalarNode "!!str" v [] 0 0.
Definition Tint (v : string) : Tree := TNode ScalarNode "!!int" v [] 0 0.
Definition Tmap (c : list Tree) : Tree := TNode MappingNode "!!map" "" c 0 0.
Definition Tseq (c : list Tree) : Tree := TNode SequenceNode "!!seq" "" c 0 0.
Definition Tdoc (t : Tree) : Tree := TNode DocumentNode "" "" [t] 0 0.

(** A tree put into the store, children first: how the examples build the
    document that [yaml.Unmarshal] would hand to the package. *)
Fixpoint build (t : Tree) : M addr :=
  match t with
  | TNode k tag v cs l c =>
      let! ps :=
        (fix build_all (ts : list Tree) : M (list addr) :=
           match ts with
           | [] => ret []
           | t' :: ts' =>
               let! p := build t' in
               let! ps := build_all ts' in
               ret (p :: ps)
           end) cs in
      alloc (mkNode k tag v ps l c)
  end.

(** The tree below an address, read back from the store ([None] when a
    pointer is nil or the depth exceeds [fuel]). *)
Fixpoint reify (fuel : nat) (h : heap) (p : addr) : option Tree :=
  match fuel with
  | O => None
  | S fuel' =>
      match h !! p with
      | None => None
      | Some n =>
          match
            (fix all (ps : list addr) : option (list Tree) :=
               match ps with
               | [] => Some []
               | q :: ps' =>
                   match reify fuel' h q, all ps' with
                   | Some t, Some ts => Some (t :: ts)
                   | _, _ => None
                   end
               end) (Content n)
          with
          | Some ts => Some (TNode (Kind n) (Tag n) (Value n) ts (Line n) (Column n))
          | None => None
          end
      end
  end.

(** The text up to the next double quote, and what follows the quote. *)
Fixpoint read_quoted (s : string) : option (string * string) :=
  match s with
  | EmptyString => None
  | String c s' =>
      if Ascii.eqb c "034"%char then Some (EmptyString, s')
      else match read_quoted s' with
           | Some (w, r) => Some (String c w, r)
           | None => None
           end
  end.

(** The pairs of a flow mapping whose keys and values are double-quoted
    strings, from the first key to the closing brace. *)
Fixpoint parse_pairs (fuel : nat) (s : string) : option (list Tree) :=
  match fuel, s with
  | S fuel', String q s1 =>
      if negb (Ascii.eqb q "034"%char) then None else
      match read_quoted s1 with
      | Some (k, String colon (String q2 s2)) =>
          if negb (Ascii.eqb colon ":"%char && Ascii.eqb q2 "034"%char) then None else
          match read_quoted s2 with
          | Some (v, String sep rest) =>
              if Ascii.eqb sep "}"%char then
                match rest with
                | EmptyString => Some [Tstr k; Tstr v]
                | _ => None
                end
              else if Ascii.eqb sep ","%char then
                match parse_pairs fuel' rest with
                | Some kvs => Some (Tstr k :: Tstr v :: kvs)
                | None => None
                end
              else None
          | _ => None
          end
      | _ => None
      end
  | _, _ => None
  end.

(** A reader for the JSON objects the package's examples use as predicate
    tokens: a brace-enclosed list of ["key":"value"] pairs.  It stands in for
    [yaml.Unmarshal] in the worked examples; any other text is an error. *)
Definition parse_flow (s : string) : option Tree :=
  match s with
  | String c s' =>
      if negb (Ascii.eqb c "{"%char) then None
      else if String.eqb s' "}" then Some (Tdoc (Tmap []))
      else match parse_pairs (String.length s') s' with
           | Some kvs => Some (Tdoc (Tmap kvs))
           | None => None
           end
  | EmptyString => None
  end.

(** Modelled from the spec: [isTreeSubset], in a file of the package that is
    not among the sources.  A Scalar pattern matches a Scalar of equal value;
    a Mapping pattern matches a Mapping that has, for every pair of the
    pattern, a pair with the same key whose value matches; a Sequence pattern
    matches a Sequence of equal length, element by element; other kinds do
    not match.  The pattern parsed from a token is a document, whose wrapper
    is skipped. *)
Fixpoint isTreeSubset_spec (a : Tree) (h : heap) (b : addr) {struct a} : bool :=
  match a, h !! b with
  | TNode ka _ va ca _ _, Some nb =>
      match ka with
      | ScalarNode => Kind_eqb (Kind nb) ScalarNode && String.eqb va (Value nb)
      | MappingNode =>
          Kind_eqb (Kind nb) MappingNode &&
          (fix every_pair (ps : list Tree) : bool :=
             match ps with
             | TNode _ _ key _ _ _ :: v :: ps' =>
                 (fix some_pair (cs : list addr) : bool :=
                    match cs with
                    | kb :: vb :: cs' =>
                        (match h !! kb with
                         | Some nk => String.eqb key (Value nk) && isTreeSubset_spec v h vb
                         | None => false
                         end) || some_pair cs'
                    | _ => false
                    end) (Content nb)
                 && every_pair ps'
             | _ => true
             end) ca
      | SequenceNode =>
          Kind_eqb (Kind nb) SequenceNode &&
          (fix each (ps : list Tree) (cs : list addr) : bool :=
             match ps, cs with
             | [], [] => true
             | p :: ps', c :: cs' => isTreeSubset_spec p h c && each ps' cs'
             | _, _ => false
             end) ca (Content nb)
      | DocumentNode =>
          match ca with
          | [p] => isTreeSubset_spec p h b
          | _ => false
          end
      | _ => false
      end
  | _, None => false
  end.


Local Close Scope Z_scope.
Local Open Scope nat_scope.

(** ** Vocabulary of the statements *)

(** The (key, value) pairs of a mapping's interleaved content. *)
Fixpoint pairs (c : list addr) : list (addr * addr) :=
  match c with
  | k :: v :: c' => (k, v) :: pairs c'
  | _ => []
  end.

(** The key of a pair is a node of the store whose [Value] is not [tok]. *)
Definition key_differs (h : heap) (tok : string) (kv : addr * addr) : Prop :=
  exists key, h !! fst kv = Some key /\ Value key <> tok.

(** The key of a pair is a node of the store whose [Value] is [tok]. *)
Definition key_equals (h : heap) (tok : string) (kv : addr * addr) : Prop :=
  exists key, h !! fst kv = Some key /\ Value key = tok.

(** The node a document node wraps, and the node reached from [a] through
    [k] document nodes in a row. *)
Definition doc_child (h : heap) (a : addr) : option addr :=
  match h !! a with
  | Some r =>
      match Kind r, Content r with
      | DocumentNode, c0 :: _ => Some c0
      | _, _ => None
      end
  | None => None
  end.

Fixpoint doc_chain (h : heap) (a : addr) (k : nat) : option addr :=
  match k with
  | O => Some a
  | S k' =>
      match doc_child h a with
      | Some c => doc_chain h c k'
      | None => None
      end
  end.

(** The node [Insert] starts from: the root, or the child of a root that is
    a document node. *)
Definition insert_root (h : heap) (root : addr) : option addr :=
  match h !! root with
  | Some r =>
      if Kind_eqb (Kind r) DocumentNode then head (Content r) else Some root
  | None => None
  end.

(** The value [Insert] inserts: the value, or the child of a value that is a
    document node. *)
Definition insert_value (h : heap) (value : Node) : option Node :=
  if Kind_eqb (Kind value) DocumentNode then
    match Content value with
    | c0 :: _ => h !! c0
    | [] => None
    end
  else Some value.

(** The lengths of the content slices fit in a Go [int]. *)
Definition int_sized (h : heap) : Prop :=
  Forall (fun n => (Z.of_nat (length (Content n)) <= maxInt)%Z) h.

(** The document below an address is a tree: [shaped h a fp] when the nodes
    that can be reached from [a] are the cells [fp], each reached in one way
    only (no node is shared, none is below itself). *)
Inductive shaped (h : heap) : addr -> list addr -> Prop :=
| shaped_node (a : addr) (n : Node) (fp : list addr) :
    h !! a = Some n ->
    shaped_list h (Content n) fp ->
    ~ In a fp ->
    shaped h a (a :: fp)
with shaped_list (h : heap) : list addr -> list addr -> Prop :=
| shaped_nil : shaped_list h [] []
| shaped_cons (c : addr) (cs fpc fps : list addr) :
    shaped h c fpc ->
    shaped_list h cs fps ->
    (forall x, In x fpc -> ~ In x fps) ->
    shaped_list h (c :: cs) (fpc ++ fps).

Scheme shaped_mut := Induction for shaped Sort Prop
  with shaped_list_mut := Induction for shaped_list Sort Prop.

(** The cells of [h] outside [S] are in [h'] as they are in [h]. *)
Definition unchanged_outside (S : list addr) (h h' : heap) : Prop :=
  length h <= length h'
  /\ forall a n, h !! a = Some n -> ~ In a S -> h' !! a = Some n.

(** [strconv.Itoa] of a natural number: its decimal digits. *)
Definition digit_char (d : nat) : ascii := ascii_of_nat (48 + d).

Fixpoint itoa_fuel (fuel n : nat) (acc : string) : string :=
  match fuel with
  | O => acc
  | S fuel' =>
      let acc' := String (digit_char (n mod 10)) acc in
      if n <? 10 then acc' else itoa_fuel fuel' (n / 10) acc'
  end.

Definition itoa (n : nat) : string := itoa_fuel (S n) n "".

(** The pointer whose tokens are [toks]. *)
Fixpoint pointer_of (toks : list string) : string :=
  match toks with
  | [] => ""
  | tok :: toks' => String "/" (tok ++ pointer_of toks')
  end.

(** A token with no [/] in it. *)
Definition no_slash (tok : string) : Prop := split_slash tok = [tok].

(** The value of the first pair of a mapping's content whose key is [tok]. *)
Fixpoint lookup_pairs (h : heap) (tok : string) (c : list addr) : option addr :=
  match c with
  | k :: v :: c' =>
      match h !! k with
      | Some key =>
          if String.eqb tok (Value key) then Some v else lookup_pairs h tok c'
      | None => None
      end
  | _ => None
  end.

(** The position of the first element that satisfies [p]. *)
Fixpoint first_index (p : addr -> bool) (c : list addr) : option nat :=
  match c with
  | [] => None
  | x :: c' =>
      if p x then Some 0
      else match first_index p c' with
           | Some i => Some (S i)
           | None => None
           end
  end.

(** What [Insert] leaves at the place it inserted [value], found there as
    node [p]: the value itself, or, when the value is a Mapping and a Mapping
    was already there (in the document, or the placeholder [Insert] had just
    made), that Mapping with the content of the value after its own. *)
Definition found_ok (h h' : heap) (p : addr) (value : Node) : Prop :=
  h' !! p = Some value
  \/ (Kind value = MappingNode
      /\ exists old,
           (h !! p = Some old
            \/ (h !! p = None /\ old = node_lit MappingNode "!!map" ""))
           /\ Kind old = MappingNode
           /\ h' !! p = Some (with_Content old (Content old ++ Content value))).

Section Vocabulary.

Variable Unmarshal : string -> option Tree.
Variable isTreeSubset : Tree -> heap -> addr -> bool.

(** [descends h a toks b]: from node [a], the tokens [toks] lead [insert]
    down to node [b] through nodes that exist: each token is matched at a
    Mapping or a Sequence, and the first match (not a Scalar, at a Sequence)
    is the next node. *)
Inductive descends (h : heap) : addr -> list string -> addr -> Prop :=
| descends_here (a : addr) : descends h a [] a
| descends_step (a b c : addr) (r m : Node) (tok : string)
    (toks : list string) (next : list addr) :
    h !! a = Some r ->
    Kind r = MappingNode \/ (Kind r = SequenceNode /\ Kind m <> ScalarNode) ->
    match_ Unmarshal isTreeSubset a tok h = (h, Ok (b :: next)) ->
    h !! b = Some m ->
    descends h b toks c ->
    descends h a (tok :: toks) c.

(** The concrete path of an insertion: the tokens of [toks] as [insert]
    reads them from node [root] in the store [h], with the index of the
    position used in place of a token [-] (the length of the sequence) and
    of a predicate token (the position of the first element it selects).
    Tokens that are read in nodes [insert] creates are keys, and stay. *)
Fixpoint resolve (h : heap) (root : addr) (toks : list string) {struct toks}
  : list string :=
  match toks with
  | [] => []
  | tok :: rest =>
      match h !! root with
      | None => toks
      | Some r =>
          match Kind r with
          | MappingNode =>
              tok :: match lookup_pairs h tok (Content r) with
                     | Some next0 => resolve h next0 rest
                     | None => rest
                     end
          | SequenceNode =>
              if HasPrefix tok "~{" then
                match Unmarshal (tail1 tok) with
                | None => toks
                | Some mtree =>
                    match first_index (isTreeSubset mtree h) (Content r) with
                    | None => toks
                    | Some i =>
                        itoa i :: match Content r !! i with
                                  | Some next0 => resolve h next0 rest
                                  | None => rest
                                  end
                    end
                end
              else if String.eqb tok "-" then itoa (length (Content r)) :: rest
              else
                tok :: match Atoi tok with
                       | None => rest
                       | Some i =>
                           match Content r !! Z.to_nat i with
                           | None => rest
                           | Some next0 =>
                               match h !! next0 with
                               | None => rest
                               | Some m =>
                                   if Kind_eqb (Kind m) ScalarNode then rest
                                   else resolve h next0 rest
                               end
                           end
                       end
          | _ => toks
          end
      end
  end.

(** After an insertion below node [r] that took the store from [h] to [h']:
    only cells of [fp] were written, [r] is a node of the same kind, and the
    tokens [toks'] lead [find] from [r] to one node, which holds what the
    insertion left for [value]. *)
Definition roundtrip_at (h h' : heap) (r : addr) (fp : list addr)
  (toks' : list string) (value : Node) : Prop :=
  unchanged_outside fp h h'
  /\ (exists n n', h !! r = Some n /\ h' !! r = Some n' /\ Kind n' = Kind n)
  /\ exists p,
       find Unmarshal isTreeSubset r toks' h' = (h', Ok [p])
       /\ found_ok h h' p value.

(** The pointer [Find] is given after [Insert root ptr]: the concrete path
    of the insertion, from the node [Insert] starts from. *)
Definition resolved_pointer (h : heap) (root : addr) (ptr : string) : string :=
  match jsonPointerToTokens ptr, insert_root h root with
  | Ok toks, Some start => pointer_of (resolve h start toks)
  | _, _ => ptr
  end.

(** [raised e]: the error [e] is made by one of the steps of an insertion:
    returned by a call of [match] or of [sequenceInsertAt], or one of the two
    errors [insert] itself makes. *)
Inductive raised (e : error) : Prop :=
| raised_match (node : addr) (tok : string) (h0 h1 : heap) :
    match_ Unmarshal isTreeSubset node tok h0 = (h1, Err e) -> raised e
| raised_sequenceInsertAt (node : addr) (tok : string) (n : Node) (h0 h1 : heap) :
    sequenceInsertAt node tok n h0 = (h1, Err e) -> raised e
| raised_cannot_insert (vk rk : yaml_Kind) (vt rt : string) :
    e = CannotInsert vk vt rk rt -> raised e
| raised_unhandled (k : yaml_Kind) (t : string) :
    e = UnhandledNodeType k t -> raised e.

End Vocabulary.

(** No token of the list is a predicate token [~{...}]. *)
Definition no_predicate (toks : list string) : Prop :=
  Forall (fun tok => HasPrefix tok "~{" = false) toks.

(** Every pointer stored in a node of the store is to a cell of the store:
    no node holds a nil pointer. *)
Definition closed (h : heap) : Prop :=
  Forall (fun n => Forall (fun c => c < length h) (Content n)) h.

(** ** The documents of the worked examples *)

(** The document of the package's [ExampleFind]:
    [{a: {b: {c: 42}}, d: [e, f]}] under its document node. *)
Definition find_doc : Tree :=
  Tdoc (Tmap [Tstr "a"; Tmap [Tstr "b"; Tmap [Tstr "c"; Tint "42"]];
              Tstr "d"; Tseq [Tstr "e"; Tstr "f"]]).

(** The store after the document is built; its cells are numbered children
    first: 10 is the root mapping, 9 the sequence [d], 11 the document. *)
Definition find_heap : heap := Eval vm_compute in fst (build find_doc []).

(** The containers of the package's [ExampleFind_extension]:
    [{containers: [{name: app, image: nginx}, {name: sidecar, image: mysidecar}]}]
    under its document node. *)
Definition deploy_doc : Tree :=
  Tdoc (Tmap [Tstr "containers";
              Tseq [Tmap [Tstr "name"; Tstr "app"; Tstr "image"; Tstr "nginx"];
                    Tmap [Tstr "name"; Tstr "sidecar"; Tstr "image"; Tstr "mysidecar"]]]).

(** Its store: 5 and 10 are the two containers, 11 the sequence, 12 the root
    mapping, 13 the document. *)
Definition deploy_heap : heap := Eval vm_compute in fst (build deploy_doc []).

(** The predicate token that selects the elements whose [name] is [v]. *)
Definition name_is (v : string) : string :=
  ("~{" ++ dquote ++ "name" ++ dquote ++ ":" ++ dquote ++ v ++ dquote ++ "}")%string.

(** The scalar [x] the package's tests insert. *)
Definition scalar_x : Node := node_lit ScalarNode "!!str" "x".

(** The store after [Insert(&n, "/d/-/c", x)] on [find_doc]. *)
Definition find_heap_dash_c : heap :=
  Eval vm_compute in
    fst (Insert parse_flow isTreeSubset_spec 11 "/d/-/c" scalar_x find_heap).

(** [find_doc] with the nodes of the mapping [{q: xyz}] (cells 12 and 13)
    after it, and that mapping as a value. *)
Definition merge_heap : heap :=
  find_heap ++ [node_lit ScalarNode "!!str" "q"; node_lit ScalarNode "!!str" "xyz"].

Definition mapping_q : Node := mkNode MappingNode "!!map" "" [12; 13] 1 1.

(** The store after [Insert(&n, "/a", {q: xyz})]. *)
Definition merge_heap_a : heap :=
  Eval vm_compute in
    fst (Insert parse_flow isTreeSubset_spec 11 "/a" mapping_q merge_heap).

(** ** Vocabulary of the further properties *)

(** The number of [/] characters of a string. *)
Fixpoint slash_count (s : string) : nat :=
  match s with
  | EmptyString => 0
  | String c s' => (if Ascii.eqb c "/"%char then 1 else 0) + slash_count s'
  end.

(** The cells a lookup adds to the store: dummy scalar nodes, one for each
    token [-] that [match] met at a sequence. *)
Definition dummies (ext : heap) : Prop :=
  Forall (fun n => n = node_lit ScalarNode "" "") ext.

(** What an insertion leaves of a node [n] of the store, as [n']: the
    children of [n] are children of [n'], in the same order, and [n'] has the
    kind, tag, value and position of [n], unless [n] was a Mapping with no
    content (which an insertion may overwrite with the value). *)
Definition kept (n n' : Node) : Prop :=
  sublist (Content n) (Content n')
  /\ ((Kind n = MappingNode /\ Content n = [])
      \/ (Kind n' = Kind n /\ Tag n' = Tag n /\ Value n' = Value n
          /\ Line n' = Line n /\ Column n' = Column n)).

(** Every node of [h] is in [h'] at the same address, kept. *)
Definition extends (h h' : heap) : Prop :=
  forall a n, h !! a = Some n -> exists n', h' !! a = Some n' /\ kept n n'.

(** [h'] is [h] followed by dummy cells, and by none unless [dash] holds. *)
Definition dummies_added (dash : Prop) (h h' : heap) : Prop :=
  exists ext, h' = h ++ ext /\ dummies ext /\ (~ dash -> ext = []).

(** [below h a c]: the node [c] is below the node [a] in the store [h], a
    child of [a] or of a node below [a]. *)
Inductive below (h : heap) : addr -> addr -> Prop :=
| below_child (a c : addr) (n : Node) :
    h !! a = Some n -> In c (Content n) -> below h a c
| below_step (a c d : addr) (n : Node) :
    h !! a = Some n -> In c (Content n) -> below h c d -> below h a d.

(** ** Proof steps *)

(** [alloc], [load] and [store] return no error. *)
Ltac step_cannot_fail H :=
  first [ discriminate H
        | unfold load in H;
          match type of H with
          | context [?hh !! ?p] => destruct (hh !! p)
          end; discriminate H
        | unfold store in H;
          match type of H with
          | context [?hh !! ?p] => destruct (hh !! p)
          end; discriminate H ].

(** A store given cell by cell is a tree below an address. *)
Ltac shaped_tac :=
  repeat first
    [ apply shaped_nil
    | eapply shaped_node; [reflexivity | cbn [Content] | ]
    | eapply shaped_cons ];
  try (cbn; lia);
  try (intros ? ? ?; cbn in *; lia).

(** * Properties *)

(** ** Basic facts about the monad and the store *)

Lemma Kind_eqb_eq (a b : yaml_Kind) : Kind_eqb a b = true <-> a = b.
Proof. destruct a, b; simpl; split; congruence. Qed.

Lemma Kind_eqb_neq (a b : yaml_Kind) : Kind_eqb a b = false <-> a <> b.
Proof. destruct a, b; simpl; split; congruence. Qed.

Lemma Kind_eqb_refl (a : yaml_Kind) : Kind_eqb a a = true.
Proof. now destruct a. Qed.

Lemma bind_unfold {A B} (m : M A) (f : A -> M B) (h : heap) :
  bind m f h =
  match m h with
  | (h', Ok a) => f a h'
  | (h', Err e) => (h', Err e)
  | (h', Panic p) => (h', Panic p)
  end.
Proof. reflexivity. Qed.

Lemma bind_ok {A B} (m : M A) (f : A -> M B) (h h' : heap) (a : A) :
  m h = (h', Ok a) -> bind m f h = f a h'.
Proof. intros E. unfold bind. now rewrite E. Qed.

Lemma bind_err {A B} (m : M A) (f : A -> M B) (h h' : heap) (e : error) :
  m h = (h', Err e) -> bind m f h = (h', Err e).
Proof. intros E. unfold bind. now rewrite E. Qed.

Lemma bind_panic {A B} (m : M A) (f : A -> M B) (h h' : heap) (p : panic) :
  m h = (h', Panic p) -> bind m f h = (h', Panic p).
Proof. intros E. unfold bind. now rewrite E. Qed.

Lemma load_ok (h : heap) (p : addr) (n : Node) :
  h !! p = Some n -> load p h = (h, Ok n).
Proof. intros E. unfold load. now rewrite E. Qed.

Lemma store_ok (h : heap) (p : addr) (n m : Node) :
  h !! p = Some n -> store p m h = (<[p := m]> h, Ok tt).
Proof. intros E. unfold store. now rewrite E. Qed.

Lemma filter_loop_spec (pred : nodePredicate) (nodes res : list addr) (h : heap) :
  filter_loop pred res nodes h = (h, Ok (res ++ List.filter (pred h) nodes)).
Proof.
  revert res. induction nodes as [|n nodes IH]; intros res; simpl.
  - unfold ret. now rewrite app_nil_r.
  - destruct (pred h n); rewrite IH; [now rewrite <- app_assoc|reflexivity].
Qed.

Lemma filter_spec (pred : nodePredicate) (nodes : list addr) (h : heap) :
  filter nodes pred h = (h, Ok (List.filter (pred h) nodes)).
Proof. unfold filter. now rewrite filter_loop_spec. Qed.

(** ** The tokenizer *)

#[local] Arguments Ascii.eqb : simpl never.
#[local] Arguments String.eqb : simpl never.

Lemma split_slash_nonempty (s : string) : split_slash s <> [].
Proof.
  destruct s as [|c s]; simpl; [discriminate|].
  destruct (Ascii.eqb c "/"); [discriminate|].
  destruct (split_slash s); discriminate.
Qed.

Lemma tokens_nonempty (ptr : string) (toks : list string) :
  ptr <> "" -> jsonPointerToTokens ptr = Ok toks -> toks <> [].
Proof.
  intros Hne. unfold jsonPointerToTokens, ValidateJSONPointer.
  destruct (String.eqb_spec ptr ""); [contradiction|].
  destruct ptr as [|c s]; [contradiction|]. simpl.
  rewrite Ascii.eqb_sym.
  destruct (Ascii.eqb_spec c "/"); simpl.
  - intros E. injection E as <-. apply split_slash_nonempty.
  - discriminate.
Qed.


(** Induction over a list two elements at a time. *)
Lemma list_pair_ind {A} (P : list A -> Prop) :
  P [] -> (forall x, P [x]) -> (forall x y l, P l -> P (x :: y :: l)) ->
  forall l, P l.
Proof.
  intros H0 H1 H2. fix IH 1.
  intros [|x [|y l]]; [exact H0 | exact (H1 x) | exact (H2 x y l (IH l))].
Qed.

(** ** Stores that differ in a few cells *)

Lemma unchanged_outside_refl (S : list addr) (h : heap) : unchanged_outside S h h.
Proof. split; [lia | auto]. Qed.

Lemma unchanged_outside_app (S : list addr) (h ext : heap) :
  unchanged_outside S h (h ++ ext).
Proof.
  split; [rewrite length_app; lia|]. intros a n Ha _.
  rewrite lookup_app_l; [assumption | now apply lookup_lt_Some in Ha].
Qed.

Lemma unchanged_outside_store (S : list addr) (h : heap) (p : addr) (n : Node) :
  In p S -> unchanged_outside S h (<[p := n]> h).
Proof.
  intros Hp. split; [rewrite length_insert; lia|]. intros a m Ha Hn.
  rewrite list_lookup_insert_ne; [assumption | congruence].
Qed.

Lemma unchanged_outside_trans (S S' : list addr) (h h1 h2 : heap) :
  unchanged_outside S h h1 ->
  unchanged_outside S' h1 h2 ->
  (forall a, In a S' -> In a S \/ length h <= a) ->
  unchanged_outside S h h2.
Proof.
  intros [Hl1 H1] [Hl2 H2] Hsub. split; [lia|]. intros a n Ha Hn.
  apply H2; [now apply H1|]. intros Hin. apply Hsub in Hin as [Hin|Hge].
  - contradiction.
  - apply lookup_lt_Some in Ha. lia.
Qed.

Lemma unchanged_outside_weaken (S S' : list addr) (h h' : heap) :
  unchanged_outside S h h' -> (forall a, In a S -> In a S') ->
  unchanged_outside S' h h'.
Proof. intros [Hl H] Hsub. split; [assumption|]. intros a n Ha Hn. auto. Qed.

(** ** Tree-shaped documents *)

Lemma shaped_head (h : heap) (a : addr) (fp : list addr) :
  shaped h a fp -> In a fp.
Proof. intros [a' n fp' _ _ _]. now left. Qed.

Lemma shaped_list_elem (h : heap) (cs fp : list addr) (c : addr) :
  shaped_list h cs fp -> In c cs -> In c fp.
Proof.
  induction 1 as [|c0 cs fpc fps Hc Hcs IH Hdis]; intros Hin; [contradiction|].
  apply in_or_app. destruct Hin as [<-|Hin].
  - left. now apply shaped_head in Hc.
  - right. now apply IH.
Qed.

Lemma shaped_child (h : heap) (cs fp : list addr) (j : nat) (c : addr) :
  shaped_list h cs fp ->
  cs !! j = Some c ->
  exists fpc,
    shaped h c fpc
    /\ (forall x, In x fpc -> In x fp)
    /\ (forall i k, cs !! i = Some k -> i <> j -> ~ In k fpc).
Proof.
  intros Hs. revert j. induction Hs as [|c0 cs fpc fps Hc Hcs IH Hdis]; intros j Hj.
  - discriminate.
  - destruct j as [|j].
    + injection Hj as <-. exists fpc. split; [assumption|]. split.
      * intros x Hx. apply in_or_app. now left.
      * intros i k Hi Hne Hin. destruct i as [|i]; [contradiction|].
        apply (Hdis k Hin). apply (shaped_list_elem h cs); [assumption|].
        apply list_elem_of_In. apply (list_elem_of_lookup_2 cs i k). exact Hi.
    + destruct (IH j Hj) as (fpj & Hsj & Hsub & Hoth). exists fpj.
      split; [assumption|]. split.
      * intros x Hx. apply in_or_app. right. now apply Hsub.
      * intros i k Hi Hne Hin. destruct i as [|i].
        -- assert (k = c0) as -> by (now injection Hi).
           apply shaped_head in Hc. apply (Hdis c0 Hc). now apply Hsub.
        -- apply (Hoth i k Hi); [congruence | assumption].
Qed.

Lemma shaped_app (h ext : heap) (a : addr) (fp : list addr) :
  shaped h a fp -> shaped (h ++ ext) a fp.
Proof.
  revert a fp.
  apply (shaped_mut h
           (fun a fp _ => shaped (h ++ ext) a fp)
           (fun cs fp _ => shaped_list (h ++ ext) cs fp)).
  - intros a n fp Hn _ IH Hnot. apply (shaped_node _ a n); [|assumption..].
    rewrite lookup_app_l; [assumption | now apply lookup_lt_Some in Hn].
  - constructor.
  - intros c cs fpc fps _ IHc _ IHcs Hdis. now constructor.
Qed.

Lemma shaped_leaf (h : heap) (p : addr) (n : Node) :
  h !! p = Some n -> Content n = [] -> shaped h p [p].
Proof.
  intros Hp Hc. apply (shaped_node h p n []); [assumption | | intros []].
  rewrite Hc. constructor.
Qed.

(** ** Indices as tokens *)

Lemma digit_of_digit_char (d : nat) :
  d < 10 -> digit_of (digit_char d) = Some (Z.of_nat d).
Proof.
  intros H. do 10 (destruct d as [|d]; [reflexivity|]). lia.
Qed.

Lemma digit_char_not_sign (d : nat) :
  d < 10 ->
  Ascii.eqb (digit_char d) "-" = false /\ Ascii.eqb (digit_char d) "+" = false
  /\ Ascii.eqb (digit_char d) "/" = false.
Proof.
  intros H. do 10 (destruct d as [|d]; [repeat split|]). lia.
Qed.

Lemma itoa_fuel_digits (fuel n : nat) (acc : string) :
  n < fuel ->
  exists k : Z, forall a : Z,
    digits (itoa_fuel fuel n acc) a = digits acc (a * 10 ^ k + Z.of_nat n)%Z
    /\ (0 < k)%Z.
Proof.
  revert n acc. induction fuel as [|fuel IH]; intros n acc Hn; [lia|].
  cbn [itoa_fuel]. destruct (Nat.ltb_spec n 10) as [Hlt|Hge].
  - exists 1%Z. intros a. cbn [digits].
    rewrite Nat.mod_small by assumption.
    rewrite (digit_of_digit_char n Hlt). split; [|lia]. f_equal; lia.
  - assert (Hdiv : n / 10 < fuel).
    { pose proof (Nat.div_lt n 10). lia. }
    destruct (IH (n / 10) (String (digit_char (n mod 10)) acc) Hdiv) as [k Hk].
    exists (k + 1)%Z. intros a. destruct (Hk a) as [-> Hpos]. split; [|lia].
    cbn [digits].
    rewrite (digit_of_digit_char (n mod 10)) by (apply Nat.mod_upper_bound; lia).
    f_equal. rewrite Z.pow_add_r by lia.
    pose proof (Nat.div_mod_eq n 10) as Hdm.
    rewrite Hdm at 3. rewrite Nat2Z.inj_add, Nat2Z.inj_mul. change (Z.of_nat 10) with 10%Z.
    lia.
Qed.

Lemma itoa_fuel_head (fuel n : nat) (acc : string) :
  exists d s, d < 10 /\ itoa_fuel (S fuel) n acc = String (digit_char d) s.
Proof.
  revert n acc. induction fuel as [|fuel IH]; intros n acc.
  - cbn [itoa_fuel]. exists (n mod 10), acc.
    split; [apply Nat.mod_upper_bound; lia|]. now destruct (n <? 10).
  - change (itoa_fuel (S (S fuel)) n acc)
      with (if n <? 10 then String (digit_char (n mod 10)) acc
            else itoa_fuel (S fuel) (n / 10) (String (digit_char (n mod 10)) acc)).
    destruct (n <? 10); [|apply IH].
    exists (n mod 10), acc. split; [apply Nat.mod_upper_bound; lia | reflexivity].
Qed.

Lemma Atoi_itoa (n : nat) :
  (Z.of_nat n <= maxInt)%Z -> Atoi (itoa n) = Some (Z.of_nat n).
Proof.
  intros Hmax. unfold itoa.
  destruct (itoa_fuel_digits (S n) n "" (Nat.lt_succ_diag_r n)) as [k Hk].
  destruct (Hk 0%Z) as [Hd _]. cbn [digits] in Hd.
  destruct (itoa_fuel_head n n "") as (d & s & Hlt & Hs).
  rewrite Hs in *. unfold Atoi.
  destruct (digit_char_not_sign d Hlt) as (-> & -> & _). cbn [orb].
  rewrite Hd. replace (0 * 10 ^ k + Z.of_nat n)%Z with (Z.of_nat n) by lia.
  assert (Hr : ((minInt <=? Z.of_nat n) && (Z.of_nat n <=? maxInt))%Z = true).
  { apply andb_true_iff. split; apply Z.leb_le; [|assumption].
    unfold minInt. lia. }
  now rewrite Hr.
Qed.

(** ** Pointers from tokens *)

Lemma split_slash_app (s t : string) :
  split_slash (s ++ String "/" t) = split_slash s ++ split_slash t.
Proof.
  induction s as [|c s IH]; cbn [String.append split_slash].
  - change (Ascii.eqb "/" "/") with true. reflexivity.
  - destruct (Ascii.eqb c "/"); [now rewrite IH|].
    rewrite IH. pose proof (split_slash_nonempty s).
    destruct (split_slash s); [contradiction | reflexivity].
Qed.

Lemma append_empty_r (s : string) : (s ++ "")%string = s.
Proof. induction s as [|c s IH]; [reflexivity|]. cbn [String.append]. now rewrite IH. Qed.

Lemma no_slash_cons (c : ascii) (s : string) :
  Ascii.eqb c "/" = false -> no_slash s -> no_slash (String c s).
Proof. unfold no_slash. intros Hc Hs. cbn [split_slash]. now rewrite Hc, Hs. Qed.

Lemma itoa_fuel_no_slash (fuel n : nat) (acc : string) :
  no_slash acc -> no_slash (itoa_fuel fuel n acc).
Proof.
  revert n acc. induction fuel as [|fuel IH]; intros n acc Hacc; [assumption|].
  cbn [itoa_fuel].
  assert (Hd : no_slash (String (digit_char (n mod 10)) acc)).
  { apply no_slash_cons; [|assumption].
    apply digit_char_not_sign, Nat.mod_upper_bound. lia. }
  destruct (n <? 10); [assumption | now apply IH].
Qed.

Lemma itoa_no_slash (n : nat) : no_slash (itoa n).
Proof. apply itoa_fuel_no_slash. reflexivity. Qed.

Lemma split_slash_no_slash (s : string) : Forall no_slash (split_slash s).
Proof.
  induction s as [|c s IH]; cbn [split_slash].
  - repeat constructor.
  - destruct (Ascii.eqb c "/") eqn:Hc.
    + constructor; [reflexivity | assumption].
    + pose proof (split_slash_nonempty s).
      destruct (split_slash s) as [|w ws]; [contradiction|].
      apply Forall_cons_1 in IH as [Hw Hws].
      constructor; [now apply no_slash_cons | assumption].
Qed.

Lemma tokens_no_slash (ptr : string) (toks : list string) :
  jsonPointerToTokens ptr = Ok toks -> Forall no_slash toks.
Proof.
  unfold jsonPointerToTokens.
  destruct (String.eqb ptr ""); [intros [= <-]; constructor|].
  destruct (ValidateJSONPointer ptr); [discriminate|].
  pose proof (split_slash_no_slash ptr) as H.
  destruct (split_slash ptr) as [|w ws]; [discriminate|].
  intros [= <-]. now apply Forall_cons_1 in H as [_ H].
Qed.

Lemma split_slash_pointer_of (toks : list string) :
  toks <> [] -> Forall no_slash toks ->
  split_slash (pointer_of toks) = "" :: toks.
Proof.
  induction toks as [|tok toks IH]; intros Hne Hall; [contradiction|].
  apply Forall_cons_1 in Hall as [Htok Hall].
  cbn [pointer_of split_slash]. change (Ascii.eqb "/" "/") with true. cbv iota.
  f_equal. destruct toks as [|tok' toks].
  - cbn [pointer_of]. rewrite append_empty_r. exact Htok.
  - specialize (IH ltac:(discriminate) Hall).
    cbn [pointer_of] in *. rewrite split_slash_app.
    cbn [split_slash] in IH. change (Ascii.eqb "/" "/") with true in IH.
    injection IH as IH. rewrite IH. unfold no_slash in Htok. now rewrite Htok.
Qed.

Lemma tokens_pointer_of (toks : list string) :
  toks <> [] -> Forall no_slash toks ->
  jsonPointerToTokens (pointer_of toks) = Ok toks
  /\ String.eqb (pointer_of toks) "" = false.
Proof.
  intros Hne Hall. pose proof (split_slash_pointer_of toks Hne Hall) as Hs.
  destruct toks as [|tok toks]; [contradiction|].
  unfold jsonPointerToTokens, ValidateJSONPointer. rewrite Hs.
  cbn [pointer_of HasPrefix].
  change (Ascii.eqb "/" "/") with true. cbn [andb negb].
  destruct (String.eqb_spec (String "/" (tok ++ pointer_of toks)) "");
    [discriminate | now split].
Qed.
Section Properties.

Variable Unmarshal : string -> option Tree.
Variable isTreeSubset : Tree -> heap -> addr -> bool.

#[local] Abbreviation match_ := (match_ Unmarshal isTreeSubset).
#[local] Abbreviation match_fuel := (match_fuel Unmarshal isTreeSubset).
#[local] Abbreviation find := (find Unmarshal isTreeSubset).
#[local] Abbreviation FindAll := (FindAll Unmarshal isTreeSubset).
#[local] Abbreviation Find := (Find Unmarshal isTreeSubset).
#[local] Abbreviation insert := (insert Unmarshal isTreeSubset).
#[local] Abbreviation Insert := (Insert Unmarshal isTreeSubset).
#[local] Abbreviation sequenceInsert := (sequenceInsert Unmarshal isTreeSubset).
#[local] Abbreviation mapInsert := (mapInsert Unmarshal isTreeSubset).

(** C8 (amended).  [find] has no case for an empty token sequence: applied
    to one it indexes [toks[0]] and faults, whatever the root.  [FindAll]
    never puts it there: it refuses the empty pointer with an error, and
    every other pointer the tokenizer accepts has at least one token. *)
Theorem find_empty_tokens (root : addr) (h : heap) :
  find root [] h = (h, Panic IndexOutOfRange)
  /\ FindAll root "" h = (h, Err EmptyPointerError)
  /\ (forall ptr toks,
        ptr <> "" -> jsonPointerToTokens ptr = Ok toks -> toks <> []).
Proof.
  repeat split.
  intros ptr toks. apply tokens_nonempty.
Qed.


(** ** The matcher *)

Lemma match_fuel_unfold (fuel : nat) (root : addr) (tok : string) (h : heap) :
  match_fuel fuel root tok h =
  bind (load root) (fun r =>
    let c := Content r in
    match Kind r with
    | MappingNode =>
        if Nat.odd (length c) then throw (MalformedTree (length c))
        else match_pairs tok c
    | SequenceNode =>
        if HasPrefix tok "~{" then
          match Unmarshal (tail1 tok) with
          | None => throw (YamlError (tail1 tok))
          | Some mtree => filter c (treeSubsetPred isTreeSubset mtree)
          end
        else if String.eqb tok "-" then
          bind (alloc (node_lit ScalarNode "" "")) (fun dummy => ret [dummy])
        else
          match Atoi tok with
          | None => throw (NotAnIndex tok)
          | Some i =>
              if ((i <? 0) || (i >=? Z.of_nat (length c)))%Z then throw OutOfBounds
              else ret (take 1 (drop (Z.to_nat i) c))
          end
    | DocumentNode =>
        match c with
        | [] => crash IndexOutOfRange
        | c0 :: _ =>
            match fuel with
            | O => crash StackOverflow
            | S fuel' => match_fuel fuel' c0 tok
            end
        end
    | _ => throw (UnhandledNodeType (Kind r) (Tag r))
    end) h.
Proof. destruct fuel; reflexivity. Qed.

Lemma match_at_Mapping (root : addr) (tok : string) (h : heap) (r : Node) :
  h !! root = Some r -> Kind r = MappingNode ->
  match_ root tok h =
  if Nat.odd (length (Content r)) then (h, Err (MalformedTree (length (Content r))))
  else match_pairs tok (Content r) h.
Proof.
  intros Hr Hk. unfold match_. rewrite match_fuel_unfold.
  rewrite (bind_ok _ _ _ _ _ (load_ok _ _ _ Hr)). cbv zeta. rewrite Hk.
  now destruct (Nat.odd _).
Qed.

Lemma match_pairs_skip (h : heap) (tok : string) (pre rest : list addr) :
  Nat.even (length pre) = true ->
  Forall (key_differs h tok) (pairs pre) ->
  match_pairs tok (pre ++ rest) h = match_pairs tok rest h.
Proof.
  remember (length pre) as n eqn:Hn. revert pre Hn.
  induction n as [n IH] using lt_wf_ind. intros pre Hn Hev Hall.
  destruct pre as [|k [|v pre]]; [reflexivity | now subst n |].
  cbn [pairs] in Hall. apply Forall_cons_1 in Hall as [(key & Hk & Hne) Hall].
  cbn [app match_pairs]. cbn [fst] in Hk.
  rewrite (bind_ok _ _ _ _ _ (load_ok _ _ _ Hk)).
  destruct (String.eqb_spec tok (Value key)) as [->|_]; [contradiction|].
  apply (IH (length pre)); subst n; simpl in *; auto; lia.
Qed.

Lemma match_pairs_none (h : heap) (tok : string) (c : list addr) :
  Nat.even (length c) = true ->
  Forall (key_differs h tok) (pairs c) ->
  match_pairs tok c h = (h, Err (Quoted tok ErrNotFound)).
Proof.
  intros Hev Hall.
  rewrite <- (app_nil_r c). now rewrite match_pairs_skip.
Qed.

Lemma match_pairs_hit (h : heap) (tok : string) (pre post : list addr)
  (k v : addr) :
  Nat.even (length pre) = true ->
  Forall (key_differs h tok) (pairs pre) ->
  key_equals h tok (k, v) ->
  match_pairs tok (pre ++ k :: v :: post) h = (h, Ok [v]).
Proof.
  intros Hev Hall (key & Hk & Heq). rewrite match_pairs_skip by assumption.
  cbn [match_pairs]. cbn [fst] in Hk.
  rewrite (bind_ok _ _ _ _ _ (load_ok _ _ _ Hk)).
  destruct (String.eqb_spec tok (Value key)); [reflexivity | congruence].
Qed.

(** C6.  [match] on a Mapping node: content of odd length is a
    MalformedTree error; otherwise the pairs are scanned in order and the
    value of the first pair whose key's [Value] is the token is returned
    alone; when no key is the token the error is ErrNotFound (wrapped with
    the token).  The store is not changed. *)
Theorem match_mapping (h : heap) (root : addr) (r : Node) (tok : string) :
  h !! root = Some r ->
  Kind r = MappingNode ->
  (Nat.odd (length (Content r)) = true ->
     match_ root tok h = (h, Err (MalformedTree (length (Content r)))))
  /\ (forall pre k v post,
        Nat.odd (length (Content r)) = false ->
        Content r = pre ++ k :: v :: post ->
        Nat.even (length pre) = true ->
        Forall (key_differs h tok) (pairs pre) ->
        key_equals h tok (k, v) ->
        match_ root tok h = (h, Ok [v]))
  /\ (Nat.odd (length (Content r)) = false ->
      Forall (key_differs h tok) (pairs (Content r)) ->
      exists e, match_ root tok h = (h, Err e)
                /\ e = Quoted tok ErrNotFound
                /\ errors_Is_ErrNotFound e = true).
Proof.
  intros Hr Hk. rewrite (match_at_Mapping _ _ _ _ Hr Hk). repeat split.
  - now intros ->.
  - intros pre k v post -> -> Hev Hall Heq. now apply match_pairs_hit.
  - intros Hodd Hall. rewrite Hodd. eexists. split; [|split; reflexivity].
    apply match_pairs_none; [|assumption].
    now rewrite <- Nat.negb_odd, Hodd.
Qed.

(** ** The fuel of [match] is enough *)

Lemma match_pairs_no_overflow (tok : string) (c : list addr) (h h' : heap) :
  match_pairs tok c h <> (h', Panic StackOverflow).
Proof.
  induction c as [|x|k v c IH] using list_pair_ind; cbn [match_pairs];
    try discriminate.
  unfold bind, load. destruct (h !! k) as [key|]; [|discriminate].
  destruct (String.eqb tok (Value key)); [discriminate | assumption].
Qed.

Lemma match_fuel_overflow (fuel : nat) (a : addr) (tok : string) (h h' : heap) :
  match_fuel fuel a tok h = (h', Panic StackOverflow) ->
  exists c, doc_chain h a (S fuel) = Some c.
Proof.
  revert a. induction fuel as [|fuel IH]; intros a; rewrite match_fuel_unfold;
    unfold bind, load; cbn [doc_chain]; unfold doc_child;
    (destruct (h !! a) as [r|]; [|discriminate]); cbv zeta;
    destruct (Kind r); try discriminate;
    try (destruct (Content r) as [|c0 cs]; [discriminate|]).
  1, 4: try (intros _; now exists c0); try apply IH.
  1, 3: destruct (HasPrefix tok "~{");
    [destruct (Unmarshal (tail1 tok)); [rewrite filter_spec|]; discriminate|];
    destruct (String.eqb tok "-"); [discriminate|];
    destruct (Atoi tok); [|discriminate];
    destruct ((_ <? _)%Z || _); discriminate.
  all: destruct (Nat.odd _); [discriminate|]; intros H;
    now apply match_pairs_no_overflow in H.
Qed.

Lemma doc_chain_overflow (fuel : nat) (a c : addr) (tok : string) (h : heap) :
  doc_chain h a (S fuel) = Some c ->
  match_fuel fuel a tok h = (h, Panic StackOverflow).
Proof.
  revert a. induction fuel as [|fuel IH]; intros a; rewrite match_fuel_unfold;
    unfold bind, load; cbn [doc_chain]; unfold doc_child;
    (destruct (h !! a) as [r|]; [|discriminate]); cbv zeta;
    destruct (Kind r); try discriminate;
    (destruct (Content r) as [|c0 cs]; [discriminate|]).
  - reflexivity.
  - apply IH.
Qed.

Lemma doc_chain_add (h : heap) (a : addr) (i k : nat) :
  doc_chain h a (i + k)
  = match doc_chain h a i with
    | Some b => doc_chain h b k
    | None => None
    end.
Proof.
  revert a. induction i as [|i IH]; intros a; cbn [Nat.add doc_chain];
    [reflexivity|].
  destruct (doc_child h a); [apply IH | reflexivity].
Qed.

Lemma doc_chain_prefix (h : heap) (a c : addr) (i k : nat) :
  doc_chain h a (i + k) = Some c -> exists b, doc_chain h a i = Some b.
Proof.
  rewrite doc_chain_add. destruct (doc_chain h a i) as [b|]; [|discriminate].
  now exists b.
Qed.

Lemma doc_chain_valid (h : heap) (a b c : addr) (i : nat) :
  doc_chain h a i = Some b -> doc_chain h a (S i) = Some c -> b < length h.
Proof.
  intros Hb. replace (S i) with (i + 1) by lia. rewrite doc_chain_add, Hb.
  cbn [doc_chain]. unfold doc_child.
  destruct (h !! b) eqn:E; [|discriminate]. intros _.
  now apply lookup_lt_Some in E.
Qed.

(** A chain of document nodes longer than the store goes round a cycle, and
    has no end. *)
Lemma doc_chain_cycle (h : heap) (a c : addr) :
  doc_chain h a (S (length h)) = Some c ->
  forall k, exists b, doc_chain h a k = Some b.
Proof.
  intros Hc.
  assert (Hdef : forall i, i <= S (length h) -> exists b, doc_chain h a i = Some b).
  { intros i Hi. apply (doc_chain_prefix h a c i (S (length h) - i)).
    now replace (i + (S (length h) - i)) with (S (length h)) by lia. }
  destruct (nat_pigeonhole
              (fun i => match doc_chain h a i with Some b => b | None => 0 end)
              (S (length h)) (length h)) as (i1 & i2 & Hlt & Heq); [lia | |].
  { intros i Hi. destruct (Hdef i ltac:(lia)) as [b Hb].
    destruct (Hdef (S i) ltac:(lia)) as [b' Hb']. rewrite Hb.
    now apply (doc_chain_valid h a b b' i). }
  destruct (Hdef i1 ltac:(lia)) as [x Hx1]. destruct (Hdef i2 ltac:(lia)) as [x2 Hx2].
  rewrite Hx1, Hx2 in Heq. subst x2.
  intros k. induction k as [k IH] using lt_wf_ind.
  destruct (Nat.le_gt_cases k i2) as [Hle|Hgt].
  - apply (doc_chain_prefix h a x k (i2 - k)).
    now replace (k + (i2 - k)) with i2 by lia.
  - destruct (IH (i1 + (k - i2)) ltac:(lia)) as [b Hb]. exists b.
    replace k with (i2 + (k - i2)) by lia.
    rewrite doc_chain_add, Hx2. now rewrite doc_chain_add, Hx1 in Hb.
Qed.

(** When [match] runs out of the fuel [match_] gives it, no amount of fuel is
    enough: the chain of document nodes below the root has no end. *)
Lemma match_overflow_diverges (root : addr) (tok : string) (h h' : heap) :
  match_ root tok h = (h', Panic StackOverflow) ->
  forall fuel, match_fuel fuel root tok h = (h, Panic StackOverflow).
Proof.
  unfold match_. intros H fuel. apply match_fuel_overflow in H as [c Hc].
  destruct (doc_chain_cycle h root c Hc (S fuel)) as [b Hb].
  now apply (doc_chain_overflow fuel root b).
Qed.

(** With enough fuel to reach a result, more fuel reaches the same one. *)
Lemma match_fuel_more (fuel : nat) (root : addr) (tok : string) (h : heap)
  (out : heap * result (list addr)) :
  match_fuel fuel root tok h = out ->
  snd out <> Panic StackOverflow ->
  match_fuel (S fuel) root tok h = out.
Proof.
  revert root. induction fuel as [|fuel IH]; intros root;
    rewrite (match_fuel_unfold (S _)), match_fuel_unfold;
    unfold bind, load; (destruct (h !! root) as [r|]; [|trivial]); cbv zeta;
    destruct (Kind r); trivial;
    (destruct (Content r) as [|c0 cs]; [trivial|]).
  - intros <- Hne. now contradiction Hne.
  - intros H Hne. now apply IH.
Qed.

(** ** The inserter: terminal case *)

Lemma insert_nil (root : addr) (value : Node) (h : heap) (r : Node) :
  h !! root = Some r ->
  insert root [] value h =
  if Kind_eqb (Kind r) MappingNode then
    if Kind_eqb (Kind value) MappingNode then
      (<[root := with_Content r (Content r ++ Content value)]> h, Ok tt)
    else if (length (Content r) =? 0)%nat then (<[root := value]> h, Ok tt)
    else (h, Err (CannotInsert (Kind value) (Tag value) (Kind r) (Tag r)))
  else (h, Err (CannotInsert (Kind value) (Tag value) (Kind r) (Tag r))).
Proof.
  intros Hr. cbn [insert]. rewrite (bind_ok _ _ _ _ _ (load_ok _ _ _ Hr)).
  destruct (Kind_eqb (Kind r) MappingNode); [|reflexivity].
  destruct (Kind_eqb (Kind value) MappingNode); [apply (store_ok _ _ _ _ Hr)|].
  destruct (length (Content r) =? 0)%nat; [apply (store_ok _ _ _ _ Hr) | reflexivity].
Qed.

(** C2.  [insert] with no token left, at a node [r]: a Mapping value is
    merged into a Mapping [r] by appending its content as it is, after the
    pairs [r] already has (nothing is removed or compared, so a key present
    on both sides is present twice); a value that is not a Mapping replaces
    a Mapping [r] whose content is empty; every other combination is the
    CannotInsert error with the kind and tag of both nodes, and the store
    is unchanged. *)
Theorem insert_terminal (h : heap) (root : addr) (r value : Node) :
  h !! root = Some r ->
  (Kind r = MappingNode -> Kind value = MappingNode ->
     insert root [] value h =
     (<[root := with_Content r (Content r ++ Content value)]> h, Ok tt))
  /\ (Kind r = MappingNode -> Kind value <> MappingNode -> Content r = [] ->
        insert root [] value h = (<[root := value]> h, Ok tt))
  /\ (~ (Kind r = MappingNode /\ (Kind value = MappingNode \/ Content r = [])) ->
        insert root [] value h =
        (h, Err (CannotInsert (Kind value) (Tag value) (Kind r) (Tag r)))).
Proof.
  intros Hr. rewrite (insert_nil _ _ _ _ Hr). repeat split.
  - intros -> ->. reflexivity.
  - intros -> Hv ->. apply Kind_eqb_neq in Hv. now rewrite Hv.
  - intros Hnot.
    destruct (Kind_eqb (Kind r) MappingNode) eqn:Er; [|reflexivity].
    apply Kind_eqb_eq in Er.
    destruct (Kind_eqb (Kind value) MappingNode) eqn:Ev.
    { apply Kind_eqb_eq in Ev. tauto. }
    destruct (Content r) eqn:Ec; [tauto | reflexivity].
Qed.

(** ** The inserter: last token at a sequence *)

Lemma match_at_Sequence (root : addr) (tok : string) (h : heap) (r : Node) :
  h !! root = Some r -> Kind r = SequenceNode ->
  match_ root tok h =
  if HasPrefix tok "~{" then
    match Unmarshal (tail1 tok) with
    | None => (h, Err (YamlError (tail1 tok)))
    | Some mtree => (h, Ok (List.filter (isTreeSubset mtree h) (Content r)))
    end
  else if String.eqb tok "-" then
    (h ++ [node_lit ScalarNode "" ""], Ok [length h])
  else
    match Atoi tok with
    | None => (h, Err (NotAnIndex tok))
    | Some i =>
        if ((i <? 0) || (i >=? Z.of_nat (length (Content r))))%Z then
          (h, Err OutOfBounds)
        else (h, Ok (take 1 (drop (Z.to_nat i) (Content r))))
    end.
Proof.
  intros Hr Hk. unfold match_. rewrite match_fuel_unfold.
  rewrite (bind_ok _ _ _ _ _ (load_ok _ _ _ Hr)). cbv zeta. rewrite Hk.
  destruct (HasPrefix tok "~{").
  { destruct (Unmarshal (tail1 tok)); [|reflexivity]. now rewrite filter_spec. }
  destruct (String.eqb tok "-"); [reflexivity|].
  destruct (Atoi tok); [|reflexivity].
  now destruct ((_ <? _)%Z || _).
Qed.

Lemma insert_cons (root : addr) (tok : string) (rest : list string)
  (value : Node) (h : heap) (r : Node) :
  h !! root = Some r ->
  insert root (tok :: rest) value h =
  match Kind r with
  | SequenceNode =>
      sequenceInsert (fun p v => insert p rest v) root tok rest value h
  | MappingNode =>
      mapInsert (fun p v => insert p rest v) root tok rest value h
  | _ => (h, Err (UnhandledNodeType (Kind r) (Tag r)))
  end.
Proof.
  intros Hr. cbn [insert]. rewrite (bind_ok _ _ _ _ _ (load_ok _ _ _ Hr)).
  now destruct (Kind r).
Qed.

Lemma Atoi_not_special (tok : string) (i : Z) :
  Atoi tok = Some i -> HasPrefix tok "~{" = false /\ String.eqb tok "-" = false.
Proof.
  intros H. split.
  - destruct tok as [|c s]; [reflexivity|]. cbn [HasPrefix].
    destruct (Ascii.eqb_spec "~" c) as [<-|]; [|reflexivity].
    unfold Atoi in H. cbn [Ascii.eqb orb] in H.
    change (Ascii.eqb "~" "-") with false in H.
    change (Ascii.eqb "~" "+") with false in H. cbn [orb digits] in H.
    change (digit_of "~") with (@None Z) in H. discriminate.
  - destruct (String.eqb_spec tok "-") as [->|]; [discriminate | reflexivity].
Qed.

Lemma slices_Insert_lookup {A} (s : list A) (i : nat) (v : A) :
  (i <= length s)%nat ->
  slices_Insert s i v !! i = Some v
  /\ (forall j, (j < i)%nat -> slices_Insert s i v !! j = s !! j)
  /\ (forall j, (i <= j)%nat -> slices_Insert s i v !! S j = s !! j).
Proof.
  intros Hi. unfold slices_Insert.
  assert (Hlen : length (take i s) = i) by (rewrite length_take; lia).
  repeat split.
  - rewrite lookup_app_r by lia. now rewrite Hlen, Nat.sub_diag.
  - intros j Hj. rewrite lookup_app_l by lia. now apply lookup_take_lt.
  - intros j Hj. rewrite lookup_app_r by lia. rewrite Hlen.
    replace (S j - i)%nat with (S (j - i)) by lia.
    change ((v :: drop i s) !! S (j - i)) with (drop i s !! (j - i)).
    rewrite lookup_drop. f_equal. lia.
Qed.

Lemma sequenceInsertAt_append (h : heap) (root : addr) (r n : Node) :
  h !! root = Some r ->
  sequenceInsertAt root "-" n h =
  (<[root := with_Content r (Content r ++ [length h])]> (h ++ [n]), Ok tt).
Proof.
  intros Hr. unfold sequenceInsertAt. change (String.eqb "-" "-") with true.
  cbv iota. rewrite (bind_ok _ _ _ _ _ (load_ok _ _ _ Hr)).
  erewrite bind_ok by reflexivity.
  apply (store_ok _ _ r). rewrite lookup_app_l; [assumption|].
  now apply lookup_lt_Some in Hr.
Qed.

Lemma sequenceInsertAt_index (h : heap) (root : addr) (r n : Node)
  (tok : string) (i : Z) :
  h !! root = Some r ->
  Atoi tok = Some i ->
  sequenceInsertAt root tok n h =
  if ((i <? 0) || (i >=? Z.of_nat (length (Content r))))%Z then (h, Err OutOfBounds)
  else (<[root := with_Content r (slices_Insert (Content r) (Z.to_nat i) (length h))]>
          (h ++ [n]), Ok tt).
Proof.
  intros Hr Ha. unfold sequenceInsertAt.
  destruct (Atoi_not_special _ _ Ha) as [_ ->]. rewrite Ha.
  rewrite (bind_ok _ _ _ _ _ (load_ok _ _ _ Hr)).
  destruct ((_ <? _)%Z || _); [reflexivity|].
  erewrite bind_ok by reflexivity.
  apply (store_ok _ _ r). rewrite lookup_app_l; [assumption|].
  now apply lookup_lt_Some in Hr.
Qed.

Lemma sequenceInsertAt_not_index (h : heap) (root : addr) (n : Node)
  (tok : string) :
  Atoi tok = None -> String.eqb tok "-" = false ->
  sequenceInsertAt root tok n h = (h, Err (NotAnIndex tok)).
Proof. intros Ha Hd. unfold sequenceInsertAt. now rewrite Hd, Ha. Qed.

(** C3 (amended).  [insert] with one token left, at a Sequence [r]: the
    token [-] appends the value after the last element; a token that
    [Atoi] reads as [i] with [0 <= i < len] puts the value at position [i],
    the elements before [i] staying in place and those from [i] on moving
    one position to the right; a token that [Atoi] reads as an [i] outside
    that range is the OutOfBounds error and the store is unchanged; a token
    other than [-] that [Atoi] does not read as an [int] (it is not a number,
    or it is a number beyond the range of [int]) is the NotAnIndex error of
    [Atoi] (store unchanged), unless it is a predicate token whose text
    [yaml.Unmarshal] rejects, for which the error is the parser's. *)
Theorem insert_sequence_last (h : heap) (root : addr) (r value : Node)
  (tok : string) :
  h !! root = Some r ->
  Kind r = SequenceNode ->
  (tok = "-" ->
     insert root [tok] value h =
     (<[root := with_Content r (Content r ++ [S (length h)])]>
        (h ++ [node_lit ScalarNode "" ""; value]), Ok tt))
  /\ (forall i, Atoi tok = Some i -> (0 <= i < Z.of_nat (length (Content r)))%Z ->
        let c' := slices_Insert (Content r) (Z.to_nat i) (length h) in
        insert root [tok] value h =
        (<[root := with_Content r c']> (h ++ [value]), Ok tt)
        /\ c' !! Z.to_nat i = Some (length h)
        /\ (forall j, (j < Z.to_nat i)%nat -> c' !! j = Content r !! j)
        /\ (forall j, (Z.to_nat i <= j)%nat -> c' !! S j = Content r !! j))
  /\ (forall i, Atoi tok = Some i -> (i < 0 \/ Z.of_nat (length (Content r)) <= i)%Z ->
        insert root [tok] value h = (h, Err OutOfBounds))
  /\ (Atoi tok = None -> tok <> "-" ->
      (HasPrefix tok "~{" = true -> Unmarshal (tail1 tok) <> None) ->
      insert root [tok] value h = (h, Err (NotAnIndex tok)))
  /\ (HasPrefix tok "~{" = true -> Unmarshal (tail1 tok) = None ->
      insert root [tok] value h = (h, Err (YamlError (tail1 tok)))).
Proof.
  intros Hr Hk. rewrite (insert_cons _ _ _ _ _ _ Hr), Hk.
  unfold sequenceInsert. rewrite bind_unfold, (match_at_Sequence _ _ _ _ Hr Hk).
  repeat match goal with |- _ /\ _ => split end.
  - intros ->. cbn [HasPrefix]. change (Ascii.eqb "~" "-") with false.
    cbn [andb]. change (String.eqb "-" "-") with true. cbv iota.
    rewrite (sequenceInsertAt_append _ _ r).
    + rewrite <- app_assoc, length_app. cbn [length app].
      now rewrite Nat.add_1_r.
    + rewrite lookup_app_l; [assumption|]. now apply lookup_lt_Some in Hr.
  - intros i Ha Hi.
    destruct (Atoi_not_special _ _ Ha) as [-> ->]. rewrite Ha.
    assert (Hb : ((i <? 0) || (i >=? Z.of_nat (length (Content r))))%Z = false).
    { rewrite Z.geb_leb. apply orb_false_iff.
      split; [apply Z.ltb_ge | apply Z.leb_gt]; lia. }
    rewrite Hb.
    rewrite (sequenceInsertAt_index _ _ _ _ _ _ Hr Ha), Hb.
    split; [reflexivity|]. apply slices_Insert_lookup. lia.
  - intros i Ha Hi.
    destruct (Atoi_not_special _ _ Ha) as [-> ->]. rewrite Ha.
    assert (Hb : ((i <? 0) || (i >=? Z.of_nat (length (Content r))))%Z = true).
    { rewrite Z.geb_leb. apply orb_true_iff.
      destruct Hi; [left; apply Z.ltb_lt | right; apply Z.leb_le]; lia. }
    now rewrite Hb.
  - intros Ha Hd Hp.
    assert (Hd' : String.eqb tok "-" = false)
      by (destruct (String.eqb_spec tok "-"); [contradiction | reflexivity]).
    destruct (HasPrefix tok "~{").
    + destruct (Unmarshal (tail1 tok)); [|now exfalso; apply Hp].
      now apply sequenceInsertAt_not_index.
    + now rewrite Hd', Ha.
  - intros -> ->. reflexivity.
Qed.

(** ** The inserter: descending through existing nodes *)

Lemma Insert_unfold (h : heap) (root r : addr) (ptr : string)
  (toks : list string) (value v : Node) :
  jsonPointerToTokens ptr = Ok toks ->
  insert_value h value = Some v ->
  insert_root h root = Some r ->
  Insert root ptr value h = insert r toks v h.
Proof.
  intros Ht Hv Hr. unfold Insert, lift. rewrite bind_unfold, Ht.
  unfold insert_value in Hv. unfold insert_root in Hr.
  destruct (h !! root) as [n|] eqn:Hn; [|discriminate].
  destruct (Kind_eqb (Kind value) DocumentNode).
  - destruct (Content value) as [|c0 cs]; [discriminate|].
    rewrite (bind_ok _ _ _ _ _ (load_ok _ _ _ Hv)).
    rewrite (bind_ok _ _ _ _ _ (load_ok _ _ _ Hn)).
    destruct (Kind_eqb (Kind n) DocumentNode).
    + destruct (Content n); [discriminate|]. now injection Hr as ->.
    + now injection Hr as ->.
  - injection Hv as ->. erewrite bind_ok by reflexivity.
    rewrite (bind_ok _ _ _ _ _ (load_ok _ _ _ Hn)).
    destruct (Kind_eqb (Kind n) DocumentNode).
    + destruct (Content n); [discriminate|]. now injection Hr as ->.
    + now injection Hr as ->.
Qed.

Lemma insert_descend_step (h : heap) (a b : addr) (r m : Node) (tok : string)
  (toks : list string) (next : list addr) (value : Node) :
  h !! a = Some r ->
  Kind r = MappingNode \/ (Kind r = SequenceNode /\ Kind m <> ScalarNode) ->
  match_ a tok h = (h, Ok (b :: next)) ->
  h !! b = Some m ->
  toks <> [] ->
  insert a (tok :: toks) value h = insert b toks value h.
Proof.
  intros Ha Hk Hm Hb Hne. rewrite (insert_cons _ _ _ _ _ _ Ha).
  destruct Hk as [-> | [-> Hs]].
  - unfold mapInsert, attempt. rewrite bind_unfold, Hm. reflexivity.
  - unfold sequenceInsert. rewrite bind_unfold, Hm.
    destruct toks as [|tok1 toks]; [contradiction|].
    rewrite (bind_ok _ _ _ _ _ (load_ok _ _ _ Hb)).
    apply Kind_eqb_neq in Hs. now rewrite Hs.
Qed.

Lemma insert_descends (h : heap) (a c : addr) (pre toks : list string)
  (value : Node) :
  descends Unmarshal isTreeSubset h a pre c ->
  toks <> [] ->
  insert a (pre ++ toks) value h = insert c toks value h.
Proof.
  intros Hd Hne. induction Hd as [a | a b c r m tok pre next Ha Hk Hm Hb Hd IH].
  - reflexivity.
  - cbn [app]. rewrite <- IH.
    apply (insert_descend_step h a b r m tok _ next); try assumption.
    destruct pre; [assumption | discriminate].
Qed.

(** C9.  When the tokens of the pointer lead [Insert], through existing
    nodes, to a Sequence, the next token is a predicate token that
    [yaml.Unmarshal] accepts and that no element of the sequence satisfies,
    and at least one more token follows, [Insert] does not return an error:
    it indexes [next[0]] of the empty list of matches and faults (index out
    of range).  The store is as it was. *)
Theorem insert_predicate_no_match (h : heap) (root start s : addr) (r : Node)
  (ptr tok tok1 : string) (pre rest : list string) (value v : Node) (mtree : Tree) :
  jsonPointerToTokens ptr = Ok (pre ++ tok :: tok1 :: rest) ->
  insert_value h value = Some v ->
  insert_root h root = Some start ->
  descends Unmarshal isTreeSubset h start pre s ->
  h !! s = Some r ->
  Kind r = SequenceNode ->
  HasPrefix tok "~{" = true ->
  Unmarshal (tail1 tok) = Some mtree ->
  Forall (fun c => isTreeSubset mtree h c = false) (Content r) ->
  match_ s tok h = (h, Ok [])
  /\ Insert root ptr value h = (h, Panic IndexOutOfRange).
Proof.
  intros Ht Hv Hroot Hd Hs Hk Hp Hu Hall.
  assert (Hm : match_ s tok h = (h, Ok [])).
  { rewrite (match_at_Sequence _ _ _ _ Hs Hk), Hp, Hu. do 2 f_equal.
    induction Hall as [|c cs Hc _ IH]; [reflexivity|].
    cbn [List.filter]. now rewrite Hc. }
  split; [assumption|].
  rewrite (Insert_unfold _ _ _ _ _ _ _ Ht Hv Hroot).
  rewrite (insert_descends _ _ _ _ _ _ Hd) by discriminate.
  rewrite (insert_cons _ _ _ _ _ _ Hs), Hk.
  unfold sequenceInsert. now rewrite bind_unfold, Hm.
Qed.

(** ** The resolver: how many nodes it returns *)

Lemma match_pairs_ok (tok : string) (c : list addr) (h h' : heap)
  (res : list addr) :
  match_pairs tok c h = (h', Ok res) -> h' = h /\ exists v, res = [v] /\ In v c.
Proof.
  remember (length c) as n eqn:Hn. revert c Hn.
  induction n as [n IH] using lt_wf_ind. intros c Hn.
  destruct c as [|k [|v c]]; cbn [match_pairs]; try discriminate.
  unfold bind, load. destruct (h !! k) as [key|]; [|discriminate].
  destruct (String.eqb tok (Value key)).
  - intros [= <- <-]. split; [reflexivity|]. exists v. split; [reflexivity|].
    right. now left.
  - intros H. apply (IH (length c)) in H; [|subst n; simpl; lia | reflexivity].
    destruct H as (-> & w & -> & Hin). split; [reflexivity|].
    exists w. split; [reflexivity|]. right. now right.
Qed.

Lemma match_fuel_singleton (fuel : nat) (root : addr) (tok : string)
  (h h' : heap) (res : list addr) :
  HasPrefix tok "~{" = false ->
  match_fuel fuel root tok h = (h', Ok res) -> length res = 1.
Proof.
  intros Hp. revert root. induction fuel as [|fuel IH]; intros root;
    rewrite match_fuel_unfold; unfold bind, load;
    (destruct (h !! root) as [r|]; [|discriminate]); cbv zeta;
    destruct (Kind r); try discriminate.
  1, 4: destruct (Content r); [discriminate|]; try discriminate; apply IH.
  1, 3: rewrite Hp; destruct (String.eqb tok "-");
    [unfold alloc, ret; now intros [= <- <-]|];
    destruct (Atoi tok) as [i|]; [|discriminate];
    destruct (Z.ltb_spec i 0); [discriminate|]; cbn [orb];
    rewrite Z.geb_leb; destruct (Z.leb_spec (Z.of_nat (length (Content r))) i);
    [discriminate|]; unfold ret; intros [= <- <-];
    rewrite length_take, length_drop; lia.
  all: destruct (Nat.odd _); [discriminate|]; intros H;
    apply match_pairs_ok in H as (_ & v & -> & _); reflexivity.
Qed.

Lemma find_loop_one (f : addr -> M (list addr)) (n : addr) (h : heap) :
  find_loop f [] [n] h = f n h.
Proof.
  cbn [find_loop]. unfold bind. destruct (f n h) as [h' [res| |]]; reflexivity.
Qed.

Lemma find_singleton (root : addr) (toks : list string) (h h' : heap)
  (res : list addr) :
  no_predicate toks ->
  find root toks h = (h', Ok res) -> length res = 1.
Proof.
  intros Hp. revert root h. induction Hp as [|tok rest Htok Hrest IH]; intros root h.
  - discriminate.
  - cbn [find]. rewrite bind_unfold.
    destruct (match_ root tok h) as [h1 [next| |]] eqn:Hm; try discriminate.
    apply match_fuel_singleton in Hm; [|assumption].
    destruct rest as [|tok1 rest].
    + now intros [= <- <-].
    + destruct next as [|n [|]]; try discriminate.
      rewrite find_loop_one. apply IH.
Qed.

(** C4 (amended).  [FindAll] can return no node and no error (the
    counterexample below): [filter] returns the matches of a predicate token
    without an error when there are none.  [Find] then takes its bad-state
    branch, which is therefore live code.  For a pointer none of whose
    tokens is a predicate token, a [FindAll] that succeeds returns exactly
    one node. *)
Theorem FindAll_results (h h' : heap) (root : addr) (ptr : string)
  (res : list addr) :
  FindAll root ptr h = (h', Ok res) ->
  (res = [] -> Find root ptr h = (h', Err (BadState ptr)))
  /\ (forall toks, jsonPointerToTokens ptr = Ok toks -> no_predicate toks ->
        length res = 1).
Proof.
  intros HF. split.
  - intros ->. unfold Find. now rewrite bind_unfold, HF.
  - intros toks Ht Hp. unfold FindAll in HF.
    destruct (String.eqb ptr ""); [discriminate|].
    unfold lift in HF. rewrite bind_unfold, Ht in HF.
    unfold attempt in HF. rewrite bind_unfold in HF.
    destruct (find root toks h) as [h1 [r| |]] eqn:Hf; try discriminate.
    injection HF as <- <-. now apply (find_singleton root toks h h1).
Qed.

(** ** The resolver: the token [-] *)

Lemma tokens_app_dash (ptr : string) (toks : list string) :
  jsonPointerToTokens ptr = Ok toks ->
  jsonPointerToTokens (ptr ++ "/-") = Ok (toks ++ ["-"]).
Proof.
  unfold jsonPointerToTokens, ValidateJSONPointer.
  destruct (String.eqb_spec ptr "") as [->|Hne]; [now intros [= <-]|].
  destruct ptr as [|c s]; [contradiction|].
  cbn [String.append HasPrefix split_slash]. rewrite Ascii.eqb_sym.
  destruct (String.eqb_spec (String c (s ++ "/-")) ""); [discriminate|].
  destruct (Ascii.eqb c "/"); [|discriminate]. cbn [andb negb].
  intros [= <-]. now rewrite split_slash_app.
Qed.

Lemma length_one {A} (l : list A) : length l = 1 -> exists x, l = [x].
Proof. destruct l as [|x [|]]; try discriminate. now exists x. Qed.

Lemma find_app_dash (root s : addr) (toks : list string) (h h1 : heap)
  (r : Node) :
  no_predicate toks ->
  find root toks h = (h1, Ok [s]) ->
  h1 !! s = Some r ->
  Kind r = SequenceNode ->
  find root (toks ++ ["-"]) h = (h1 ++ [node_lit ScalarNode "" ""], Ok [length h1]).
Proof.
  intros Hp. revert root h.
  induction Hp as [|tok rest Htok Hrest IH]; intros root h Hf Hs Hk;
    [discriminate|].
  cbn [find app] in *. rewrite bind_unfold in *.
  destruct (match_ root tok h) as [h2 [next| |]] eqn:Hm; try discriminate.
  destruct (length_one next (match_fuel_singleton _ _ _ _ _ _ Htok Hm)) as [n ->].
  destruct rest as [|tok1 rest]; cbn [app].
  - injection Hf as <- <-. rewrite find_loop_one. cbn [find].
    rewrite bind_unfold, (match_at_Sequence _ _ _ _ Hs Hk). reflexivity.
  - rewrite find_loop_one in *. now apply IH.
Qed.

Lemma sentinel_fresh (h : heap) (a : addr) (n : Node) :
  closed h ->
  (h ++ [node_lit ScalarNode "" ""]) !! a = Some n ->
  ~ In (length h) (Content n).
Proof.
  intros Hc Ha Hin. destruct (Nat.lt_ge_cases a (length h)) as [Hlt|Hge].
  - rewrite lookup_app_l in Ha by assumption.
    unfold closed in Hc. rewrite Forall_forall in Hc.
    apply list_elem_of_lookup_2, Hc in Ha. rewrite Forall_forall in Ha.
    apply list_elem_of_In, Ha in Hin. lia.
  - rewrite lookup_app_r in Ha by assumption.
    destruct (a - length h) as [|k]; [|now destruct k].
    injection Ha as <-. contradiction.
Qed.

(** C10.  When the tokens of a pointer with no predicate token resolve to
    one node that is a Sequence (the root itself for the empty pointer),
    [FindAll] and [Find] with [/-] added to the pointer succeed, and the
    node returned is a new cell of the store holding an empty Scalar: no
    cell of the store had that address before, and no node of the document
    has it among its content. *)
Theorem find_append_sentinel (h h1 : heap) (root s : addr) (r : Node)
  (ptr : string) (toks : list string) :
  jsonPointerToTokens ptr = Ok toks ->
  no_predicate toks ->
  (toks = [] /\ h1 = h /\ s = root) \/ find root toks h = (h1, Ok [s]) ->
  h1 !! s = Some r ->
  Kind r = SequenceNode ->
  let h' := h1 ++ [node_lit ScalarNode "" ""] in
  FindAll root (ptr ++ "/-") h = (h', Ok [length h1])
  /\ Find root (ptr ++ "/-") h = (h', Ok (length h1))
  /\ h1 !! length h1 = None
  /\ h' !! length h1 = Some (node_lit ScalarNode "" "")
  /\ (closed h1 -> forall a n, h' !! a = Some n -> ~ In (length h1) (Content n)).
Proof.
  intros Ht Hp Hres Hs Hk h'.
  assert (Hf : find root (toks ++ ["-"]) h = (h', Ok [length h1])).
  { destruct Hres as [(-> & -> & ->) | Hf].
    - cbn [app find]. rewrite bind_unfold, (match_at_Sequence _ _ _ _ Hs Hk).
      reflexivity.
    - now apply (find_app_dash root s toks h h1 r). }
  assert (HF : FindAll root (ptr ++ "/-") h = (h', Ok [length h1])).
  { unfold FindAll. destruct (String.eqb_spec (ptr ++ "/-") "") as [E|_].
    { destruct ptr; discriminate. }
    unfold lift, attempt. rewrite bind_unfold, (tokens_app_dash _ _ Ht).
    now rewrite bind_unfold, Hf. }
  split; [assumption|]. split.
  { unfold Find. now rewrite bind_unfold, HF. }
  split; [apply lookup_ge_None; lia|]. split.
  { unfold h'. rewrite lookup_app_r by lia. now rewrite Nat.sub_diag. }
  intros Hc a n. now apply sentinel_fresh.
Qed.

(** ** Where errors come from *)

Lemma bind_err_inv {A B} (m : M A) (f : A -> M B) (h h' : heap) (e : error) :
  bind m f h = (h', Err e) ->
  m h = (h', Err e) \/ exists a h1, m h = (h1, Ok a) /\ f a h1 = (h', Err e).
Proof.
  unfold bind. destruct (m h) as [h1 [a|e1|p]]; intros H.
  - right. now exists a, h1.
  - injection H as <- <-. now left.
  - discriminate.
Qed.

Lemma load_inv (p : addr) (h h' : heap) (res : result Node) :
  load p h = (h', res) -> h' = h.
Proof. unfold load. destruct (h !! p); now intros [= <- _]. Qed.

Lemma find_error_origin (root : addr) (toks : list string) (h h' : heap)
  (e : error) :
  find root toks h = (h', Err e) ->
  exists node tok h0, In tok toks /\ match_ node tok h0 = (h', Err e).
Proof.
  revert root h. induction toks as [|tok rest IH]; intros root h; [discriminate|].
  cbn [find]. intros H. apply bind_err_inv in H as [H | (next & h1 & Hm & H)].
  { exists root, tok, h. split; [now left | assumption]. }
  destruct rest as [|tok1 rest]; [discriminate|].
  assert (Hloop : forall res ns h2,
             find_loop (fun n => find n (tok1 :: rest)) res ns h2 = (h', Err e) ->
             exists node tok0 h0, In tok0 (tok1 :: rest)
                                  /\ match_ node tok0 h0 = (h', Err e)).
  { intros res ns. revert res. induction ns as [|n ns IHns]; intros res h2;
      [discriminate|].
    cbn [find_loop]. intros H2.
    apply bind_err_inv in H2 as [H2 | (found & h3 & _ & H2)].
    - now apply IH in H2.
    - now apply IHns in H2. }
  apply Hloop in H as (node & tok0 & h0 & Hin & H0).
  exists node, tok0, h0. split; [now right | assumption].
Qed.

Lemma insert_error_origin (root : addr) (toks : list string) (value : Node)
  (h h' : heap) (e : error) :
  insert root toks value h = (h', Err e) -> raised Unmarshal isTreeSubset e.
Proof.
  revert root value h. induction toks as [|tok rest IH]; intros root value h.
  - destruct (h !! root) as [r|] eqn:Hr.
    + rewrite (insert_nil _ _ _ _ Hr).
      destruct (Kind_eqb (Kind r) MappingNode).
      * destruct (Kind_eqb (Kind value) MappingNode); [discriminate|].
        destruct (length (Content r) =? 0)%nat; [discriminate|].
        intros [= <- <-]. eapply raised_cannot_insert; reflexivity.
      * intros [= <- <-]. eapply raised_cannot_insert; reflexivity.
    + cbn [insert]. unfold bind, load. now rewrite Hr.
  - cbn [insert]. intros H.
    apply bind_err_inv in H as [H | (r & h1 & Hl & H)].
    { unfold load in H. destruct (h !! root); discriminate. }
    apply load_inv in Hl as ->.
    destruct (Kind r);
      try (injection H as <- <-; eapply raised_unhandled; reflexivity).
    + (* sequenceInsert *)
      unfold sequenceInsert in H.
      apply bind_err_inv in H as [H | (next & h1 & Hm & H)].
      { eapply raised_match; eassumption. }
      destruct rest as [|tok1 rest]; [eapply raised_sequenceInsertAt; eassumption|].
      destruct next as [|next0 next]; [discriminate|].
      apply bind_err_inv in H as [H | (m & h2 & Hl & H)].
      { unfold load in H. destruct (h1 !! next0); discriminate. }
      destruct (negb (Kind_eqb (Kind m) ScalarNode)); [now apply IH in H|].
      do 7 (apply bind_err_inv in H as [H | (? & ? & _ & H)];
            [first [ eapply raised_sequenceInsertAt; eassumption
                   | step_cannot_fail H ]|]).
      now apply IH in H.
    + (* mapInsert *)
      unfold mapInsert, attempt in H. rewrite bind_unfold in H.
      destruct (match_ root tok h) as [h1 [next|e1|]] eqn:Hm; try discriminate.
      * destruct next as [|next0 next]; [discriminate|]. now apply IH in H.
      * destruct (negb (errors_Is_ErrNotFound e1)).
        { injection H as <- <-. eapply raised_match; eassumption. }
        apply bind_err_inv in H as [H | (pk & h2 & _ & H)]; [discriminate|].
        destruct rest as [|tok1 rest].
        -- do 2 (apply bind_err_inv in H as [H | (? & ? & _ & H)];
                 [step_cannot_fail H|]).
           step_cannot_fail H.
        -- do 3 (apply bind_err_inv in H as [H | (? & ? & _ & H)];
                 [step_cannot_fail H|]).
           now apply IH in H.
Qed.


(** ** The inserter: a sequence with more tokens to come *)

Lemma store_lookup (h : heap) (p : addr) (n m : Node) :
  h !! p = Some n -> <[p := m]> h !! p = Some m.
Proof. intros H. apply list_lookup_insert_eq. now apply lookup_lt_Some in H. Qed.

Lemma synthesize_steps (h1 : heap) (root : addr) (tok tok1 : string)
  (k : addr -> M unit) :
  let pn := length h1 in
  let n := mkNode MappingNode "!!map" "" [S pn; S (S pn)] 0 0 in
  let h2 := h1 ++ [n; node_lit ScalarNode "!!str" tok1;
                   node_lit MappingNode "!!map" ""] in
  bind (alloc (node_lit MappingNode "!!map" "")) (fun pn =>
  bind (alloc (node_lit ScalarNode "!!str" tok1)) (fun pk =>
  bind (alloc (node_lit MappingNode "!!map" "")) (fun pv =>
  bind (load pn) (fun n0 =>
  bind (store pn (with_Content n0 (Content n0 ++ [pk; pv]))) (fun _ =>
  bind (load pn) (fun n =>
  bind (sequenceInsertAt root tok n) (fun _ => k pn))))))) h1
  = bind (sequenceInsertAt root tok n) (fun _ => k pn) h2.
Proof.
  intros pn n h2. unfold alloc at 1. rewrite bind_unfold.
  unfold alloc at 1. rewrite bind_unfold.
  unfold alloc at 1. rewrite bind_unfold.
  set (ha := (h1 ++ [node_lit MappingNode "!!map" ""]) ++
             [node_lit ScalarNode "!!str" tok1]).
  set (hb := ha ++ [node_lit MappingNode "!!map" ""]).
  assert (Hpn : hb !! pn = Some (node_lit MappingNode "!!map" "")).
  { unfold hb, ha, pn. rewrite <- !app_assoc. rewrite lookup_app_r by lia.
    now rewrite Nat.sub_diag. }
  rewrite (bind_ok _ _ _ _ _ (load_ok _ _ _ Hpn)).
  rewrite (bind_ok _ _ _ _ _ (store_ok _ _ _ _ Hpn)).
  assert (Hlen : length (h1 ++ [node_lit MappingNode "!!map" ""]) = S pn)
    by (rewrite length_app; cbn; unfold pn; lia).
  assert (Hlen2 : length ha = S (S pn))
    by (unfold ha; rewrite length_app, Hlen; cbn; lia).
  rewrite Hlen, Hlen2.
  assert (Hh2 : <[pn := with_Content (node_lit MappingNode "!!map" "")
                          (Content (node_lit MappingNode "!!map" "") ++ [S pn; S (S pn)])]> hb
                = h2).
  { unfold hb, ha, h2, pn. rewrite <- !app_assoc. cbn [app].
    rewrite insert_app_r_alt by lia. now rewrite Nat.sub_diag. }
  rewrite Hh2.
  assert (Hn : h2 !! pn = Some n).
  { unfold h2, pn. rewrite lookup_app_r by lia. now rewrite Nat.sub_diag. }
  now rewrite (bind_ok _ _ _ _ _ (load_ok _ _ _ Hn)).
Qed.

(** C5 (amended).  [insert] at a Sequence [r] with at least two tokens left.
    What decides the branch is the kind of the first node [match] returned:
    when it is not a Scalar, [insert] goes on in that node with the remaining
    tokens; when it is a Scalar, a new Mapping [{tok1: {}}] is built (cells
    [pn], [pn+1], [pn+2]), put into the sequence at the position the first
    token names, and the insertion goes on in it with the remaining tokens.
    The Scalar is the sentinel of [match] for the token [-], and so the token
    [-] always takes the second branch; but an element of the sequence that
    is a Scalar, selected by its index, takes it too. *)
Theorem insert_sequence_branch (h : heap) (root : addr) (r value : Node)
  (tok tok1 : string) (rest : list string) :
  h !! root = Some r ->
  Kind r = SequenceNode ->
  let synthesize (h1 : heap) :=
    let pn := length h1 in
    let n := mkNode MappingNode "!!map" "" [S pn; S (S pn)] 0 0 in
    let h2 := h1 ++ [n; node_lit ScalarNode "!!str" tok1;
                     node_lit MappingNode "!!map" ""] in
    bind (sequenceInsertAt root tok n)
      (fun _ => insert pn (tok1 :: rest) value) h2 in
  (forall h1 next0 next m,
      match_ root tok h = (h1, Ok (next0 :: next)) ->
      h1 !! next0 = Some m ->
      (Kind m <> ScalarNode ->
         insert root (tok :: tok1 :: rest) value h
         = insert next0 (tok1 :: rest) value h1)
      /\ (Kind m = ScalarNode ->
            insert root (tok :: tok1 :: rest) value h = synthesize h1))
  /\ (tok = "-" ->
        insert root (tok :: tok1 :: rest) value h
        = synthesize (h ++ [node_lit ScalarNode "" ""]))
  /\ (forall i c m,
        Atoi tok = Some i -> (0 <= i)%Z ->
        Content r !! Z.to_nat i = Some c ->
        h !! c = Some m ->
        Kind m = ScalarNode ->
        insert root (tok :: tok1 :: rest) value h = synthesize h).
Proof.
  intros Hr Hk synthesize.
  assert (Hstep : forall h1 next0 next m,
             match_ root tok h = (h1, Ok (next0 :: next)) ->
             h1 !! next0 = Some m ->
             (Kind m <> ScalarNode ->
                insert root (tok :: tok1 :: rest) value h
                = insert next0 (tok1 :: rest) value h1)
             /\ (Kind m = ScalarNode ->
                   insert root (tok :: tok1 :: rest) value h = synthesize h1)).
  { intros h1 next0 next m Hm Hn.
    rewrite (insert_cons _ _ _ _ _ _ Hr), Hk. unfold sequenceInsert.
    rewrite bind_unfold, Hm. rewrite (bind_ok _ _ _ _ _ (load_ok _ _ _ Hn)).
    split; intros Hs.
    - apply Kind_eqb_neq in Hs. now rewrite Hs.
    - rewrite Hs. cbn [Kind_eqb negb].
      apply (synthesize_steps h1 root tok tok1
               (fun pn => insert pn (tok1 :: rest) value)). }
  split; [exact Hstep|]. split.
  - intros ->.
    refine (proj2 (Hstep (h ++ [node_lit ScalarNode "" ""]) (length h) []
                     (node_lit ScalarNode "" "") _ _) eq_refl).
    + now rewrite (match_at_Sequence _ _ _ _ Hr Hk).
    + rewrite lookup_app_r by lia. now rewrite Nat.sub_diag.
  - intros i c m Ha Hi Hc Hm Hs.
    refine (proj2 (Hstep h c [] m _ Hm) Hs).
    rewrite (match_at_Sequence _ _ _ _ Hr Hk).
    destruct (Atoi_not_special _ _ Ha) as [-> ->]. rewrite Ha.
    apply lookup_lt_Some in Hc as Hlt.
    assert (Hb : ((i <? 0) || (i >=? Z.of_nat (length (Content r))))%Z = false).
    { rewrite Z.geb_leb. apply orb_false_iff.
      split; [apply Z.ltb_ge | apply Z.leb_gt]; lia. }
    rewrite Hb. do 2 f_equal.
    rewrite <- (take_drop_middle _ _ _ Hc) at 1.
    rewrite drop_app_length' by (rewrite length_take; lia). reflexivity.
Qed.

(** ** Insert and then Find: one step of the path *)

Lemma bind_ok_inv {A B} (m : M A) (f : A -> M B) (h h' : heap) (b : B) :
  bind m f h = (h', Ok b) ->
  exists a h1, m h = (h1, Ok a) /\ f a h1 = (h', Ok b).
Proof.
  unfold bind. destruct (m h) as [h1 [a|e1|p]]; intros H; try discriminate.
  now exists a, h1.
Qed.

Lemma load_ok_inv (p : addr) (h h1 : heap) (n : Node) :
  load p h = (h1, Ok n) -> h1 = h /\ h !! p = Some n.
Proof. unfold load. destruct (h !! p); [|discriminate]. now intros [= <- <-]. Qed.

Lemma store_ok_inv (p : addr) (m : Node) (h h1 : heap) (u : unit) :
  store p m h = (h1, Ok u) -> h1 = <[p := m]> h /\ exists n, h !! p = Some n.
Proof.
  unfold store. destruct (h !! p) as [n|]; [|discriminate].
  intros [= <- _]. split; [reflexivity | now exists n].
Qed.

Lemma match_pairs_inv_ok (tok : string) (c : list addr) (h h1 : heap)
  (res : list addr) :
  match_pairs tok c h = (h1, Ok res) ->
  h1 = h
  /\ exists pre k v post,
       c = pre ++ k :: v :: post /\ res = [v]
       /\ Nat.even (length pre) = true
       /\ Forall (key_differs h tok) (pairs pre)
       /\ key_equals h tok (k, v)
       /\ lookup_pairs h tok c = Some v.
Proof.
  induction c as [|x|k v c IH] using list_pair_ind;
    cbn [match_pairs lookup_pairs]; try discriminate.
  unfold bind, load. destruct (h !! k) as [key|] eqn:Hk; [|discriminate].
  destruct (String.eqb_spec tok (Value key)) as [Heq|Hne].
  - intros [= <- <-]. split; [reflexivity|]. exists [], k, v, c.
    repeat split; try reflexivity; [constructor|]. now exists key.
  - intros H. apply IH in H.
    destruct H as (-> & pre & k' & v' & post & -> & -> & Hev & Hall & Heq & Hl).
    split; [reflexivity|]. exists (k :: v :: pre), k', v', post.
    repeat split; try assumption; try reflexivity.
    cbn [pairs]. constructor; [|assumption]. exists key. split; [assumption|].
    congruence.
Qed.

Lemma match_pairs_inv_err (tok : string) (c : list addr) (h h1 : heap)
  (e : error) :
  match_pairs tok c h = (h1, Err e) ->
  h1 = h /\ e = Quoted tok ErrNotFound
  /\ Nat.even (length c) = true
  /\ Forall (key_differs h tok) (pairs c)
  /\ lookup_pairs h tok c = None.
Proof.
  induction c as [|x|k v c IH] using list_pair_ind;
    cbn [match_pairs lookup_pairs]; try discriminate.
  - intros [= <- <-]. repeat split. constructor.
  - unfold bind, load. destruct (h !! k) as [key|] eqn:Hk; [|discriminate].
    destruct (String.eqb_spec tok (Value key)) as [Heq|Hne]; [discriminate|].
    intros H. apply IH in H.
    destruct H as (-> & -> & Hev & Hall & Hl).
    repeat split; try assumption.
    cbn [pairs]. constructor; [|assumption]. exists key. split; [assumption|].
    congruence.
Qed.

Lemma pairs_fst_lookup (l : list addr) (kv : addr * addr) :
  In kv (pairs l) -> exists i, i < length l /\ l !! i = Some (fst kv).
Proof.
  induction l as [|x|k v l IH] using list_pair_ind; cbn [pairs];
    try contradiction.
  intros [<- | Hin].
  - exists 0. split; [simpl; lia | reflexivity].
  - apply IH in Hin as (i & Hi & Hl).
    exists (S (S i)). split; [simpl; lia | exact Hl].
Qed.

Lemma find_last (root : addr) (tok : string) (h : heap) :
  find root [tok] h = match_ root tok h.
Proof.
  cbn [find]. unfold bind, ret.
  now destruct (match_ root tok h) as [h1 [next|e|p]].
Qed.

Lemma find_cons_one (root c : addr) (tok : string) (rest : list string)
  (h h1 : heap) :
  match_ root tok h = (h1, Ok [c]) -> rest <> [] ->
  find root (tok :: rest) h = find c rest h1.
Proof.
  intros Hm Hne. cbn [find]. rewrite bind_unfold, Hm.
  destruct rest; [contradiction|]. apply find_loop_one.
Qed.

(** A step of [insert] down a mapping, seen again by [match] after the
    insertion changed cells below the node the step went to. *)
Lemma mapping_step_preserved (h : heap) (r : addr) (n : Node) (fps : list addr)
  (tok : string) (next : list addr) (h1 : heap) :
  h !! r = Some n ->
  Kind n = MappingNode ->
  shaped_list h (Content n) fps ->
  ~ In r fps ->
  match_ r tok h = (h1, Ok next) ->
  h1 = h
  /\ exists v fpv,
       next = [v]
       /\ lookup_pairs h tok (Content n) = Some v
       /\ shaped h v fpv
       /\ (forall x, In x fpv -> In x fps)
       /\ forall h', unchanged_outside fpv h h' -> match_ r tok h' = (h', Ok [v]).
Proof.
  intros Hr Hk Hs Hnot Hm. rewrite (match_at_Mapping _ _ _ _ Hr Hk) in Hm.
  destruct (Nat.odd (length (Content n))) eqn:Hodd; [discriminate|].
  apply match_pairs_inv_ok in Hm
    as (-> & pre & k & v & post & Hc & -> & Hev & Hall & Heq & Hl).
  split; [reflexivity|].
  assert (Hj : Content n !! S (length pre) = Some v).
  { rewrite Hc. rewrite lookup_app_r by lia.
    now replace (S (length pre) - length pre) with 1 by lia. }
  destruct (shaped_child _ _ _ _ _ Hs Hj) as (fpv & Hsv & Hsub & Hoth).
  exists v, fpv. repeat split; try assumption.
  intros h' [Hlen Hun].
  assert (Hr' : h' !! r = Some n) by (apply Hun; auto).
  rewrite (match_at_Mapping _ _ _ _ Hr' Hk), Hodd, Hc.
  apply match_pairs_hit; [assumption | |].
  - rewrite Forall_forall in *. intros kv Hin.
    destruct (Hall kv Hin) as (key & Hkey & Hne).
    exists key. split; [|assumption]. apply Hun; [assumption|].
    apply list_elem_of_In in Hin.
    destruct (pairs_fst_lookup pre kv Hin) as (i & Hi & Hli).
    apply (Hoth i); [|lia]. rewrite Hc. now rewrite lookup_app_l.
  - destruct Heq as (key & Hkey & Hv). exists key. split; [|assumption].
    apply Hun; [assumption|]. cbn [fst] in *.
    apply (Hoth (length pre)); [|lia]. rewrite Hc.
    rewrite lookup_app_r by lia. now rewrite Nat.sub_diag.
Qed.

(** ** Insert and then Find: new keys *)

Lemma match_appended_key (h' : heap) (r pk px : addr) (n k : Node) (tok : string) :
  Kind n = MappingNode ->
  Nat.odd (length (Content n)) = false ->
  h' !! r = Some (with_Content n (Content n ++ [pk; px])) ->
  Forall (key_differs h' tok) (pairs (Content n)) ->
  h' !! pk = Some k ->
  Value k = tok ->
  match_ r tok h' = (h', Ok [px]).
Proof.
  intros Hk Hodd Hr Hall Hpk Hv.
  rewrite (match_at_Mapping _ _ _ _ Hr Hk). cbn [with_Content Content].
  rewrite length_app, Nat.odd_add, Hodd. cbn [length Nat.odd negb xorb].
  apply match_pairs_hit; [|assumption|].
  - now rewrite <- Nat.negb_odd, Hodd.
  - now exists k.
Qed.

Lemma mapInsert_append (insert_rest : addr -> Node -> M unit) (h : heap)
  (r : addr) (n : Node) (tok : string) (rest : list string) (value : Node) :
  h !! r = Some n ->
  Kind n = MappingNode ->
  Nat.odd (length (Content n)) = false ->
  Forall (key_differs h tok) (pairs (Content n)) ->
  let pk := length h in
  let px := S (length h) in
  let x := match rest with
           | [] => value
           | _ :: _ => node_lit MappingNode "!!map" ""
           end in
  let h3 := <[r := with_Content n (Content n ++ [pk; px])]>
              (h ++ [node_lit ScalarNode "" tok; x]) in
  mapInsert insert_rest r tok rest value h
  = match rest with
    | [] => (h3, Ok tt)
    | _ :: _ => insert_rest px value h3
    end.
Proof.
  intros Hr Hk Hodd Hall pk px x h3.
  unfold mapInsert, attempt. rewrite bind_unfold.
  rewrite (match_at_Mapping _ _ _ _ Hr Hk), Hodd.
  rewrite match_pairs_none; [|now rewrite <- Nat.negb_odd, Hodd | assumption].
  cbn [errors_Is_ErrNotFound negb]. unfold alloc at 1. rewrite bind_unfold.
  assert (Hlen : length (h ++ [node_lit ScalarNode "" tok]) = px)
    by (rewrite length_app; cbn; unfold px; lia).
  assert (Hr2 : forall y, ((h ++ [node_lit ScalarNode "" tok]) ++ [y]) !! r = Some n).
  { intros y. rewrite <- app_assoc. rewrite lookup_app_l; [assumption|].
    now apply lookup_lt_Some in Hr. }
  assert (Hh : forall y, (h ++ [node_lit ScalarNode "" tok]) ++ [y]
                         = h ++ [node_lit ScalarNode "" tok; y])
    by (intros y; now rewrite <- app_assoc).
  destruct rest as [|tok1 rest]; unfold h3, x; clear h3 x.
  - unfold alloc. rewrite bind_unfold, Hlen.
    rewrite (bind_ok _ _ _ _ _ (load_ok _ _ _ (Hr2 _))).
    rewrite (store_ok _ _ _ _ (Hr2 _)). now rewrite Hh.
  - unfold alloc. rewrite bind_unfold, Hlen.
    rewrite (bind_ok _ _ _ _ _ (load_ok _ _ _ (Hr2 _))).
    rewrite (bind_ok _ _ _ _ _ (store_ok _ _ _ _ (Hr2 _))).
    now rewrite Hh.
Qed.

Lemma appended_heap_facts (h : heap) (r : addr) (n k x : Node) (c : list addr) :
  h !! r = Some n ->
  let h3 := <[r := with_Content n c]> (h ++ [k; x]) in
  h3 !! r = Some (with_Content n c)
  /\ h3 !! length h = Some k
  /\ h3 !! S (length h) = Some x
  /\ unchanged_outside [r] h h3
  /\ length h3 = S (S (length h)).
Proof.
  intros Hr h3. pose proof (lookup_lt_Some _ _ _ Hr) as Hlt.
  unfold h3. repeat split.
  - apply list_lookup_insert_eq. rewrite length_app. lia.
  - rewrite list_lookup_insert_ne by lia. rewrite lookup_app_r by lia.
    now rewrite Nat.sub_diag.
  - rewrite list_lookup_insert_ne by lia. rewrite lookup_app_r by lia.
    now replace (S (length h) - length h) with 1 by lia.
  - rewrite length_insert, length_app. lia.
  - intros a m Ha Hn. rewrite list_lookup_insert_ne by (cbn in Hn; lia).
    rewrite lookup_app_l; [assumption | now apply lookup_lt_Some in Ha].
  - rewrite length_insert, length_app. cbn. lia.
Qed.

(** Insertion below a Mapping with no content: every token becomes a new
    key, the value is found again by the same tokens, and only new cells and
    the mapping itself are written. *)
Lemma insert_fresh_mapping (rest : list string) (h : heap) (pv : addr)
  (m value : Node) :
  rest <> [] ->
  h !! pv = Some m ->
  Kind m = MappingNode ->
  Content m = [] ->
  exists h' p,
    insert pv rest value h = (h', Ok tt)
    /\ unchanged_outside [pv] h h'
    /\ find pv rest h' = (h', Ok [p])
    /\ h' !! p = Some value
    /\ length h <= p.
Proof.
  revert h pv m. induction rest as [|tok rest IH]; intros h pv m Hne Hpv Hk Hc;
    [contradiction|].
  rewrite (insert_cons _ _ _ _ _ _ Hpv), Hk.
  assert (Hodd : Nat.odd (length (Content m)) = false) by now rewrite Hc.
  assert (Hall : Forall (key_differs h tok) (pairs (Content m)))
    by (rewrite Hc; constructor).
  rewrite (mapInsert_append _ _ _ _ _ _ _ Hpv Hk Hodd Hall).
  set (x := match rest with [] => value | _ :: _ => node_lit MappingNode "!!map" "" end).
  destruct (appended_heap_facts h pv m (node_lit ScalarNode "" tok) x
              (Content m ++ [length h; S (length h)]) Hpv)
    as (H3r & H3k & H3x & H3u & H3l).
  set (h3 := <[pv := _]> _) in *.
  pose proof (lookup_lt_Some _ _ _ Hpv) as Hlt.
  destruct rest as [|tok1 rest].
  - exists h3, (S (length h)). split; [reflexivity|]. split; [assumption|].
    split; [|split; [assumption | lia]].
    rewrite find_last.
    apply (match_appended_key h3 pv (length h) (S (length h)) m
             (node_lit ScalarNode "" tok)); try assumption; try reflexivity.
    rewrite Hc. constructor.
  - destruct (IH h3 (S (length h)) (node_lit MappingNode "!!map" "")
                ltac:(discriminate) H3x eq_refl eq_refl)
      as (h' & p & Hi & Hu & Hf & Hp & Hge).
    exists h', p. split; [assumption|]. split; [|split; [|split; [assumption | lia]]].
    + apply (unchanged_outside_trans _ _ _ _ _ H3u Hu).
      intros a [<-|[]]. right. lia.
    + destruct Hu as [Hul Hun].
      rewrite (find_cons_one pv (S (length h)) tok _ h' h'); [assumption | | discriminate].
      apply (match_appended_key h' pv (length h) (S (length h)) m
               (node_lit ScalarNode "" tok)); try assumption; try reflexivity.
      * apply Hun; [assumption|]. intros [E|[]]. lia.
      * rewrite Hc. constructor.
      * apply Hun; [assumption|]. intros [E|[]]. lia.
Qed.

(** ** Insert and then Find: positions in a sequence *)

Lemma match_index (h : heap) (r c : addr) (n : Node) (tok : string) (i : Z) :
  h !! r = Some n ->
  Kind n = SequenceNode ->
  Atoi tok = Some i ->
  (0 <= i)%Z ->
  Content n !! Z.to_nat i = Some c ->
  match_ r tok h = (h, Ok [c]).
Proof.
  intros Hr Hk Ha Hi Hc. rewrite (match_at_Sequence _ _ _ _ Hr Hk).
  destruct (Atoi_not_special _ _ Ha) as [-> ->]. rewrite Ha.
  apply lookup_lt_Some in Hc as Hlt.
  assert (Hb : ((i <? 0) || (i >=? Z.of_nat (length (Content n))))%Z = false).
  { rewrite Z.geb_leb. apply orb_false_iff.
    split; [apply Z.ltb_ge | apply Z.leb_gt]; lia. }
  rewrite Hb. do 2 f_equal.
  rewrite <- (take_drop_middle _ _ _ Hc) at 1.
  rewrite drop_app_length' by (rewrite length_take; lia). reflexivity.
Qed.

Lemma match_itoa (h : heap) (r c : addr) (n : Node) (i : nat) :
  h !! r = Some n ->
  Kind n = SequenceNode ->
  (Z.of_nat i <= maxInt)%Z ->
  Content n !! i = Some c ->
  match_ r (itoa i) h = (h, Ok [c]).
Proof.
  intros Hr Hk Hi Hc.
  apply (match_index h r c n (itoa i) (Z.of_nat i)); try assumption.
  - now apply Atoi_itoa.
  - lia.
  - now rewrite Nat2Z.id.
Qed.

Lemma predicate_not_index (tok : string) :
  HasPrefix tok "~{" = true -> Atoi tok = None /\ String.eqb tok "-" = false.
Proof.
  intros Hp. split.
  - destruct (Atoi tok) as [i|] eqn:Ha; [|reflexivity].
    apply Atoi_not_special in Ha as [Ha _]. congruence.
  - destruct (String.eqb_spec tok "-") as [->|]; [discriminate | reflexivity].
Qed.

Lemma take1_drop_head {A} (c : list A) (i : nat) (x : A) (xs : list A) :
  take 1 (drop i c) = x :: xs -> c !! i = Some x.
Proof.
  intros H. rewrite <- (Nat.add_0_r i), <- lookup_drop.
  destruct (drop i c) as [|y ys]; [discriminate|].
  cbn in H. now injection H as -> _.
Qed.

Lemma filter_head_first_index (p : addr -> bool) (c : list addr) (x : addr)
  (xs : list addr) :
  List.filter p c = x :: xs ->
  exists i, first_index p c = Some i /\ c !! i = Some x.
Proof.
  induction c as [|y c IH]; cbn [List.filter first_index]; [discriminate|].
  destruct (p y).
  - intros [= -> _]. now exists 0.
  - intros H. destruct (IH H) as (i & -> & Hi). now exists (S i).
Qed.

(** What a successful [sequenceInsertAt] leaves: the new cell holds the node,
    only the sequence was written, and the resolved token finds the new cell
    as long as the sequence stays as it is. *)
Lemma sequenceInsertAt_then_match (h2 h3 : heap) (r : addr) (n x : Node)
  (tok : string) :
  h2 !! r = Some n ->
  Kind n = SequenceNode ->
  (Z.of_nat (length (Content n)) <= maxInt)%Z ->
  sequenceInsertAt r tok x h2 = (h3, Ok tt) ->
  HasPrefix tok "~{" = false
  /\ h3 !! length h2 = Some x
  /\ unchanged_outside [r] h2 h3
  /\ length h3 = S (length h2)
  /\ (String.eqb tok "-" = false -> exists i, Atoi tok = Some i)
  /\ exists n3,
       h3 !! r = Some n3 /\ Kind n3 = SequenceNode
       /\ forall h', h' !! r = Some n3 ->
            match_ r (if String.eqb tok "-" then itoa (length (Content n)) else tok) h'
            = (h', Ok [length h2]).
Proof.
  intros Hr Hk Hmax Hs. pose proof (lookup_lt_Some _ _ _ Hr) as Hlt.
  assert (Hfacts : forall c,
             let h3 := <[r := with_Content n c]> (h2 ++ [x]) in
             h3 !! length h2 = Some x /\ unchanged_outside [r] h2 h3
             /\ length h3 = S (length h2)
             /\ h3 !! r = Some (with_Content n c)).
  { intros c. cbv zeta. split; [|split; [split|split]].
    - rewrite list_lookup_insert_ne by lia. rewrite lookup_app_r by lia.
      now rewrite Nat.sub_diag.
    - rewrite length_insert, length_app. lia.
    - intros a m Ha Hn. rewrite list_lookup_insert_ne by (cbn in Hn; lia).
      rewrite lookup_app_l; [assumption | now apply lookup_lt_Some in Ha].
    - rewrite length_insert, length_app. cbn. lia.
    - apply list_lookup_insert_eq. rewrite length_app. lia. }
  destruct (String.eqb_spec tok "-") as [->|Hne].
  - rewrite (sequenceInsertAt_append _ _ _ _ Hr) in Hs. injection Hs as <-.
    destruct (Hfacts (Content n ++ [length h2])) as (Hx & Hu & Hl & Hr3).
    split; [reflexivity|]. split; [assumption|]. split; [assumption|].
    split; [assumption|]. split; [discriminate|].
    exists (with_Content n (Content n ++ [length h2])).
    split; [assumption|]. split; [assumption|]. intros h' Hr'.
    apply (match_itoa h' r _ _ _ Hr'); [assumption | assumption |].
    cbn [with_Content Content]. rewrite lookup_app_r by lia.
    now rewrite Nat.sub_diag.
  - destruct (Atoi tok) as [i|] eqn:Ha.
    2:{ rewrite sequenceInsertAt_not_index in Hs; [discriminate | assumption |].
        destruct (String.eqb_spec tok "-"); [contradiction | reflexivity]. }
    rewrite (sequenceInsertAt_index _ _ _ _ _ _ Hr Ha) in Hs.
    destruct (Z.ltb_spec i 0) as [|Hi0]; [discriminate|]. cbn [orb] in Hs.
    rewrite Z.geb_leb in Hs.
    destruct (Z.leb_spec (Z.of_nat (length (Content n))) i) as [|Hilen];
      [discriminate|].
    injection Hs as <-.
    destruct (Hfacts (slices_Insert (Content n) (Z.to_nat i) (length h2)))
      as (Hx & Hu & Hl & Hr3).
    destruct (Atoi_not_special _ _ Ha) as [Hp _].
    split; [assumption|]. split; [assumption|]. split; [assumption|].
    split; [assumption|]. split; [intros _; now exists i|].
    exists (with_Content n (slices_Insert (Content n) (Z.to_nat i) (length h2))).
    split; [assumption|]. split; [assumption|]. intros h' Hr'.
    apply (match_index h' r _ _ tok i Hr'); try assumption.
    cbn [with_Content Content]. apply slices_Insert_lookup. lia.
Qed.

(** ** Insert and then Find: the concrete path *)

Lemma length_resolve (h : heap) (root : addr) (toks : list string) :
  length (resolve Unmarshal isTreeSubset h root toks) = length toks.
Proof.
  revert root. induction toks as [|tok rest IH]; intros root; [reflexivity|].
  cbn [resolve]. destruct (h !! root) as [r|]; [|reflexivity].
  destruct (Kind r); try reflexivity.
  - destruct (HasPrefix tok "~{").
    + destruct (Unmarshal (tail1 tok)) as [mtree|]; [|reflexivity].
      destruct (first_index _ _) as [i|]; [|reflexivity].
      cbn [length]. f_equal. destruct (Content r !! i); [apply IH | reflexivity].
    + destruct (String.eqb tok "-"); [reflexivity|].
      cbn [length]. f_equal. destruct (Atoi tok) as [i|]; [|reflexivity].
      destruct (Content r !! Z.to_nat i) as [next0|]; [|reflexivity].
      destruct (h !! next0) as [m|]; [|reflexivity].
      destruct (Kind_eqb (Kind m) ScalarNode); [reflexivity | apply IH].
  - cbn [length]. f_equal.
    destruct (lookup_pairs h tok (Content r)); [apply IH | reflexivity].
Qed.

Lemma resolve_nonempty (h : heap) (root : addr) (toks : list string) :
  toks <> [] -> resolve Unmarshal isTreeSubset h root toks <> [].
Proof.
  intros Hne Hr. apply (f_equal (@length string)) in Hr.
  rewrite length_resolve in Hr. destruct toks; [contradiction | discriminate].
Qed.

Lemma resolve_no_slash (h : heap) (root : addr) (toks : list string) :
  Forall no_slash toks ->
  Forall no_slash (resolve Unmarshal isTreeSubset h root toks).
Proof.
  intros Hall. revert root. induction Hall as [|tok rest Htok Hrest IH];
    intros root; [constructor|].
  assert (Hsame : Forall no_slash (tok :: rest)) by now constructor.
  cbn [resolve]. destruct (h !! root) as [r|]; [|assumption].
  destruct (Kind r); try assumption.
  - destruct (HasPrefix tok "~{").
    + destruct (Unmarshal (tail1 tok)) as [mtree|]; [|assumption].
      destruct (first_index _ _) as [i|]; [|assumption].
      constructor; [apply itoa_no_slash|].
      destruct (Content r !! i); [apply IH | assumption].
    + destruct (String.eqb tok "-").
      { constructor; [apply itoa_no_slash | assumption]. }
      constructor; [assumption|]. destruct (Atoi tok) as [i|]; [|assumption].
      destruct (Content r !! Z.to_nat i) as [next0|]; [|assumption].
      destruct (h !! next0) as [m|]; [|assumption].
      destruct (Kind_eqb (Kind m) ScalarNode); [assumption | apply IH].
  - constructor; [assumption|].
    destruct (lookup_pairs h tok (Content r)); [apply IH | assumption].
Qed.

(** ** Insert and then Find: through a mapping made on the way *)

Lemma match_synthesized (h : heap) (pn pk pv : addr) (k : Node) (tok1 : string) :
  h !! pn = Some (mkNode MappingNode "!!map" "" [pk; pv] 0 0) ->
  h !! pk = Some k ->
  Value k = tok1 ->
  match_ pn tok1 h = (h, Ok [pv]).
Proof.
  intros Hn Hk Hv.
  apply (match_appended_key h pn pk pv (node_lit MappingNode "!!map" "") k);
    try assumption; try reflexivity. constructor.
Qed.

Lemma insert_synthesized (h3 h' : heap) (pn pn' pk pv : addr) (tok1 : string)
  (rest : list string) (value : Node) :
  h3 !! pn = Some (mkNode MappingNode "!!map" "" [pk; pv] 0 0) ->
  h3 !! pn' = Some (mkNode MappingNode "!!map" "" [pk; pv] 0 0) ->
  h3 !! pk = Some (node_lit ScalarNode "!!str" tok1) ->
  h3 !! pv = Some (node_lit MappingNode "!!map" "") ->
  pv <> pn' -> pv <> pk ->
  insert pn (tok1 :: rest) value h3 = (h', Ok tt) ->
  unchanged_outside [pv] h3 h'
  /\ exists p,
       find pn' (tok1 :: rest) h' = (h', Ok [p])
       /\ (h' !! p = Some value
           \/ (Kind value = MappingNode
               /\ h' !! p = Some (with_Content (node_lit MappingNode "!!map" "")
                                    (Content (node_lit MappingNode "!!map" "")
                                     ++ Content value))))
       /\ (p = pv \/ length h3 <= p).
Proof.
  intros Hn Hn' Hk Hv Hne1 Hne2 Hi.
  rewrite (insert_cons _ _ _ _ _ _ Hn) in Hi. cbn [Kind] in Hi.
  unfold mapInsert, attempt in Hi.
  rewrite bind_unfold, (match_synthesized h3 pn pk pv _ tok1 Hn Hk eq_refl) in Hi.
  assert (Hfind : forall h'', unchanged_outside [pv] h3 h'' ->
                    match_ pn' tok1 h'' = (h'', Ok [pv])).
  { intros h'' [_ Hun].
    apply (match_synthesized h'' pn' pk pv (node_lit ScalarNode "!!str" tok1));
      [apply Hun; [assumption | intros [E|[]]; congruence]
      | apply Hun; [assumption | intros [E|[]]; congruence]
      | reflexivity]. }
  destruct rest as [|tok2 rest].
  - rewrite (insert_nil _ _ _ _ Hv) in Hi. cbn [Kind node_lit Kind_eqb] in Hi.
    assert (Hu : forall x, unchanged_outside [pv] h3 (<[pv := x]> h3))
      by (intros x; apply unchanged_outside_store; now left).
    destruct (Kind_eqb (Kind value) MappingNode) eqn:Hkv.
    + injection Hi as <-. split; [apply Hu|]. exists pv.
      rewrite find_last. split; [now apply Hfind|]. split; [|now left].
      right. split; [now apply Kind_eqb_eq|].
      now apply (store_lookup _ _ _ _ Hv).
    + cbn [Content length Nat.eqb] in Hi. injection Hi as <-.
      split; [apply Hu|]. exists pv.
      rewrite find_last. split; [now apply Hfind|]. split; [|now left].
      left. now apply (store_lookup _ _ _ _ Hv).
  - destruct (insert_fresh_mapping (tok2 :: rest) h3 pv _ value
                ltac:(discriminate) Hv eq_refl eq_refl)
      as (h'' & p & Hi' & Hu & Hf & Hp & Hge).
    rewrite Hi' in Hi. injection Hi as ->.
    split; [assumption|]. exists p. split; [|split; [now left | now right]].
    rewrite (find_cons_one pn' pv tok1 _ h' h'); [assumption | | discriminate].
    now apply Hfind.
Qed.

(** ** Insert and then Find: the cases of one step *)

#[local] Abbreviation roundtrip_at := (roundtrip_at Unmarshal isTreeSubset).
#[local] Abbreviation resolve := (resolve Unmarshal isTreeSubset).

Lemma found_ok_fresh (h h' : heap) (p : addr) (value : Node) :
  length h <= p ->
  h' !! p = Some value
  \/ (Kind value = MappingNode
      /\ h' !! p = Some (with_Content (node_lit MappingNode "!!map" "")
                           (Content (node_lit MappingNode "!!map" "")
                            ++ Content value))) ->
  found_ok h h' p value.
Proof.
  intros Hge [H | [Hk H]]; [now left|]. right. split; [assumption|].
  exists (node_lit MappingNode "!!map" ""). split; [|split; [reflexivity | assumption]].
  right. split; [now apply lookup_ge_None | reflexivity].
Qed.

(** The step went down to an existing node [c], and the rest of the
    insertion happened below it. *)
Lemma descend_conclusion (h h' : heap) (r c : addr) (n : Node)
  (fps fpc : list addr) (tok' : string) (rest' : list string) (value : Node) :
  h !! r = Some n ->
  ~ In r fps ->
  (forall x, In x fpc -> In x fps) ->
  (forall h', unchanged_outside fpc h h' -> match_ r tok' h' = (h', Ok [c])) ->
  rest' <> [] ->
  roundtrip_at h h' c fpc rest' value ->
  roundtrip_at h h' r (r :: fps) (tok' :: rest') value.
Proof.
  intros Hr Hnot Hsub Hpres Hne (Hu & _ & p & Hf & Hok).
  split; [|split].
  - apply (unchanged_outside_weaken fpc); [assumption|]. intros a Ha. right. auto.
  - exists n, n. split; [assumption|]. split; [|reflexivity].
    apply Hu; [assumption|]. intros Hin. apply Hnot. auto.
  - exists p. split; [|assumption].
    rewrite (find_cons_one r c tok' rest' h' h'); [assumption | auto | assumption].
Qed.

(** The last token, at a sequence: the value is in the new cell. *)
Lemma seq_last_conclusion (h h1 h' : heap) (r : addr) (n value : Node)
  (fps : list addr) (tok : string) :
  h !! r = Some n ->
  Kind n = SequenceNode ->
  (Z.of_nat (length (Content n)) <= maxInt)%Z ->
  (exists ext, h1 = h ++ ext) ->
  sequenceInsertAt r tok value h1 = (h', Ok tt) ->
  HasPrefix tok "~{" = false
  /\ roundtrip_at h h' r (r :: fps)
       [if String.eqb tok "-" then itoa (length (Content n)) else tok] value.
Proof.
  intros Hr Hk Hmax [ext ->] Hs.
  assert (Hr1 : (h ++ ext) !! r = Some n).
  { rewrite lookup_app_l; [assumption | now apply lookup_lt_Some in Hr]. }
  destruct (sequenceInsertAt_then_match _ _ _ _ _ _ Hr1 Hk Hmax Hs)
    as (Hp & Hx & Hu & Hl & _ & n3 & Hr3 & Hk3 & Hm).
  split; [assumption|]. split; [|split].
  - apply (unchanged_outside_trans _ [r] _ _ _ (unchanged_outside_app _ h ext));
      [|intros a [<-|[]]; left; now left].
    apply (unchanged_outside_weaken [r]); [assumption|]. intros a [<-|[]]. now left.
  - exists n, n3. repeat split; try assumption. congruence.
  - exists (length (h ++ ext)). split.
    + rewrite find_last. now apply Hm.
    + left. assumption.
Qed.

(** A token at a sequence that made [insert] build a mapping: the rest of
    the path is in new cells. *)
Lemma synth_conclusion (h h1 h' : heap) (r : addr) (n value : Node)
  (fps : list addr) (tok tok1 : string) (rest : list string) :
  h !! r = Some n ->
  Kind n = SequenceNode ->
  (Z.of_nat (length (Content n)) <= maxInt)%Z ->
  (exists ext, h1 = h ++ ext) ->
  bind (sequenceInsertAt r tok
          (mkNode MappingNode "!!map" "" [S (length h1); S (S (length h1))] 0 0))
    (fun _ => insert (length h1) (tok1 :: rest) value)
    (h1 ++ [mkNode MappingNode "!!map" "" [S (length h1); S (S (length h1))] 0 0;
            node_lit ScalarNode "!!str" tok1; node_lit MappingNode "!!map" ""])
  = (h', Ok tt) ->
  HasPrefix tok "~{" = false
  /\ roundtrip_at h h' r (r :: fps)
       ((if String.eqb tok "-" then itoa (length (Content n)) else tok)
          :: tok1 :: rest) value.
Proof.
  intros Hr Hk Hmax [ext ->] Hb.
  pose proof (lookup_lt_Some _ _ _ Hr) as Hlt.
  set (pn := length (h ++ ext)) in *.
  set (n_syn := mkNode MappingNode "!!map" "" [S pn; S (S pn)] 0 0) in *.
  set (h2 := (h ++ ext) ++ [n_syn; node_lit ScalarNode "!!str" tok1;
                            node_lit MappingNode "!!map" ""]) in *.
  assert (Hpn : length h <= pn) by (unfold pn; rewrite length_app; lia).
  assert (Hl2 : length h2 = S (S (S pn)))
    by (unfold h2; rewrite length_app; cbn; unfold pn; lia).
  assert (Hr2 : h2 !! r = Some n).
  { unfold h2. rewrite <- app_assoc. rewrite lookup_app_l; [assumption | lia]. }
  assert (H2n : h2 !! pn = Some n_syn).
  { unfold h2, pn. rewrite lookup_app_r by lia. now rewrite Nat.sub_diag. }
  assert (H2k : h2 !! S pn = Some (node_lit ScalarNode "!!str" tok1)).
  { unfold h2, pn. rewrite lookup_app_r by lia.
    now replace (S (length (h ++ ext)) - length (h ++ ext)) with 1 by lia. }
  assert (H2v : h2 !! S (S pn) = Some (node_lit MappingNode "!!map" "")).
  { unfold h2, pn. rewrite lookup_app_r by lia.
    now replace (S (S (length (h ++ ext))) - length (h ++ ext)) with 2 by lia. }
  apply bind_ok_inv in Hb as ([] & h3 & Hs & Hi).
  destruct (sequenceInsertAt_then_match _ _ _ _ _ _ Hr2 Hk Hmax Hs)
    as (Hp & Hx & [Hul Hu] & Hl & _ & n3 & Hr3 & Hk3 & Hm).
  rewrite Hl2 in Hx.
  assert (Hnr : forall a, length h <= a -> ~ In a [r])
    by (intros a Ha [E|[]]; lia).
  destruct (insert_synthesized h3 h' pn (S (S (S pn))) (S pn) (S (S pn))
              tok1 rest value) as ([Hul' Hu'] & p & Hf & Hok & Hfresh);
    try assumption; try lia; try (apply Hu; [assumption | apply Hnr; lia]).
  assert (Hr' : h' !! r = Some n3)
    by (apply Hu'; [assumption | intros [E|[]]; lia]).
  split; [assumption|]. split; [|split].
  - split; [unfold pn in *; lia|]. intros a m Ha Hn.
    apply lookup_lt_Some in Ha as Halt.
    apply Hu'; [|intros [E|[]]; lia].
    apply Hu; [|intros [E|[]]; subst a; apply Hn; now left].
    unfold h2. rewrite <- app_assoc. now rewrite lookup_app_l.
  - exists n, n3. repeat split; try assumption. congruence.
  - exists p. split.
    + rewrite (find_cons_one r (S (S (S pn))) _ _ h' h');
        [assumption | | discriminate].
      rewrite <- Hl2. now apply Hm.
    + apply found_ok_fresh; [|assumption]. destruct Hfresh as [-> | Hge]; lia.
Qed.

(** The token is a new key of the mapping. *)
Lemma map_append_conclusion (h h' : heap) (r : addr) (n value : Node)
  (fps : list addr) (tok : string) (rest : list string) :
  h !! r = Some n ->
  Kind n = MappingNode ->
  shaped_list h (Content n) fps ->
  ~ In r fps ->
  Nat.odd (length (Content n)) = false ->
  Forall (key_differs h tok) (pairs (Content n)) ->
  mapInsert (fun p v => insert p rest v) r tok rest value h = (h', Ok tt) ->
  roundtrip_at h h' r (r :: fps) (tok :: rest) value.
Proof.
  intros Hr Hk Hs Hnot Hodd Hall Hi.
  pose proof (lookup_lt_Some _ _ _ Hr) as Hlt.
  rewrite (mapInsert_append _ _ _ _ _ _ _ Hr Hk Hodd Hall) in Hi.
  set (x := match rest with [] => value | _ :: _ => node_lit MappingNode "!!map" "" end) in *.
  destruct (appended_heap_facts h r n (node_lit ScalarNode "" tok) x
              (Content n ++ [length h; S (length h)]) Hr)
    as (H3r & H3k & H3x & [H3ul H3u] & H3l).
  set (h3 := <[r := _]> _) in *.
  assert (Hkeys : forall h'', (forall a m, h3 !! a = Some m -> a <> S (length h) ->
                                 h'' !! a = Some m) ->
                    match_ r tok h'' = (h'', Ok [S (length h)])).
  { intros h'' Hun.
    apply (match_appended_key h'' r (length h) (S (length h)) n
             (node_lit ScalarNode "" tok)); try assumption; try reflexivity.
    - apply Hun; [assumption | lia].
    - rewrite Forall_forall in *. intros kv Hin.
      destruct (Hall kv Hin) as (key & Hkey & Hne). exists key.
      split; [|assumption]. apply lookup_lt_Some in Hkey as Hklt.
      apply Hun; [|lia]. apply H3u; [assumption|]. intros [E|[]].
      apply Hnot. rewrite E. apply (shaped_list_elem h (Content n)); [assumption|].
      apply list_elem_of_In in Hin.
      destruct (pairs_fst_lookup _ _ Hin) as (i & _ & Hi').
      apply list_elem_of_In. now apply list_elem_of_lookup_2 in Hi'.
    - apply Hun; [assumption | lia]. }
  destruct rest as [|tok1 rest].
  - injection Hi as <-. split; [|split].
    + split; [lia|]. intros a m Ha Hn. apply H3u; [assumption|].
      intros [E|[]]. apply Hn. now left.
    + exists n, (with_Content n (Content n ++ [length h; S (length h)])).
      repeat split; assumption.
    + exists (S (length h)). split.
      * rewrite find_last. apply Hkeys. auto.
      * left. assumption.
  - destruct (insert_fresh_mapping (tok1 :: rest) h3 (S (length h)) _ value
                ltac:(discriminate) H3x eq_refl eq_refl)
      as (h'' & p & Hi' & [Hul Hu] & Hf & Hp & Hge).
    rewrite Hi' in Hi. injection Hi as ->.
    assert (Hun : forall a m, h3 !! a = Some m -> a <> S (length h) ->
                    h' !! a = Some m).
    { intros a m Ha Hne. apply Hu; [assumption|]. intros [E|[]]. congruence. }
    split; [|split].
    + split; [lia|]. intros a m Ha Hn. apply lookup_lt_Some in Ha as Halt.
      apply Hun; [|lia]. apply H3u; [assumption|].
      intros [E|[]]. apply Hn. now left.
    + exists n, (with_Content n (Content n ++ [length h; S (length h)])).
      repeat split; try assumption. apply Hun; [assumption | lia].
    + exists p. split.
      * rewrite (find_cons_one r (S (length h)) tok _ h' h');
          [assumption | now apply Hkeys | discriminate].
      * left. assumption.
Qed.

(** ** Insert and then Find: the whole path *)

Lemma int_sized_lookup (h : heap) (r : addr) (n : Node) :
  int_sized h -> h !! r = Some n ->
  (Z.of_nat (length (Content n)) <= maxInt)%Z.
Proof.
  intros Hs Hr. unfold int_sized in Hs. rewrite Forall_forall in Hs.
  apply Hs. now apply list_elem_of_lookup_2 in Hr.
Qed.

Lemma shaped_lookup (h : heap) (a : addr) (fp : list addr) :
  shaped h a fp -> exists n, h !! a = Some n.
Proof. intros [a' n fp' Hn _ _]. now exists n. Qed.

Lemma app_nil_ext (h : heap) : exists ext, h = h ++ ext.
Proof. exists []. now rewrite app_nil_r. Qed.

Lemma insert_roundtrip_core (toks : list string) :
  forall (h h' : heap) (r : addr) (fp : list addr) (value : Node),
    toks <> [] ->
    shaped h r fp ->
    int_sized h ->
    insert r toks value h = (h', Ok tt) ->
    roundtrip_at h h' r fp (resolve h r toks) value.
Proof.
  induction toks as [|tok rest IH]; intros h h' r fp value Hne Hsh Hint Hi;
    [contradiction|].
  destruct Hsh as [r n fps Hr Hlist Hnot].
  pose proof (int_sized_lookup _ _ _ Hint Hr) as Hmax.
  rewrite (insert_cons _ _ _ _ _ _ Hr) in Hi. cbn [resolve]. rewrite Hr.
  destruct (Kind n) eqn:Hk; try discriminate.
  - (* a sequence *)
    unfold sequenceInsert in Hi. apply bind_ok_inv in Hi as (next & h1 & Hm & Hi).
    rewrite (match_at_Sequence _ _ _ _ Hr Hk) in Hm.
    destruct (HasPrefix tok "~{") eqn:Hp.
    + (* a predicate token *)
      destruct (Unmarshal (tail1 tok)) as [mtree|]; [|discriminate].
      injection Hm as <- <-.
      destruct rest as [|tok1 rest].
      { destruct (seq_last_conclusion h h h' r n value fps tok Hr Hk Hmax
                    (app_nil_ext h) Hi) as [Hp' _]. congruence. }
      destruct (List.filter _ _) as [|next0 next] eqn:Hf; [discriminate|].
      apply bind_ok_inv in Hi as (m & h2 & Hl & Hi).
      apply load_ok_inv in Hl as [-> Hn0].
      destruct (Kind_eqb (Kind m) ScalarNode) eqn:Hsc; cbn [negb] in Hi.
      { rewrite (synthesize_steps h r tok tok1
                   (fun pn => insert pn (tok1 :: rest) value)) in Hi.
        destruct (synth_conclusion h h h' r n value fps tok tok1 rest Hr Hk Hmax
                    (app_nil_ext h) Hi) as [Hp' _]. congruence. }
      destruct (filter_head_first_index _ _ _ _ Hf) as (i & Hfi & Hci).
      rewrite Hfi, Hci.
      destruct (shaped_child _ _ _ _ _ Hlist Hci) as (fpc & Hsc' & Hsub & _).
      apply (descend_conclusion h h' r next0 n fps fpc); try assumption.
      * intros h'' [_ Hun]. apply (match_itoa h'' r next0 n i); try assumption.
        -- apply Hun; [assumption|]. intros Hin. apply Hnot. auto.
        -- apply lookup_lt_Some in Hci. lia.
      * apply resolve_nonempty. discriminate.
      * apply IH; [discriminate | assumption | assumption | assumption].
    + destruct (String.eqb_spec tok "-") as [->|Hnd].
      * (* the token - *)
        injection Hm as <- <-.
        assert (Hext : exists ext, h ++ [node_lit ScalarNode "" ""] = h ++ ext)
          by now exists [node_lit ScalarNode "" ""].
        destruct rest as [|tok1 rest].
        { now destruct (seq_last_conclusion h _ h' r n value fps "-" Hr Hk Hmax
                          Hext Hi) as [_ H]. }
        apply bind_ok_inv in Hi as (m & h2 & Hl & Hi).
        apply load_ok_inv in Hl as [-> Hn0].
        rewrite lookup_app_r in Hn0 by lia. rewrite Nat.sub_diag in Hn0.
        injection Hn0 as <-. cbn [node_lit Kind Kind_eqb negb] in Hi.
        rewrite (synthesize_steps _ r "-" tok1
                   (fun pn => insert pn (tok1 :: rest) value)) in Hi.
        now destruct (synth_conclusion h _ h' r n value fps "-" tok1 rest Hr Hk
                        Hmax Hext Hi) as [_ H].
      * (* an index *)
        assert (Hnd' : String.eqb tok "-" = false)
          by (destruct (String.eqb_spec tok "-"); [contradiction | reflexivity]).
        destruct (Atoi tok) as [i|] eqn:Ha; [|discriminate].
        destruct (Z.ltb_spec i 0) as [|Hi0]; [discriminate|]. cbn [orb] in Hm.
        rewrite Z.geb_leb in Hm.
        destruct (Z.leb_spec (Z.of_nat (length (Content n))) i) as [|Hilen];
          [discriminate|].
        injection Hm as <- <-.
        destruct rest as [|tok1 rest].
        { destruct (seq_last_conclusion h h h' r n value fps tok Hr Hk Hmax
                      (app_nil_ext h) Hi) as [_ H].
          rewrite Hnd' in H.
          destruct (Content n !! Z.to_nat i) as [next0|]; [|assumption].
          destruct (h !! next0) as [m|]; [|assumption].
          now destruct (Kind_eqb (Kind m) ScalarNode). }
        destruct (take 1 (drop (Z.to_nat i) (Content n))) as [|next0 next] eqn:Ht;
          [discriminate|].
        apply take1_drop_head in Ht. rewrite Ht.
        apply bind_ok_inv in Hi as (m & h2 & Hl & Hi).
        apply load_ok_inv in Hl as [-> Hn0]. rewrite Hn0.
        destruct (Kind_eqb (Kind m) ScalarNode) eqn:Hsc; cbn [negb] in Hi.
        { rewrite (synthesize_steps h r tok tok1
                     (fun pn => insert pn (tok1 :: rest) value)) in Hi.
          destruct (synth_conclusion h h h' r n value fps tok tok1 rest Hr Hk
                      Hmax (app_nil_ext h) Hi) as [_ H].
          now rewrite Hnd' in H. }
        destruct (shaped_child _ _ _ _ _ Hlist Ht) as (fpc & Hsc' & Hsub & _).
        apply (descend_conclusion h h' r next0 n fps fpc); try assumption.
        -- intros h'' [_ Hun].
           apply (match_index h'' r next0 n tok i); try assumption.
           apply Hun; [assumption|]. intros Hin. apply Hnot. auto.
        -- apply resolve_nonempty. discriminate.
        -- apply IH; [discriminate | assumption | assumption | assumption].
  - (* a mapping *)
    destruct (match_ r tok h) as [h1 [next|e|p]] eqn:Hm.
    + (* the key is there *)
      destruct (mapping_step_preserved _ _ _ _ _ _ _ Hr Hk Hlist Hnot Hm)
        as (-> & v & fpv & -> & Hl & Hsv & Hsub & Hpres).
      rewrite Hl. unfold mapInsert, attempt in Hi. rewrite bind_unfold, Hm in Hi.
      destruct rest as [|tok1 rest].
      * destruct (shaped_lookup _ _ _ Hsv) as [old Hold].
        rewrite (insert_nil _ _ _ _ Hold) in Hi. cbn [resolve].
        assert (Hu : forall x, unchanged_outside fpv h (<[v := x]> h)).
        { intros x. apply unchanged_outside_store. now apply shaped_head in Hsv. }
        assert (Hconc : forall x,
                   found_ok h (<[v := x]> h) v value ->
                   roundtrip_at h (<[v := x]> h) r (r :: fps) [tok] value).
        { intros x Hok. split; [|split].
          - apply (unchanged_outside_weaken fpv); [apply Hu|].
            intros a Ha. right. auto.
          - exists n, n. split; [assumption|]. split; [|reflexivity].
            apply Hu; [assumption|]. intros Hin. apply Hnot. auto.
          - exists v. split; [|assumption]. rewrite find_last. apply Hpres, Hu. }
        destruct (Kind_eqb (Kind old) MappingNode) eqn:Hko; [|discriminate].
        destruct (Kind_eqb (Kind value) MappingNode) eqn:Hkv.
        -- injection Hi as <-. apply Hconc. right.
           split; [now apply Kind_eqb_eq|]. exists old.
           split; [now left|]. split; [now apply Kind_eqb_eq|].
           now apply (store_lookup _ _ _ _ Hold).
        -- destruct (length (Content old) =? 0); [|discriminate].
           injection Hi as <-. apply Hconc. left.
           now apply (store_lookup _ _ _ _ Hold).
      * apply (descend_conclusion h h' r v n fps fpv); try assumption.
        -- apply resolve_nonempty. discriminate.
        -- apply IH; [discriminate | assumption | assumption | assumption].
    + (* the key is new *)
      rewrite (match_at_Mapping _ _ _ _ Hr Hk) in Hm.
      destruct (Nat.odd (length (Content n))) eqn:Hodd.
      { injection Hm as <- <-. unfold mapInsert, attempt in Hi.
        rewrite bind_unfold, (match_at_Mapping _ _ _ _ Hr Hk), Hodd in Hi.
        discriminate. }
      apply match_pairs_inv_err in Hm as (-> & -> & _ & Hall & Hl).
      rewrite Hl.
      apply (map_append_conclusion h h' r n value fps tok rest); assumption.
    + unfold mapInsert, attempt in Hi. rewrite bind_unfold, Hm in Hi.
      discriminate.
Qed.

(** ** Insert and then Find: the exported functions *)

Lemma match_fuel_indep (f1 f2 : nat) (c0 : addr) (m : Node) (tok : string)
  (h : heap) :
  h !! c0 = Some m -> Kind m <> DocumentNode ->
  match_fuel f1 c0 tok h = match_fuel f2 c0 tok h.
Proof.
  intros Hc Hk. rewrite !match_fuel_unfold.
  rewrite !(bind_ok _ _ _ _ _ (load_ok _ _ _ Hc)). cbv zeta.
  destruct (Kind m); try reflexivity. contradiction.
Qed.

Lemma match_at_Document (h : heap) (root c0 : addr) (doc m : Node)
  (cs : list addr) (tok : string) :
  h !! root = Some doc -> Kind doc = DocumentNode -> Content doc = c0 :: cs ->
  h !! c0 = Some m -> Kind m <> DocumentNode ->
  match_ root tok h = match_ c0 tok h.
Proof.
  intros Hr Hk Hc Hc0 Hm. unfold match_ at 1. rewrite match_fuel_unfold.
  rewrite (bind_ok _ _ _ _ _ (load_ok _ _ _ Hr)). cbv zeta. rewrite Hk, Hc.
  apply lookup_lt_Some in Hr.
  destruct (length h) as [|f] eqn:Hl; [lia|].
  unfold match_. rewrite Hl. now apply (match_fuel_indep _ _ _ m).
Qed.

Lemma find_Document (h : heap) (root c0 : addr) (doc m : Node)
  (cs : list addr) (toks : list string) :
  h !! root = Some doc -> Kind doc = DocumentNode -> Content doc = c0 :: cs ->
  h !! c0 = Some m -> Kind m <> DocumentNode ->
  find root toks h = find c0 toks h.
Proof.
  intros Hr Hk Hc Hc0 Hm. destruct toks as [|tok rest]; [reflexivity|].
  cbn [find]. rewrite !bind_unfold.
  now rewrite (match_at_Document _ _ _ _ _ _ _ Hr Hk Hc Hc0 Hm).
Qed.

Lemma Insert_ok_inv (h h' : heap) (root : addr) (ptr : string) (value : Node) :
  Insert root ptr value h = (h', Ok tt) ->
  exists toks start v,
    jsonPointerToTokens ptr = Ok toks
    /\ insert_root h root = Some start
    /\ insert_value h value = Some v
    /\ insert start toks v h = (h', Ok tt).
Proof.
  unfold Insert, lift. rewrite bind_unfold.
  destruct (jsonPointerToTokens ptr) as [toks|e1|] eqn:Ht; try discriminate.
  intros H. exists toks. unfold insert_root, insert_value.
  destruct (Kind_eqb (Kind value) DocumentNode).
  - destruct (Content value) as [|c0 cs]; [discriminate|].
    unfold bind, load in H.
    destruct (h !! c0) as [v|]; [|discriminate].
    destruct (h !! root) as [r|]; [|discriminate].
    destruct (Kind_eqb (Kind r) DocumentNode).
    + destruct (Content r) as [|r0 rs]; [discriminate|]. now exists r0, v.
    + now exists root, v.
  - unfold bind, load, ret in H.
    destruct (h !! root) as [r|]; [|discriminate].
    destruct (Kind_eqb (Kind r) DocumentNode).
    + destruct (Content r) as [|r0 rs]; [discriminate|]. now exists r0, value.
    + now exists root, value.
Qed.

Lemma insert_ok_kind (h h' : heap) (r : addr) (n : Node) (tok : string)
  (rest : list string) (value : Node) :
  h !! r = Some n ->
  insert r (tok :: rest) value h = (h', Ok tt) ->
  Kind n = SequenceNode \/ Kind n = MappingNode.
Proof.
  intros Hr Hi. rewrite (insert_cons _ _ _ _ _ _ Hr) in Hi.
  destruct (Kind n); try discriminate; auto.
Qed.

Lemma Find_one (h h' : heap) (root p : addr) (ptr : string)
  (toks : list string) :
  String.eqb ptr "" = false ->
  jsonPointerToTokens ptr = Ok toks ->
  find root toks h = (h', Ok [p]) ->
  Find root ptr h = (h', Ok p).
Proof.
  intros Hne Ht Hf.
  assert (HF : FindAll root ptr h = (h', Ok [p])).
  { unfold FindAll. rewrite Hne. unfold lift. rewrite bind_unfold, Ht.
    unfold attempt. rewrite bind_unfold. now rewrite Hf. }
  unfold Find. now rewrite bind_unfold, HF.
Qed.


(** ** Further properties: the tokenizer *)

Lemma HasPrefix_slash (s : string) :
  HasPrefix s "/" = true <-> exists s', s = String "/" s'.
Proof.
  destruct s as [|c s]; simpl.
  - split; [discriminate | intros [? ?]; discriminate].
  - rewrite andb_true_r. split.
    + intros H. apply Ascii.eqb_eq in H. subst. now exists s.
    + intros [s' E]. injection E as <- <-. apply Ascii.eqb_refl.
Qed.

Lemma split_slash_cons_slash (s : string) :
  split_slash (String "/" s) = "" :: split_slash s.
Proof. reflexivity. Qed.

Lemma split_slash_join (s : string) :
  match split_slash s with
  | w :: ws => s = (w ++ pointer_of ws)%string
  | [] => False
  end.
Proof.
  induction s as [|c s IH]; [reflexivity|].
  cbn [split_slash]. destruct (Ascii.eqb_spec c "/") as [->|Hc].
  - destruct (split_slash s) as [|w ws]; [contradiction|].
    cbn [pointer_of]. simpl. now rewrite <- IH.
  - destruct (split_slash s) as [|w ws]; [contradiction|].
    simpl. now rewrite <- IH.
Qed.

Lemma split_slash_length (s : string) :
  length (split_slash s) = S (slash_count s).
Proof.
  induction s as [|c s IH]; [reflexivity|].
  cbn [split_slash slash_count]. destruct (Ascii.eqb c "/").
  - simpl. now rewrite IH.
  - destruct (split_slash s) as [|w ws]; simpl in *; lia.
Qed.

Lemma split_slash_pieces (s : string) :
  Forall (fun t => slash_count t = 0) (split_slash s).
Proof.
  induction s as [|c s IH]; [repeat constructor|].
  cbn [split_slash]. destruct (Ascii.eqb c "/") eqn:Hc.
  - now constructor.
  - destruct (split_slash s) as [|w ws].
    + repeat constructor. cbn [slash_count]. now rewrite Hc.
    + inversion IH as [|? ? Hw Hws]; subst. constructor; [|assumption].
      cbn [slash_count]. now rewrite Hc.
Qed.

Lemma slash_count_no_slash (t : string) : slash_count t = 0 -> no_slash t.
Proof.
  unfold no_slash. induction t as [|c t IH]; [reflexivity|].
  cbn [slash_count split_slash]. destruct (Ascii.eqb c "/"); [discriminate|].
  intros H. now rewrite IH.
Qed.

Lemma tokens_split (s : string) :
  jsonPointerToTokens (String "/" s) = Ok (split_slash s).
Proof. reflexivity. Qed.

Lemma pointer_syntax_accepts (ptr : string) :
  ValidateJSONPointer ptr = None <-> ptr = "" \/ exists s, ptr = String "/" s.
Proof.
  destruct ptr as [|c s]; [split; [now left | reflexivity]|].
  unfold ValidateJSONPointer.
  change (String.eqb (String c s) "") with false. cbv iota.
  destruct (HasPrefix (String c s) "/") eqn:Hp; cbn [negb].
  - apply HasPrefix_slash in Hp as [s' E].
    split; [right; now exists s' | reflexivity].
  - split; [discriminate|]. intros [E | [s' E]]; [discriminate|].
    assert (HasPrefix (String c s) "/" = true)
      by (apply HasPrefix_slash; now exists s').
    congruence.
Qed.

Lemma tokens_accepted (ptr : string) (toks : list string) :
  jsonPointerToTokens ptr = Ok toks -> ValidateJSONPointer ptr = None.
Proof.
  unfold jsonPointerToTokens, ValidateJSONPointer.
  destruct (String.eqb ptr ""); [reflexivity|].
  now destruct (negb (HasPrefix ptr "/")).
Qed.

(** X1.  [ValidateJSONPointer] accepts the empty pointer and the pointers
    that start with [/], and no other; [jsonPointerToTokens] returns tokens
    for the pointers it accepts and the syntax error for the others: the
    slice [referenceTokens[1:]] is never out of range. *)
Theorem pointer_syntax (ptr : string) :
  (ValidateJSONPointer ptr = None
     <-> ptr = "" \/ exists s, ptr = String "/" s)
  /\ (ValidateJSONPointer ptr = None ->
        exists toks, jsonPointerToTokens ptr = Ok toks)
  /\ (ValidateJSONPointer ptr <> None ->
        ValidateJSONPointer ptr = Some SyntaxError
        /\ jsonPointerToTokens ptr = Err SyntaxError).
Proof.
  split; [apply pointer_syntax_accepts|].
  unfold jsonPointerToTokens, ValidateJSONPointer.
  destruct (String.eqb ptr "").
  - split; [now exists [] | intros H; now contradiction H].
  - destruct (negb (HasPrefix ptr "/")).
    + split; [discriminate | now split].
    + split; [|intros H; now contradiction H].
      intros _. pose proof (split_slash_nonempty ptr).
      destruct (split_slash ptr) as [|w ws]; [contradiction|]. now exists ws.
Qed.

(** X2.  The tokens of a pointer are the pieces between its slashes, as they
    are: joined again, each behind a [/], they give the pointer back (no
    escape sequence is decoded, no empty token dropped); there is one token
    for each [/] of the pointer, and no token has a [/] in it. *)
Theorem tokens_join (ptr : string) (toks : list string) :
  jsonPointerToTokens ptr = Ok toks ->
  pointer_of toks = ptr
  /\ length toks = slash_count ptr
  /\ Forall (fun tok => slash_count tok = 0) toks.
Proof.
  destruct ptr as [|c s].
  - intros [= <-]. repeat split. constructor.
  - intros H.
    destruct (proj1 (pointer_syntax_accepts _) (tokens_accepted _ _ H))
      as [E | [s' E]]; [discriminate|].
    injection E as -> ->. rewrite tokens_split in H. injection H as <-.
    pose proof (split_slash_join (String "/" s')) as Hj.
    rewrite split_slash_cons_slash in Hj.
    split; [now rewrite Hj | split].
    + rewrite (split_slash_length s'). cbn [slash_count].
      change (Ascii.eqb "/" "/") with true. reflexivity.
    + apply split_slash_pieces.
Qed.

(** X3.  Conversely, a non-empty list of tokens without slashes is what
    [jsonPointerToTokens] returns for the pointer that joins them. *)
Theorem tokens_of_pointer (toks : list string) :
  toks <> [] ->
  Forall (fun tok => slash_count tok = 0) toks ->
  jsonPointerToTokens (pointer_of toks) = Ok toks.
Proof.
  intros Hne Hall. apply tokens_pointer_of; [assumption|].
  eapply Forall_impl; [exact Hall|]. apply slash_count_no_slash.
Qed.

(** ** Further properties: [match] *)

Lemma filter_sublist {A} (p : A -> bool) (l : list A) :
  sublist (List.filter p l) l.
Proof.
  induction l as [|x l IH]; cbn [List.filter]; [constructor|].
  destruct (p x); now constructor.
Qed.

Lemma result_eq_overflow {A} (out : result A) :
  out = Panic StackOverflow \/ out <> Panic StackOverflow.
Proof.
  destruct out as [a|e|[]]; try (right; discriminate). now left.
Qed.

Lemma match_Document_step (fuel : nat) (root c0 : addr) (cs : list addr)
  (r : Node) (tok : string) (h : heap) :
  h !! root = Some r -> Kind r = DocumentNode -> Content r = c0 :: cs ->
  match_fuel (S fuel) root tok h = match_fuel fuel c0 tok h.
Proof.
  intros Hr Hk Hc. rewrite match_fuel_unfold.
  rewrite (bind_ok _ _ _ _ _ (load_ok _ _ _ Hr)). cbv zeta.
  now rewrite Hk, Hc.
Qed.

(** [match] at a document node is [match] at its first child. *)
Lemma match_Document_skip (root c0 : addr) (cs : list addr) (r : Node)
  (tok : string) (h : heap) :
  h !! root = Some r -> Kind r = DocumentNode -> Content r = c0 :: cs ->
  match_ root tok h = match_ c0 tok h.
Proof.
  intros Hr Hk Hc.
  assert (Hlen : length h = S (pred (length h))).
  { apply lookup_lt_Some in Hr. lia. }
  assert (Hroot : match_ root tok h = match_fuel (pred (length h)) c0 tok h).
  { unfold match_. rewrite Hlen at 1.
    apply (match_Document_step _ _ _ _ _ _ _ Hr Hk Hc). }
  rewrite Hroot.
  destruct (match_fuel (pred (length h)) c0 tok h) as [h1 out] eqn:Hm.
  destruct (result_eq_overflow out) as [-> | Hno].
  - (* the chain of documents does not end *)
    pose proof (match_overflow_diverges _ _ _ _ Hroot (S (length h))) as Hd.
    rewrite (match_Document_step _ _ _ _ _ _ _ Hr Hk Hc) in Hd.
    pose proof (match_overflow_diverges _ _ _ _ Hroot (S (pred (length h)))) as Hd'.
    rewrite (match_Document_step _ _ _ _ _ _ _ Hr Hk Hc), Hm in Hd'.
    injection Hd' as ->. unfold match_. now rewrite Hd.
  - symmetry. unfold match_. rewrite Hlen.
    now apply (match_fuel_more _ _ _ _ _ Hm).
Qed.

(** X4.  [match] at a Sequence, with a token that is not a predicate: a
    number within the bounds selects the element at that position and leaves
    the store as it is; a number outside the bounds is the out-of-bounds
    error; a token that is neither a number nor [-] is the error of
    [strconv.Atoi]. *)
Theorem match_sequence_index (h : heap) (root : addr) (r : Node) (tok : string) :
  h !! root = Some r ->
  Kind r = SequenceNode ->
  (forall i, Atoi tok = Some i -> (0 <= i < Z.of_nat (length (Content r)))%Z ->
     exists c, Content r !! Z.to_nat i = Some c
               /\ match_ root tok h = (h, Ok [c]))
  /\ (forall i, Atoi tok = Some i ->
        (i < 0 \/ Z.of_nat (length (Content r)) <= i)%Z ->
        match_ root tok h = (h, Err OutOfBounds))
  /\ (Atoi tok = None -> HasPrefix tok "~{" = false -> tok <> "-" ->
        match_ root tok h = (h, Err (NotAnIndex tok))).
Proof.
  intros Hr Hk. split; [|split].
  - intros i Hi Hrange.
    destruct (Content r !! Z.to_nat i) as [c|] eqn:Hc.
    + exists c. split; [reflexivity|].
      apply (match_index h root c r tok i); [assumption .. | lia | assumption].
    + apply lookup_ge_None in Hc. lia.
  - intros i Hi Hrange. rewrite (match_at_Sequence _ _ _ _ Hr Hk).
    destruct (Atoi_not_special _ _ Hi) as [-> ->]. rewrite Hi.
    replace ((i <? 0)%Z || (i >=? Z.of_nat (length (Content r)))%Z) with true
      by (symmetry; apply orb_true_iff; lia).
    reflexivity.
  - intros Hi Hp Hdash. rewrite (match_at_Sequence _ _ _ _ Hr Hk), Hp, Hi.
    destruct (String.eqb_spec tok "-"); [contradiction | reflexivity].
Qed.

(** X5.  [match] at a Sequence, with a predicate token [~{...}] whose text
    (the token without its [~]) [yaml.Unmarshal] accepts: the result is the
    elements of the sequence that [isTreeSubset] accepts against the parsed
    tree, each once for each time it is an element, in the order of the
    sequence; the store is as it was, and no error is returned, also when no
    element is accepted.  When [yaml.Unmarshal] rejects the text, its error
    is returned. *)
Theorem match_sequence_predicate (h : heap) (root : addr) (r : Node)
  (tok : string) :
  h !! root = Some r ->
  Kind r = SequenceNode ->
  HasPrefix tok "~{" = true ->
  (forall mtree, Unmarshal (tail1 tok) = Some mtree ->
     exists res,
       match_ root tok h = (h, Ok res)
       /\ res = List.filter (isTreeSubset mtree h) (Content r)
       /\ sublist res (Content r)
       /\ (forall c, In c res
                     <-> In c (Content r) /\ isTreeSubset mtree h c = true))
  /\ (Unmarshal (tail1 tok) = None ->
        match_ root tok h = (h, Err (YamlError (tail1 tok)))).
Proof.
  intros Hr Hk Hp. rewrite (match_at_Sequence _ _ _ _ Hr Hk), Hp. split.
  - intros mtree ->. eexists. split; [reflexivity|]. split; [reflexivity|].
    split; [apply filter_sublist|]. intros c. apply filter_In.
  - now intros ->.
Qed.

(** X6.  [match] at a document node goes on at the first child of the node,
    whatever the token, so that any number of document nodes in a row are
    skipped; at a document node with no child, it faults (index out of
    range). *)
Theorem match_document (h : heap) (root : addr) (r : Node) (tok : string) :
  h !! root = Some r ->
  Kind r = DocumentNode ->
  (Content r = [] -> match_ root tok h = (h, Panic IndexOutOfRange))
  /\ (forall c0 cs, Content r = c0 :: cs ->
        match_ root tok h = match_ c0 tok h).
Proof.
  intros Hr Hk. split.
  - intros Hc. unfold match_.
    rewrite match_fuel_unfold, (bind_ok _ _ _ _ _ (load_ok _ _ _ Hr)).
    cbv zeta. now rewrite Hk, Hc.
  - intros c0 cs Hc. now apply (match_Document_skip _ _ cs r).
Qed.

(** X7.  [match] does not return exactly when the document nodes it skips
    never end: from [root], each node is a document node whose first child
    is the next (the chain comes back to a node it has been through). *)
Theorem match_divergence (h : heap) (root : addr) (tok : string) :
  (exists h', match_ root tok h = (h', Panic StackOverflow))
  <-> (forall k, exists b, doc_chain h root k = Some b).
Proof.
  split.
  - intros [h' Hm]. unfold match_ in Hm.
    apply match_fuel_overflow in Hm as [c Hc].
    now apply (doc_chain_cycle h root c).
  - intros Hall. destruct (Hall (S (length h))) as [c Hc].
    exists h. unfold match_. now apply (doc_chain_overflow _ _ c).
Qed.

(** ** Further properties: the lookup *)

Lemma dummies_added_refl (D : Prop) (h : heap) : dummies_added D h h.
Proof. exists []. split; [now rewrite app_nil_r|]. split; [constructor | reflexivity]. Qed.

Lemma dummies_added_trans (D1 D2 D : Prop) (h h1 h2 : heap) :
  dummies_added D1 h h1 -> dummies_added D2 h1 h2 ->
  (D1 -> D) -> (D2 -> D) ->
  dummies_added D h h2.
Proof.
  intros (e1 & -> & Hd1 & Hn1) (e2 & -> & Hd2 & Hn2) H1 H2.
  exists (e1 ++ e2). split; [now rewrite app_assoc|]. split.
  - now apply Forall_app.
  - intros HD. rewrite Hn1, Hn2; tauto.
Qed.

Lemma match_pairs_frame (tok : string) (c : list addr) (h h' : heap)
  (out : result (list addr)) :
  match_pairs tok c h = (h', out) -> h' = h.
Proof.
  induction c as [|x|k v c IH] using list_pair_ind; cbn [match_pairs].
  - now intros [= <- _].
  - now intros [= <- _].
  - unfold bind, load. destruct (h !! k) as [key|]; [|now intros [= <- _]].
    destruct (String.eqb tok (Value key)); [now intros [= <- _] | assumption].
Qed.

Lemma match_fuel_frame (fuel : nat) (a : addr) (tok : string) (h h' : heap)
  (out : result (list addr)) :
  match_fuel fuel a tok h = (h', out) -> dummies_added (tok = "-") h h'.
Proof.
  assert (Hsame : forall o, (h, o) = (h', out) -> dummies_added (tok = "-") h h').
  { intros o [= <- _]. apply dummies_added_refl. }
  revert a. induction fuel as [|fuel IH]; intros a; rewrite match_fuel_unfold;
    unfold bind, load; (destruct (h !! a) as [r|]; [|apply Hsame]); cbv zeta;
    destruct (Kind r); try apply Hsame.
  1, 4: destruct (Content r); [apply Hsame|]; try apply Hsame; apply IH.
  1, 3: destruct (HasPrefix tok "~{");
    [destruct (Unmarshal (tail1 tok)); [rewrite filter_spec|]; apply Hsame|];
    destruct (String.eqb_spec tok "-") as [->|Hd];
    [unfold alloc, ret; intros [= <- _];
     exists [node_lit ScalarNode "" ""]; split; [reflexivity|];
     split; [now repeat constructor | intros Hn; now contradiction Hn]|];
    destruct (Atoi tok); [|apply Hsame];
    destruct ((_ <? _)%Z || _); apply Hsame.
  all: destruct (Nat.odd _); [apply Hsame|]; intros H;
    apply match_pairs_frame in H as ->; apply dummies_added_refl.
Qed.

Lemma find_loop_frame (D : Prop) (f : addr -> M (list addr)) :
  (forall n h h' out, f n h = (h', out) -> dummies_added D h h') ->
  forall next res h h' out,
    find_loop f res next h = (h', out) -> dummies_added D h h'.
Proof.
  intros Hf next. induction next as [|n next IH]; intros res h h' out;
    cbn [find_loop].
  - intros [= <- _]. apply dummies_added_refl.
  - rewrite bind_unfold. destruct (f n h) as [h1 [found|e|p]] eqn:Hn;
      apply Hf in Hn.
    + intros H. apply IH in H. eapply dummies_added_trans; eauto.
    + now intros [= <- _].
    + now intros [= <- _].
Qed.

Lemma find_frame (root : addr) (toks : list string) (h h' : heap)
  (out : result (list addr)) :
  find root toks h = (h', out) -> dummies_added (In "-" toks) h h'.
Proof.
  revert root h h' out. induction toks as [|tok rest IH]; intros root h h' out.
  - intros [= <- _]. apply dummies_added_refl.
  - cbn [find]. rewrite bind_unfold.
    destruct (match_ root tok h) as [h1 [next|e|p]] eqn:Hm;
      apply match_fuel_frame in Hm.
    + intros H.
      assert (Hrest : dummies_added (In "-" rest) h1 h').
      { destruct rest as [|tok1 rest].
        - injection H as <- _. apply dummies_added_refl.
        - eapply find_loop_frame; [|exact H]. intros n; apply IH. }
      eapply dummies_added_trans; [exact Hm | exact Hrest | |].
      * intros ->. now left.
      * intros Hin. now right.
    + intros [= <- _].
      apply (dummies_added_trans _ False _ _ _ _ Hm (dummies_added_refl _ _));
        [intros ->; now left | intros []].
    + intros [= <- _].
      apply (dummies_added_trans _ False _ _ _ _ Hm (dummies_added_refl _ _));
        [intros ->; now left | intros []].
Qed.

Lemma FindAll_frame (root : addr) (ptr : string) (h h' : heap)
  (out : result (list addr)) :
  FindAll root ptr h = (h', out) ->
  dummies_added (exists toks, jsonPointerToTokens ptr = Ok toks /\ In "-" toks)
    h h'.
Proof.
  unfold FindAll. destruct (String.eqb ptr "").
  { intros [= <- _]. apply dummies_added_refl. }
  unfold lift, attempt. rewrite bind_unfold.
  destruct (jsonPointerToTokens ptr) as [toks|e|p] eqn:Ht.
  - rewrite bind_unfold. intros H.
    assert (Hf : dummies_added (In "-" toks) h h').
    { destruct (find root toks h) as [h1 [res|e|p]] eqn:Hf;
        apply find_frame in Hf; now injection H as <- _. }
    apply (dummies_added_trans _ False _ _ _ _ Hf (dummies_added_refl _ _));
      [|intros []].
    intros Hin. now exists toks.
  - intros [= <- _]. apply dummies_added_refl.
  - intros [= <- _]. apply dummies_added_refl.
Qed.

(** X8.  A lookup does not change the document: the store after [FindAll]
    or [Find], whatever they return, is the store before followed by dummy
    scalar nodes, and by none unless a token of the pointer is [-]. *)
Theorem lookup_frame (root : addr) (ptr : string) (h : heap) :
  (forall h' out, FindAll root ptr h = (h', out) ->
     dummies_added
       (exists toks, jsonPointerToTokens ptr = Ok toks /\ In "-" toks) h h')
  /\ (forall h' out, Find root ptr h = (h', out) ->
        dummies_added
          (exists toks, jsonPointerToTokens ptr = Ok toks /\ In "-" toks) h h').
Proof.
  split; [intros h' out; apply FindAll_frame|].
  intros h' out. unfold Find. rewrite bind_unfold.
  destruct (FindAll root ptr h) as [h1 [res|e|p]] eqn:HA;
    apply FindAll_frame in HA.
  - destruct (1 <? length res); [now intros [= <- _]|].
    destruct res; now intros [= <- _].
  - now intros [= <- _].
  - now intros [= <- _].
Qed.

(** ** Further properties: pointers one after the other *)

Lemma no_predicate_cons (tok : string) (toks : list string) :
  no_predicate (tok :: toks) ->
  HasPrefix tok "~{" = false /\ no_predicate toks.
Proof. intros H. now inversion H. Qed.

(** [find] with tokens [toks1 ++ toks2], none of [toks1] a predicate: what
    [find] does with [toks1], and after it what it does with [toks2] from
    the node found. *)
Lemma find_app (toks1 toks2 : list string) :
  no_predicate toks1 -> toks1 <> [] -> toks2 <> [] ->
  forall root h,
    find root (toks1 ++ toks2) h =
    match find root toks1 h with
    | (h1, Ok res) =>
        match res with
        | c :: _ => find c toks2 h1
        | [] => (h1, Ok [])
        end
    | (h1, Err e) => (h1, Err e)
    | (h1, Panic p) => (h1, Panic p)
    end.
Proof.
  intros Hp Hne1 Hne2.
  induction toks1 as [|tok rest1 IH]; [contradiction|]. intros root h.
  apply no_predicate_cons in Hp as [Htok Hrest].
  destruct rest1 as [|tok1 rest1].
  - rewrite find_last. cbn [app].
    destruct (match_ root tok h) as [h1 [next|e|p]] eqn:Hm.
    + pose proof (match_fuel_singleton _ _ _ _ _ _ Htok Hm) as Hlen.
      apply length_one in Hlen as [c ->].
      now apply find_cons_one.
    + cbn [find]. now rewrite bind_unfold, Hm.
    + cbn [find]. now rewrite bind_unfold, Hm.
  - specialize (IH Hrest ltac:(discriminate)).
    destruct (match_ root tok h) as [h1 [next|e|p]] eqn:Hm.
    + pose proof (match_fuel_singleton _ _ _ _ _ _ Htok Hm) as Hlen.
      apply length_one in Hlen as [c ->].
      rewrite (find_cons_one _ _ _ (tok1 :: rest1) _ _ Hm) by discriminate.
      change ((tok :: tok1 :: rest1) ++ toks2)
        with (tok :: ((tok1 :: rest1) ++ toks2)).
      rewrite (find_cons_one _ _ _ ((tok1 :: rest1) ++ toks2) _ _ Hm)
        by discriminate.
      apply IH.
    + cbn [find app]. now rewrite !bind_unfold, Hm.
    + cbn [find app]. now rewrite !bind_unfold, Hm.
Qed.

Lemma tokens_app (p q' : string) (tp : list string) :
  p <> "" ->
  jsonPointerToTokens p = Ok tp ->
  jsonPointerToTokens (p ++ String "/" q') = Ok (tp ++ split_slash q').
Proof.
  intros Hne Hp.
  destruct (proj1 (pointer_syntax_accepts p) (tokens_accepted _ _ Hp))
    as [-> | [s ->]]; [contradiction|].
  rewrite tokens_split in Hp. injection Hp as <-.
  change ((String "/" s ++ String "/" q')%string)
    with (String "/" (s ++ String "/" q')).
  now rewrite tokens_split, split_slash_app.
Qed.

Lemma FindAll_unfold (root : addr) (ptr : string) (toks : list string)
  (h : heap) :
  ptr <> "" ->
  jsonPointerToTokens ptr = Ok toks ->
  FindAll root ptr h =
  match find root toks h with
  | (h', Ok res) => (h', Ok res)
  | (h', Err e) => (h', Err (Quoted ptr e))
  | (h', Panic p) => (h', Panic p)
  end.
Proof.
  intros Hne Ht. unfold FindAll.
  destruct (String.eqb_spec ptr ""); [contradiction|].
  unfold lift, attempt. rewrite bind_unfold, Ht, bind_unfold.
  now destruct (find root toks h) as [h' [res|e|p]].
Qed.

Lemma FindAll_error_shape (root : addr) (ptr : string) (h h' : heap)
  (e : error) :
  FindAll root ptr h = (h', Err e) ->
  e = EmptyPointerError \/ e = SyntaxError
  \/ exists toks e0,
       ptr <> "" /\ jsonPointerToTokens ptr = Ok toks
       /\ find root toks h = (h', Err e0) /\ e = Quoted ptr e0.
Proof.
  unfold FindAll. destruct (String.eqb_spec ptr "") as [->|Hne].
  { intros [= _ <-]. now left. }
  unfold lift, attempt. rewrite bind_unfold.
  destruct (jsonPointerToTokens ptr) as [toks|e1|p] eqn:Ht; [| |discriminate].
  - rewrite bind_unfold.
    destruct (find root toks h) as [h1 [res|e0|p]] eqn:Hf; try discriminate.
    intros [= <- <-]. right; right. now exists toks, e0.
  - intros [= _ <-]. right; left.
    unfold jsonPointerToTokens, ValidateJSONPointer in Ht.
    destruct (String.eqb ptr ""); [discriminate|].
    destruct (negb (HasPrefix ptr "/")); [congruence|].
    destruct (split_slash ptr); discriminate.
Qed.

Lemma Find_ok_inv (root : addr) (ptr : string) (h h' : heap) (p : addr) :
  Find root ptr h = (h', Ok p) <-> FindAll root ptr h = (h', Ok [p]).
Proof.
  unfold Find. rewrite bind_unfold. split.
  - destruct (FindAll root ptr h) as [h1 [res|e|q]]; try discriminate.
    destruct res as [|a [|b res]]; cbn; try discriminate.
    now intros [= <- <-].
  - now intros ->.
Qed.

Lemma FindAll_ok_nonempty (root : addr) (ptr : string) (h h' : heap)
  (res : list addr) :
  FindAll root ptr h = (h', Ok res) -> ptr <> "".
Proof.
  unfold FindAll. destruct (String.eqb_spec ptr ""); [discriminate | auto].
Qed.

(** X9.  Lookups compose.  When [Find] resolves the pointer [p], none of
    whose tokens is a predicate, to the node [c], then looking up [p]
    followed by [q] from the root is looking up [q] from [c]: [FindAll] and
    [Find] return the same nodes, and an error of the resolver is the same
    error, under the longer pointer.  And when [FindAll] fails on [p] in the
    resolver, it fails with the same error on [p] followed by [/q']. *)
Theorem Find_compose (root : addr) (p q : string) (toks : list string)
  (h : heap) :
  jsonPointerToTokens p = Ok toks ->
  no_predicate toks ->
  (forall h1 c, Find root p h = (h1, Ok c) ->
     (forall h2 res, FindAll c q h1 = (h2, Ok res) ->
        FindAll root (p ++ q) h = (h2, Ok res))
     /\ (forall h2 d, Find c q h1 = (h2, Ok d) ->
           Find root (p ++ q) h = (h2, Ok d))
     /\ (forall h2 e, FindAll c q h1 = (h2, Err (Quoted q e)) ->
           FindAll root (p ++ q) h = (h2, Err (Quoted (p ++ q) e))))
  /\ (forall h1 e q', FindAll root p h = (h1, Err (Quoted p e)) ->
        FindAll root (p ++ String "/" q') h
        = (h1, Err (Quoted (p ++ String "/" q') e))).
Proof.
  intros Ht Hp.
  assert (Hcat : forall q', p <> "" -> (p ++ String "/" q')%string <> "").
  { intros q' Hne. destruct p; [contradiction | discriminate]. }
  split.
  - intros h1 c HF. apply Find_ok_inv in HF.
    pose proof (FindAll_ok_nonempty _ _ _ _ _ HF) as Hne.
    rewrite (FindAll_unfold _ _ _ _ Hne Ht) in HF.
    assert (Hfind : find root toks h = (h1, Ok [c]))
      by (destruct (find root toks h) as [h' [res|e|x]]; congruence).
    assert (Htoks : toks <> []) by (intros ->; discriminate).
    assert (Hall : forall h2 res, FindAll c q h1 = (h2, Ok res) ->
                     FindAll root (p ++ q) h = (h2, Ok res)).
    { intros h2 res Hq.
      pose proof (FindAll_ok_nonempty _ _ _ _ _ Hq) as Hqne.
      destruct (jsonPointerToTokens q) as [tq|eq|pq] eqn:Htq.
      - destruct (proj1 (pointer_syntax_accepts q) (tokens_accepted _ _ Htq))
          as [-> | [q' ->]]; [contradiction|].
        rewrite tokens_split in Htq. injection Htq as <-.
        rewrite (FindAll_unfold _ _ _ _ Hqne (tokens_split q')) in Hq.
        rewrite (FindAll_unfold _ _ _ _ (Hcat q' Hne) (tokens_app _ q' _ Hne Ht)).
        rewrite (find_app _ _ Hp Htoks (split_slash_nonempty q')), Hfind.
        destruct (find c (split_slash q') h1) as [h' [r|e|x]]; congruence.
      - unfold FindAll in Hq. destruct (String.eqb q ""); [discriminate|].
        unfold lift in Hq. now rewrite bind_unfold, Htq in Hq.
      - unfold FindAll in Hq. destruct (String.eqb q ""); [discriminate|].
        unfold lift in Hq. now rewrite bind_unfold, Htq in Hq. }
    split; [exact Hall | split].
    + intros h2 d Hd. apply Find_ok_inv. apply Hall. now apply Find_ok_inv.
    + intros h2 e Hq.
      destruct (FindAll_error_shape _ _ _ _ _ Hq)
        as [E | [E | (tq & e0 & Hqne & Htq & Hfq & E)]]; try discriminate.
      injection E as <-.
      destruct (proj1 (pointer_syntax_accepts q) (tokens_accepted _ _ Htq))
        as [-> | [q' ->]]; [contradiction|].
      rewrite tokens_split in Htq. injection Htq as <-.
      rewrite (FindAll_unfold _ _ _ _ (Hcat q' Hne) (tokens_app _ q' _ Hne Ht)).
      now rewrite (find_app _ _ Hp Htoks (split_slash_nonempty q')), Hfind, Hfq.
  - intros h1 e q' HF.
    destruct (FindAll_error_shape _ _ _ _ _ HF)
      as [E | [E | (tp & e0 & Hne & Htp & Hfp & E)]]; try discriminate.
    injection E as <-. assert (tp = toks) as -> by congruence.
    assert (Htoks : toks <> []) by (intros ->; discriminate).
    rewrite (FindAll_unfold _ _ _ _ (Hcat q' Hne) (tokens_app _ q' _ Hne Ht)).
    now rewrite (find_app _ _ Hp Htoks (split_slash_nonempty q')), Hfp.
Qed.

(** ** Further properties: what [Find] and [FindAll] return *)

Lemma match_fuel_not_found (fuel : nat) (a : addr) (tok : string)
  (h h' : heap) (e : error) :
  match_fuel fuel a tok h = (h', Err e) ->
  errors_Is_ErrNotFound e = true ->
  h' = h /\ e = Quoted tok ErrNotFound
  /\ exists node m,
       h !! node = Some m /\ Kind m = MappingNode
       /\ Nat.even (length (Content m)) = true
       /\ Forall (key_differs h tok) (pairs (Content m)).
Proof.
  revert a. induction fuel as [|fuel IH]; intros a; rewrite match_fuel_unfold;
    unfold bind, load; (destruct (h !! a) as [r|] eqn:Hr; [|discriminate]);
    cbv zeta; destruct (Kind r) eqn:Hk;
    try (intros [= _ <-]; discriminate).
  1, 4: destruct (Content r); [discriminate|]; try discriminate; apply IH.
  1, 3: destruct (HasPrefix tok "~{");
    [destruct (Unmarshal (tail1 tok));
       [rewrite filter_spec; discriminate | intros [= _ <-]; discriminate]|];
    destruct (String.eqb tok "-"); [discriminate|];
    destruct (Atoi tok); [|intros [= _ <-]; discriminate];
    destruct ((_ <? _)%Z || _); [intros [= _ <-]|]; discriminate.
  all: destruct (Nat.odd _); [intros [= _ <-]; discriminate|]; intros H _;
    apply match_pairs_inv_err in H as (-> & -> & Hev & Hall & _);
    split; [reflexivity|]; split; [reflexivity|]; now exists a, r.
Qed.

(** X10.  [Find] returns a node exactly when [FindAll] returns that node and
    no other; it returns the too-many-results error, with the number of
    results, exactly when [FindAll] returns two nodes or more; it returns
    the bad-state error exactly when [FindAll] returns no node and no error;
    and an error of [FindAll] is returned as it is. *)
Theorem Find_outcomes (root : addr) (ptr : string) (h h' : heap) :
  (forall p, Find root ptr h = (h', Ok p) <-> FindAll root ptr h = (h', Ok [p]))
  /\ (forall n e,
        Find root ptr h = (h', Err (GotMatches n e))
        <-> e = ErrTooManyResults /\ 2 <= n
            /\ exists res, FindAll root ptr h = (h', Ok res) /\ length res = n)
  /\ (forall s,
        Find root ptr h = (h', Err (BadState s))
        <-> s = ptr /\ FindAll root ptr h = (h', Ok []))
  /\ (forall e, FindAll root ptr h = (h', Err e) ->
        Find root ptr h = (h', Err e)).
Proof.
  split; [intros p; apply Find_ok_inv|].
  unfold Find. rewrite bind_unfold.
  destruct (FindAll root ptr h) as [h1 [res|e1|q]] eqn:HA.
  - destruct res as [|a [|b res]]; cbn [length Nat.ltb Nat.leb].
    + split; [|split]; [split | split |]; try discriminate.
      * intros (_ & Hn & res & [= _ <-] & <-). cbn in Hn. lia.
      * now intros [= <- <-].
      * now intros [-> [= ->]].
    + split; [|split]; [split | split |]; try discriminate.
      * intros (_ & Hn & res & [= _ <-] & <-). cbn in Hn. lia.
      * now intros [_ [= _]].
    + split; [|split]; [split | split |]; try discriminate.
      * intros [= <- <- <-]. split; [reflexivity|]. split; [cbn; lia|].
        now exists (a :: b :: res).
      * now intros (-> & _ & res' & [= <- <-] & <-).
      * now intros [_ [= _]].
  - assert (Hshape : (forall n e, e1 <> GotMatches n e)
                     /\ forall s, e1 <> BadState s).
    { destruct (FindAll_error_shape _ _ _ _ _ HA)
        as [-> | [-> | (toks & e0 & _ & _ & _ & ->)]]; split; discriminate. }
    destruct Hshape as [Hg Hb].
    split; [|split]; [split | split |].
    + intros [= <- E]. now contradiction (Hg n e).
    + now intros (_ & _ & res & [= ] & _).
    + intros [= <- E]. now contradiction (Hb s).
    + now intros [_ [= ]].
    + now intros e [= <- <-].
  - split; [|split]; [split | split |]; try discriminate.
    + now intros (_ & _ & res & [= ] & _).
    + now intros [_ [= ]].
Qed.

(** X11.  The not-found error.  When [FindAll] returns an error that
    [errors.Is] takes for [ErrNotFound], the error is [ErrNotFound] wrapped
    with a token of the pointer and then with the pointer, and the token is
    not a key of some Mapping of the document, whose content is of even
    length. *)
Theorem FindAll_not_found (root : addr) (ptr : string) (h h' : heap)
  (e : error) :
  FindAll root ptr h = (h', Err e) ->
  errors_Is_ErrNotFound e = true ->
  exists toks tok node m,
    jsonPointerToTokens ptr = Ok toks
    /\ In tok toks
    /\ e = Quoted ptr (Quoted tok ErrNotFound)
    /\ h' !! node = Some m /\ Kind m = MappingNode
    /\ Nat.even (length (Content m)) = true
    /\ Forall (key_differs h' tok) (pairs (Content m)).
Proof.
  intros HA His.
  destruct (FindAll_error_shape _ _ _ _ _ HA)
    as [-> | [-> | (toks & e0 & Hne & Ht & Hf & ->)]]; try discriminate.
  cbn [errors_Is_ErrNotFound] in His.
  destruct (find_error_origin _ _ _ _ _ Hf) as (node & tok & h0 & Hin & Hm).
  unfold match_ in Hm.
  destruct (match_fuel_not_found _ _ _ _ _ _ Hm His)
    as (-> & -> & node' & m & Hn & Hk & Hev & Hall).
  now exists toks, tok, node', m.
Qed.

Lemma find_Document_skip (root c0 : addr) (cs : list addr) (r : Node)
  (toks : list string) (h : heap) :
  h !! root = Some r -> Kind r = DocumentNode -> Content r = c0 :: cs ->
  find root toks h = find c0 toks h.
Proof.
  intros Hr Hk Hc. destruct toks as [|tok rest]; [reflexivity|].
  cbn [find]. rewrite !bind_unfold.
  now rewrite (match_Document_skip _ _ _ _ tok _ Hr Hk Hc).
Qed.

(** X12.  Document nodes are transparent to the lookup: from a document
    node, [FindAll] and [Find] return what they return from its first
    child, for every pointer. *)
Theorem lookup_document (h : heap) (root c0 : addr) (cs : list addr)
  (r : Node) (ptr : string) :
  h !! root = Some r ->
  Kind r = DocumentNode ->
  Content r = c0 :: cs ->
  FindAll root ptr h = FindAll c0 ptr h
  /\ Find root ptr h = Find c0 ptr h.
Proof.
  intros Hr Hk Hc.
  assert (HA : FindAll root ptr h = FindAll c0 ptr h).
  { unfold FindAll. destruct (String.eqb ptr ""); [reflexivity|].
    unfold lift, attempt. rewrite !bind_unfold.
    destruct (jsonPointerToTokens ptr) as [toks|e|p]; try reflexivity.
    rewrite !bind_unfold.
    now rewrite (find_Document_skip _ _ _ _ toks _ Hr Hk Hc). }
  split; [exact HA|]. unfold Find. now rewrite !bind_unfold, HA.
Qed.

(** ** Further properties: insertion at the keys of a mapping *)

Lemma match_pairs_lookup (h : heap) (tok : string) (c : list addr) (v : addr) :
  lookup_pairs h tok c = Some v -> match_pairs tok c h = (h, Ok [v]).
Proof.
  induction c as [|x|k w c IH] using list_pair_ind;
    cbn [lookup_pairs match_pairs]; try discriminate.
  unfold bind, load. destruct (h !! k) as [key|]; [|discriminate].
  destruct (String.eqb tok (Value key)); [now intros [= ->] | assumption].
Qed.

Lemma insert_existing_step (h : heap) (r c : addr) (n : Node) (tok : string)
  (rest : list string) (value : Node) :
  h !! r = Some n -> Kind n = MappingNode ->
  Nat.odd (length (Content n)) = false ->
  lookup_pairs h tok (Content n) = Some c ->
  insert r (tok :: rest) value h = insert c rest value h.
Proof.
  intros Hr Hk Hodd Hl. rewrite (insert_cons _ _ _ _ _ _ Hr), Hk.
  unfold mapInsert, attempt. rewrite bind_unfold.
  rewrite (match_at_Mapping _ _ _ _ Hr Hk), Hodd.
  now rewrite (match_pairs_lookup _ _ _ _ Hl).
Qed.

(** X13.  [Insert] does not replace what a key of a Mapping already has.
    When the token is a key of the Mapping (of even content), the insertion
    goes on at the value of the first pair with that key.  If the token is
    the last one, and that value is not a Mapping, or is a Mapping with
    content while the inserted value is not a Mapping, the result is the
    cannot-insert error; if tokens follow, and that value is neither a
    Mapping nor a Sequence, the result is the unhandled-node-type error.
    The store is unchanged in both cases. *)
Theorem insert_existing_key (h : heap) (r c : addr) (n m value : Node)
  (tok : string) :
  h !! r = Some n ->
  Kind n = MappingNode ->
  Nat.odd (length (Content n)) = false ->
  lookup_pairs h tok (Content n) = Some c ->
  h !! c = Some m ->
  (forall rest, insert r (tok :: rest) value h = insert c rest value h)
  /\ (~ (Kind m = MappingNode /\ (Kind value = MappingNode \/ Content m = [])) ->
        insert r [tok] value h
        = (h, Err (CannotInsert (Kind value) (Tag value) (Kind m) (Tag m))))
  /\ (Kind m <> MappingNode -> Kind m <> SequenceNode ->
      forall tok1 rest,
        insert r (tok :: tok1 :: rest) value h
        = (h, Err (UnhandledNodeType (Kind m) (Tag m)))).
Proof.
  intros Hr Hk Hodd Hl Hc. split; [|split].
  - intros rest. now apply (insert_existing_step _ _ _ n).
  - intros Hnot. rewrite (insert_existing_step _ _ _ _ _ _ _ Hr Hk Hodd Hl).
    rewrite (insert_nil _ _ _ _ Hc).
    destruct (Kind_eqb (Kind m) MappingNode) eqn:Em; [|reflexivity].
    apply Kind_eqb_eq in Em.
    destruct (Kind_eqb (Kind value) MappingNode) eqn:Ev.
    { apply Kind_eqb_eq in Ev. tauto. }
    destruct (Content m) eqn:Ec; [tauto | reflexivity].
  - intros Hm1 Hm2 tok1 rest.
    rewrite (insert_existing_step _ _ _ _ _ _ _ Hr Hk Hodd Hl).
    rewrite (insert_cons _ _ _ _ _ _ Hc). now destruct (Kind m).
Qed.

Lemma key_differs_transport (h h' : heap) (tok : string) (c : list addr) :
  Forall (key_differs h tok) (pairs c) ->
  (forall a key, h !! a = Some key ->
     exists key', h' !! a = Some key' /\ Value key' = Value key) ->
  Forall (key_differs h' tok) (pairs c).
Proof.
  intros Hall Hto. eapply Forall_impl; [exact Hall|].
  intros kv (key & Hkey & Hv). destruct (Hto _ _ Hkey) as (key' & Hkey' & E).
  exists key'. split; [assumption | congruence].
Qed.

(** The insertion at a token that is not a key: it succeeds, and writes the
    mapping only. *)
Lemma insert_missing_effect (h : heap) (r : addr) (n value : Node)
  (tok : string) (rest : list string) :
  h !! r = Some n ->
  Kind n = MappingNode ->
  Nat.odd (length (Content n)) = false ->
  Forall (key_differs h tok) (pairs (Content n)) ->
  exists h',
    insert r (tok :: rest) value h = (h', Ok tt)
    /\ unchanged_outside [r] h h'
    /\ h' !! r = Some (with_Content n (Content n ++ [length h; S (length h)])).
Proof.
  intros Hr Hk Hodd Hall.
  pose proof (lookup_lt_Some _ _ _ Hr) as Hlt.
  rewrite (insert_cons _ _ _ _ _ _ Hr), Hk.
  rewrite (mapInsert_append _ _ _ _ _ _ _ Hr Hk Hodd Hall). cbv zeta.
  set (x := match rest with [] => value | _ :: _ => node_lit MappingNode "!!map" "" end).
  destruct (appended_heap_facts h r n (node_lit ScalarNode "" tok) x
              (Content n ++ [length h; S (length h)]) Hr)
    as (H3r & _ & H3x & H3out & _).
  destruct rest as [|tok1 rest].
  - eexists. split; [reflexivity|]. now split.
  - destruct (insert_fresh_mapping (tok1 :: rest) _ (S (length h)) x value
                ltac:(discriminate) H3x eq_refl eq_refl)
      as (h' & p & Hins & Hout & _).
    exists h'. split; [assumption|]. split.
    + eapply unchanged_outside_trans; [exact H3out | exact Hout|].
      intros a [<-|[]]. right. lia.
    + apply (proj2 Hout); [assumption|]. intros [E|[]]. lia.
Qed.

(** X14.  [Insert] at a token that is not a key of a Mapping (of even
    content) does not fail, whatever the tokens that follow: a new key node,
    a Scalar with the token as its value and no tag, and a new node after it
    are appended to the pairs of the Mapping, which keeps the pairs it has;
    the new node is the value when the token is the last one, and else the
    first of a chain of new mappings, one for each token that follows, taken
    as a key.  The same tokens then lead [find] to one node, which holds
    the value. *)
Theorem insert_missing_key (h : heap) (r : addr) (n value : Node)
  (tok : string) (rest : list string) :
  h !! r = Some n ->
  Kind n = MappingNode ->
  Nat.odd (length (Content n)) = false ->
  Forall (key_differs h tok) (pairs (Content n)) ->
  exists h' p,
    insert r (tok :: rest) value h = (h', Ok tt)
    /\ unchanged_outside [r] h h'
    /\ h' !! r = Some (with_Content n (Content n ++ [length h; S (length h)]))
    /\ h' !! length h = Some (node_lit ScalarNode "" tok)
    /\ find r (tok :: rest) h' = (h', Ok [p])
    /\ h' !! p = Some value
    /\ (rest = [] -> p = S (length h) /\ length h' = S (S (length h))).
Proof.
  intros Hr Hk Hodd Hall.
  pose proof (lookup_lt_Some _ _ _ Hr) as Hlt.
  rewrite (insert_cons _ _ _ _ _ _ Hr), Hk.
  rewrite (mapInsert_append _ _ _ _ _ _ _ Hr Hk Hodd Hall). cbv zeta.
  set (x := match rest with [] => value | _ :: _ => node_lit MappingNode "!!map" "" end).
  destruct (appended_heap_facts h r n (node_lit ScalarNode "" tok) x
              (Content n ++ [length h; S (length h)]) Hr)
    as (H3r & H3k & H3x & H3out & H3len).
  set (h3 := <[r := with_Content n (Content n ++ [length h; S (length h)])]>
               (h ++ [node_lit ScalarNode "" tok; x])) in *.
  assert (Hkeys : forall h', unchanged_outside [S (length h)] h3 h' ->
            Forall (key_differs h' tok) (pairs (Content n))).
  { intros h' [_ Hout]. apply (key_differs_transport h); [assumption|].
    intros a key Ha. pose proof (lookup_lt_Some _ _ _ Ha) as Hla.
    destruct (Nat.eq_dec a r) as [->|Har].
    - assert (key = n) as -> by congruence.
      exists (with_Content n (Content n ++ [length h; S (length h)])).
      split; [|reflexivity].
      apply Hout; [assumption|]. intros [E|[]]. lia.
    - exists key. split; [|reflexivity].
      apply Hout; [|intros [E|[]]; lia].
      apply (proj2 H3out); [assumption|]. intros [E|[]]. congruence. }
  assert (Hmatch : forall h', unchanged_outside [S (length h)] h3 h' ->
            match_ r tok h' = (h', Ok [S (length h)])).
  { intros h' Hout.
    apply (match_appended_key h' r (length h) (S (length h)) n
             (node_lit ScalarNode "" tok)); try assumption; try reflexivity.
    - apply (proj2 Hout); [assumption|]. intros [E|[]]. lia.
    - now apply Hkeys.
    - apply (proj2 Hout); [assumption|]. intros [E|[]]. lia. }
  destruct rest as [|tok1 rest].
  - exists h3, (S (length h)). split; [reflexivity|].
    split; [assumption|]. split; [assumption|]. split; [assumption|].
    split; [|split; [assumption|auto]].
    rewrite find_last. apply Hmatch, unchanged_outside_refl.
  - destruct (insert_fresh_mapping (tok1 :: rest) h3 (S (length h)) x value
                ltac:(discriminate) H3x eq_refl eq_refl)
      as (h' & p & Hins & Hout & Hfind & Hp & Hge).
    exists h', p. split; [assumption|]. split; [|split; [|split; [|split]]].
    + eapply unchanged_outside_trans; [exact H3out | exact Hout|].
      intros a [<-|[]]. right. lia.
    + apply (proj2 Hout); [assumption|]. intros [E|[]]. lia.
    + apply (proj2 Hout); [assumption|]. intros [E|[]]. lia.
    + rewrite (find_cons_one _ _ _ (tok1 :: rest) _ _ (Hmatch h' Hout))
        by discriminate.
      assumption.
    + split; [assumption | discriminate].
Qed.

(** ** Further properties: what an insertion does to the store *)

Lemma kept_refl (n : Node) : kept n n.
Proof. split; [reflexivity | right; tauto]. Qed.

Lemma kept_trans (a b c : Node) : kept a b -> kept b c -> kept a c.
Proof.
  intros [Hab Fab] [Hbc Fbc]. split; [now transitivity (Content b)|].
  destruct Fab as [Fab | (Ek & Et & Ev & El & Ec)]; [now left|].
  destruct Fbc as [[Hk Hnil] | (Ek' & Et' & Ev' & El' & Ec')].
  - left. split; [congruence|]. rewrite Hnil in Hab.
    now apply sublist_nil_r in Hab.
  - right. repeat split; congruence.
Qed.

Lemma kept_with_Content (n : Node) (c : list addr) :
  sublist (Content n) c -> kept n (with_Content n c).
Proof. intros H. split; [exact H | right; tauto]. Qed.

Lemma extends_refl (h : heap) : extends h h.
Proof. intros a n Ha. exists n. split; [assumption | apply kept_refl]. Qed.

Lemma extends_trans (h h1 h2 : heap) :
  extends h h1 -> extends h1 h2 -> extends h h2.
Proof.
  intros H1 H2 a n Ha. destruct (H1 _ _ Ha) as (n1 & Ha1 & K1).
  destruct (H2 _ _ Ha1) as (n2 & Ha2 & K2).
  exists n2. split; [assumption | now apply (kept_trans _ n1)].
Qed.

Lemma extends_app (h ext : heap) : extends h (h ++ ext).
Proof.
  intros a n Ha. exists n. split; [|apply kept_refl].
  rewrite lookup_app_l; [assumption | now apply lookup_lt_Some in Ha].
Qed.

Lemma extends_store (h : heap) (p : addr) (n n' : Node) :
  h !! p = Some n -> kept n n' -> extends h (<[p := n']> h).
Proof.
  intros Hp K a m Ha. destruct (Nat.eq_dec a p) as [->|Hne].
  - exists n'. split; [now apply (store_lookup _ _ n) | congruence].
  - exists m. split; [|apply kept_refl]. now rewrite list_lookup_insert_ne.
Qed.

Lemma slices_Insert_sublist {A} (s : list A) (i : nat) (v : A) :
  sublist s (slices_Insert s i v).
Proof.
  unfold slices_Insert. rewrite <- (take_drop i s) at 1.
  apply sublist_app; [reflexivity | now apply sublist_cons].
Qed.

(** [sequenceInsertAt]: it puts a new cell into the content of the node, or
    fails and leaves the store as it is. *)
Lemma sequenceInsertAt_inv (root : addr) (tok : string) (n : Node)
  (h h' : heap) (out : result unit) :
  sequenceInsertAt root tok n h = (h', out) ->
  (out = Ok tt
   /\ exists r c', h !! root = Some r /\ sublist (Content r) c'
                   /\ h' = <[root := with_Content r c']> (h ++ [n]))
  \/ (out <> Ok tt /\ h' = h).
Proof.
  assert (Hst : forall r c', h !! root = Some r ->
            store root (with_Content r c') (h ++ [n])
            = (<[root := with_Content r c']> (h ++ [n]), Ok tt)).
  { intros r c' Hr. apply (store_ok _ _ r).
    rewrite lookup_app_l; [assumption | now apply lookup_lt_Some in Hr]. }
  unfold sequenceInsertAt. destruct (String.eqb tok "-").
  - unfold bind, load, alloc. destruct (h !! root) as [r|] eqn:Hr.
    + rewrite (Hst _ _ eq_refl). intros [= <- <-]. left. split; [reflexivity|].
      exists r, (Content r ++ [length h]).
      split; [reflexivity|]. split; [apply sublist_inserts_r; reflexivity|].
      reflexivity.
    + intros [= <- <-]. right. split; [discriminate | reflexivity].
  - destruct (Atoi tok) as [i|].
    + unfold bind, load, alloc. destruct (h !! root) as [r|] eqn:Hr.
      * destruct ((i <? 0)%Z || _).
        { intros [= <- <-]. right. split; [discriminate | reflexivity]. }
        rewrite (Hst _ _ eq_refl). intros [= <- <-]. left. split; [reflexivity|].
        exists r, (slices_Insert (Content r) (Z.to_nat i) (length h)).
        split; [reflexivity|]. split; [apply slices_Insert_sublist|].
        reflexivity.
      * intros [= <- <-]. right. split; [discriminate | reflexivity].
    + intros [= <- <-]. right. split; [discriminate | reflexivity].
Qed.

Lemma sequenceInsertAt_extends (root : addr) (tok : string) (n : Node)
  (h h' : heap) (out : result unit) :
  sequenceInsertAt root tok n h = (h', out) ->
  extends h h' /\ (out <> Ok tt -> h' = h).
Proof.
  intros H. apply sequenceInsertAt_inv in H
    as [(-> & r & c' & Hr & Hsub & ->) | (Hout & ->)].
  - split; [|intros E; now contradiction E].
    apply (extends_trans _ (h ++ [n])); [apply extends_app|].
    apply (extends_store _ _ r).
    + rewrite lookup_app_l; [assumption | now apply lookup_lt_Some in Hr].
    + now apply kept_with_Content.
  - split; [apply extends_refl | reflexivity].
Qed.

(** The branches of [sequenceInsert] when tokens follow. *)
Lemma insert_sequence_step (h h1 : heap) (root next0 : addr)
  (next : list addr) (r m value : Node) (tok tok1 : string)
  (rest : list string) :
  h !! root = Some r -> Kind r = SequenceNode ->
  match_ root tok h = (h1, Ok (next0 :: next)) ->
  h1 !! next0 = Some m ->
  insert root (tok :: tok1 :: rest) value h =
  if Kind_eqb (Kind m) ScalarNode then
    bind (sequenceInsertAt root tok
            (mkNode MappingNode "!!map" "" [S (length h1); S (S (length h1))] 0 0))
      (fun _ => insert (length h1) (tok1 :: rest) value)
      (h1 ++ [mkNode MappingNode "!!map" "" [S (length h1); S (S (length h1))] 0 0;
              node_lit ScalarNode "!!str" tok1; node_lit MappingNode "!!map" ""])
  else insert next0 (tok1 :: rest) value h1.
Proof.
  intros Hr Hk Hm Hn.
  rewrite (insert_cons _ _ _ _ _ _ Hr), Hk. unfold sequenceInsert.
  rewrite bind_unfold, Hm. rewrite (bind_ok _ _ _ _ _ (load_ok _ _ _ Hn)).
  destruct (Kind_eqb (Kind m) ScalarNode); cbn [negb]; [|reflexivity].
  apply (synthesize_steps h1 root tok tok1
           (fun pn => insert pn (tok1 :: rest) value)).
Qed.

(** An insertion into the mapping [{tok1: {}}] that [sequenceInsert] has
    just built does not fail. *)
Lemma insert_synthesized_ok (h3 : heap) (pn pk pv : addr) (tok1 : string)
  (rest : list string) (value : Node) :
  h3 !! pn = Some (mkNode MappingNode "!!map" "" [pk; pv] 0 0) ->
  h3 !! pk = Some (node_lit ScalarNode "!!str" tok1) ->
  h3 !! pv = Some (node_lit MappingNode "!!map" "") ->
  exists h', insert pn (tok1 :: rest) value h3 = (h', Ok tt).
Proof.
  intros Hpn Hpk Hpv.
  rewrite (insert_existing_step h3 pn pv _ tok1 rest value Hpn eq_refl eq_refl).
  - destruct rest as [|tok2 rest].
    + rewrite (insert_nil _ _ _ _ Hpv). cbn.
      destruct (Kind_eqb (Kind value) MappingNode); eexists; reflexivity.
    + destruct (insert_fresh_mapping (tok2 :: rest) h3 pv _ value
                  ltac:(discriminate) Hpv eq_refl eq_refl)
        as (h' & p & Hins & _).
      now exists h'.
  - cbn [lookup_pairs Content]. rewrite Hpk. cbn [Value node_lit].
    now rewrite String.eqb_refl.
Qed.

Lemma extends_appended (h : heap) (r : addr) (n k x : Node) (c : list addr) :
  h !! r = Some n ->
  extends h (<[r := with_Content n (Content n ++ c)]> (h ++ [k; x])).
Proof.
  intros Hr. apply (extends_trans _ (h ++ [k; x])); [apply extends_app|].
  apply (extends_store _ _ n).
  - rewrite lookup_app_l; [assumption | now apply lookup_lt_Some in Hr].
  - apply kept_with_Content. now apply sublist_inserts_r.
Qed.

(** What [insert] does to the store: every node is kept, and when [insert]
    does not succeed no cell is written. *)
Lemma insert_effect (toks : list string) :
  forall (root : addr) (value : Node) (h h' : heap) (out : result unit),
    insert root toks value h = (h', out) ->
    extends h h' /\ (out <> Ok tt -> exists ext, h' = h ++ ext).
Proof.
  assert (Hsame : forall (h h' : heap) (out o : result unit),
            o <> Ok tt -> (h, o) = (h', out) ->
            extends h h' /\ (out <> Ok tt -> exists ext, h' = h ++ ext)).
  { intros h h' out o _ [= <- _]. split; [apply extends_refl|].
    intros _. exists []. now rewrite app_nil_r. }
  assert (Hext : forall (h : heap) ext (h' : heap) (out : result unit),
            extends (h ++ ext) h'
            /\ (out <> Ok tt -> exists ext', h' = (h ++ ext) ++ ext') ->
            extends h h' /\ (out <> Ok tt -> exists ext', h' = h ++ ext')).
  { intros h ext h' out [He Hp]. split.
    - eapply extends_trans; [apply extends_app | exact He].
    - intros Hne. destruct (Hp Hne) as [ext' ->]. exists (ext ++ ext').
      now rewrite app_assoc. }
  induction toks as [|tok rest IH]; intros root value h h' out H.
  - destruct (h !! root) as [r|] eqn:Hr.
    + rewrite (insert_nil _ _ _ _ Hr) in H.
      destruct (Kind_eqb (Kind r) MappingNode) eqn:Ek;
        [|eapply Hsame; [|exact H]; discriminate].
      destruct (Kind_eqb (Kind value) MappingNode).
      { injection H as <- <-. split; [|intros E; now contradiction E].
        apply (extends_store _ _ r); [assumption|].
        apply kept_with_Content. now apply sublist_inserts_r. }
      destruct (Nat.eqb_spec (length (Content r)) 0) as [Hlen|Hlen];
        [|eapply Hsame; [|exact H]; discriminate].
      injection H as <- <-. split; [|intros E; now contradiction E].
      apply (extends_store _ _ r); [assumption|].
      apply Kind_eqb_eq in Ek. apply length_zero_iff_nil in Hlen.
      split; [rewrite Hlen; apply sublist_nil_l | now left].
    + cbn [insert] in H. unfold bind, load in H. rewrite Hr in H.
      eapply Hsame; [|exact H]; discriminate.
  - destruct (h !! root) as [r|] eqn:Hr.
    2:{ cbn [insert] in H. unfold bind, load in H. rewrite Hr in H.
        eapply Hsame; [|exact H]; discriminate. }
    destruct (match_ root tok h) as [h1 mres] eqn:Hm.
    pose proof (match_fuel_frame _ _ _ _ _ _ Hm) as (ext1 & -> & _ & _).
    destruct (Kind r) eqn:Hk;
      try (rewrite (insert_cons _ _ _ _ _ _ Hr), Hk in H;
           eapply Hsame; [|exact H]; discriminate).
    + (* a sequence *)
      destruct mres as [next|e|p].
      2, 3: rewrite (insert_cons _ _ _ _ _ _ Hr), Hk in H;
        unfold sequenceInsert in H; rewrite bind_unfold, Hm in H;
        apply (Hext _ ext1); (eapply Hsame; [|exact H]); discriminate.
      destruct rest as [|tok1 rest].
      { rewrite (insert_cons _ _ _ _ _ _ Hr), Hk in H.
        unfold sequenceInsert in H. rewrite bind_unfold, Hm in H.
        apply sequenceInsertAt_extends in H as [He Hp]. apply (Hext _ ext1).
        split; [assumption|]. intros Hne. rewrite (Hp Hne).
        exists []. now rewrite app_nil_r. }
      destruct next as [|next0 next].
      { rewrite (insert_cons _ _ _ _ _ _ Hr), Hk in H.
        unfold sequenceInsert in H. rewrite bind_unfold, Hm in H.
        apply (Hext _ ext1); eapply Hsame; [|exact H]; discriminate. }
      destruct ((h ++ ext1) !! next0) as [m|] eqn:Hn.
      2:{ rewrite (insert_cons _ _ _ _ _ _ Hr), Hk in H.
          unfold sequenceInsert in H. rewrite bind_unfold, Hm in H.
          unfold bind, load in H. rewrite Hn in H.
          apply (Hext _ ext1); eapply Hsame; [|exact H]; discriminate. }
      rewrite (insert_sequence_step _ _ _ _ _ _ _ _ _ _ _ Hr Hk Hm Hn) in H.
      destruct (Kind_eqb (Kind m) ScalarNode).
      2:{ apply (Hext _ ext1). now apply IH in H. }
      rewrite bind_unfold in H.
      set (pn := length (h ++ ext1)) in *.
      set (n := mkNode MappingNode "!!map" "" [S pn; S (S pn)] 0 0) in *.
      set (h2 := (h ++ ext1) ++ [n; node_lit ScalarNode "!!str" tok1;
                                  node_lit MappingNode "!!map" ""]) in *.
      assert (H2 : exists ext2, h2 = h ++ ext2).
      { eexists. unfold h2. now rewrite <- app_assoc. }
      destruct H2 as [ext2 Hh2].
      destruct (sequenceInsertAt root tok n h2) as [h3 sres] eqn:Hs.
      apply sequenceInsertAt_inv in Hs
        as [(-> & r2 & c' & Hr2 & Hsub & Hh3) | (Hne & ->)].
      2:{ rewrite Hh2 in H. destruct sres as [[]| |];
            [now contradiction Hne | |];
            apply (Hext _ ext2); (eapply Hsame; [|exact H]); discriminate. }
      pose proof (lookup_lt_Some _ _ _ Hr) as Hlt.
      assert (Hpn_lt : length h <= pn) by (unfold pn; rewrite length_app; lia).
      assert (Hcell : forall j x, j < 3 ->
                [n; node_lit ScalarNode "!!str" tok1;
                 node_lit MappingNode "!!map" ""] !! j = Some x ->
                h3 !! (pn + j) = Some x).
      { intros j x Hj Hx. rewrite Hh3.
        rewrite list_lookup_insert_ne by lia.
        rewrite lookup_app_l
          by (unfold h2; rewrite length_app; fold pn; cbn [length]; lia).
        unfold h2. rewrite lookup_app_r by (fold pn; lia). fold pn.
        now replace (pn + j - pn) with j by lia. }
      pose proof (Hcell 0 _ ltac:(lia) eq_refl) as Hpn.
      pose proof (Hcell 1 _ ltac:(lia) eq_refl) as Hpk.
      pose proof (Hcell 2 _ ltac:(lia) eq_refl) as Hpv.
      rewrite Nat.add_0_r in Hpn.
      replace (pn + 1) with (S pn) in Hpk by lia.
      replace (pn + 2) with (S (S pn)) in Hpv by lia.
      destruct (insert_synthesized_ok h3 pn (S pn) (S (S pn)) tok1 rest value
                  Hpn Hpk Hpv) as [h'' Hok].
      rewrite Hok in H. injection H as <- <-.
      split; [|intros E; now contradiction E].
      apply IH in Hok as [He _].
      apply (extends_trans _ h2); [rewrite Hh2; apply extends_app|].
      apply (extends_trans _ h3); [|assumption].
      rewrite Hh3. apply (extends_trans _ (h2 ++ [n])); [apply extends_app|].
      apply (extends_store _ _ r2); [|now apply kept_with_Content].
      rewrite lookup_app_l; [assumption | now apply lookup_lt_Some in Hr2].
    + (* a mapping *)
      rewrite (match_at_Mapping _ _ _ _ Hr Hk) in Hm.
      destruct (Nat.odd (length (Content r))) eqn:Hodd.
      { injection Hm as Hh <-.
        rewrite (insert_cons _ _ _ _ _ _ Hr), Hk in H.
        unfold mapInsert, attempt in H. rewrite bind_unfold in H.
        rewrite (match_at_Mapping _ _ _ _ Hr Hk), Hodd in H.
        eapply Hsame; [|exact H]; discriminate. }
      destruct mres as [next|e|p].
      * apply match_pairs_inv_ok in Hm
          as (Hh & pre & k & v & post & Hc & -> & _ & _ & _ & Hl).
        rewrite (insert_existing_step _ _ _ _ _ _ _ Hr Hk Hodd Hl) in H.
        now apply IH in H.
      * apply match_pairs_inv_err in Hm as (Hh & -> & Hev & Hall & _).
        rewrite (insert_cons _ _ _ _ _ _ Hr), Hk in H.
        rewrite (mapInsert_append _ _ _ _ _ _ _ Hr Hk Hodd Hall) in H.
        cbv zeta in H. destruct rest as [|tok1 rest].
        { injection H as <- <-. split; [|intros E; now contradiction E].
          now apply extends_appended. }
        destruct (appended_heap_facts h root r (node_lit ScalarNode "" tok)
                    (node_lit MappingNode "!!map" "")
                    (Content r ++ [length h; S (length h)]) Hr)
          as (_ & _ & H3x & _ & _).
        destruct (insert_fresh_mapping (tok1 :: rest) _ (S (length h)) _ value
                    ltac:(discriminate) H3x eq_refl eq_refl)
          as (h'' & p & Hins & _).
        rewrite Hins in H. injection H as <- <-.
        split; [|intros E; now contradiction E].
        apply IH in Hins as [He _].
        eapply extends_trans; [|exact He]. now apply extends_appended.
      * rewrite (insert_cons _ _ _ _ _ _ Hr), Hk in H.
        unfold mapInsert, attempt in H. rewrite bind_unfold in H.
        rewrite (match_at_Mapping _ _ _ _ Hr Hk), Hodd, Hm in H.
        apply (Hext _ ext1). eapply Hsame; [|exact H]; discriminate.
Qed.

(** ** Further properties: [Insert] *)

(** [Insert] is [insert] from the node and with the value it starts with,
    or it stops before, with the store as it is. *)
Lemma Insert_cases (root : addr) (ptr : string) (value : Node) (h h' : heap)
  (out : result unit) :
  Insert root ptr value h = (h', out) ->
  (h' = h /\ out <> Ok tt)
  \/ exists toks start v,
       jsonPointerToTokens ptr = Ok toks
       /\ insert_root h root = Some start
       /\ insert_value h value = Some v
       /\ insert start toks v h = (h', out).
Proof.
  intros H.
  destruct (jsonPointerToTokens ptr) as [toks|e|p] eqn:Ht.
  2, 3: unfold Insert, lift in H; rewrite bind_unfold, Ht in H;
    injection H as <- <-; left; split; [reflexivity | discriminate].
  destruct (insert_value h value) as [v|] eqn:Hv.
  - destruct (insert_root h root) as [start|] eqn:Hs.
    + rewrite (Insert_unfold _ _ _ _ _ _ _ Ht Hv Hs) in H.
      right. now exists toks, start, v.
    + left. unfold Insert, lift in H. rewrite bind_unfold, Ht in H.
      unfold insert_value in Hv. unfold insert_root in Hs.
      assert (Hval : exists v', (if Kind_eqb (Kind value) DocumentNode
                       then match Content value with
                            | [] => crash IndexOutOfRange
                            | c0 :: _ => load c0
                            end
                       else ret value) h = (h, Ok v')).
      { destruct (Kind_eqb (Kind value) DocumentNode); [|now exists value].
        destruct (Content value) as [|c0 cs]; [discriminate|].
        exists v. now apply load_ok. }
      destruct Hval as [v' Hval]. rewrite (bind_ok _ _ _ _ _ Hval) in H.
      unfold bind, load in H. destruct (h !! root) as [n|].
      * destruct (Kind_eqb (Kind n) DocumentNode); [|discriminate].
        destruct (Content n); [|discriminate].
        injection H as <- <-. split; [reflexivity | discriminate].
      * injection H as <- <-. split; [reflexivity | discriminate].
  - left. unfold Insert, lift in H. rewrite bind_unfold, Ht in H.
    unfold insert_value in Hv.
    destruct (Kind_eqb (Kind value) DocumentNode); [|discriminate].
    destruct (Content value) as [|c0 cs].
    + injection H as <- <-. split; [reflexivity | discriminate].
    + unfold bind, load in H. rewrite Hv in H.
      injection H as <- <-. split; [reflexivity | discriminate].
Qed.

Lemma Insert_effect (root : addr) (ptr : string) (value : Node) (h h' : heap)
  (out : result unit) :
  Insert root ptr value h = (h', out) ->
  extends h h' /\ (out <> Ok tt -> exists ext, h' = h ++ ext).
Proof.
  intros H. apply Insert_cases in H
    as [[-> Hne] | (toks & start & v & _ & _ & _ & H)].
  - split; [apply extends_refl|]. intros _. exists []. now rewrite app_nil_r.
  - now apply insert_effect in H.
Qed.

(** X15.  An [Insert] that does not succeed (it returns an error, or
    faults) has written no node: the store after it is the store before,
    followed by the cells it has allocated. *)
Theorem Insert_atomic (root : addr) (ptr : string) (value : Node)
  (h h' : heap) (out : result unit) :
  Insert root ptr value h = (h', out) ->
  out <> Ok tt ->
  exists ext, h' = h ++ ext.
Proof. intros H. now apply Insert_effect in H. Qed.

(** X16.  [Insert] removes nothing.  Whatever it returns, every node of the
    store is still there after it, with the children it had, in the same
    order (new children may stand between them or after them), and with its
    kind, tag, value and position, unless it was a Mapping with no content,
    which [Insert] may overwrite with the value. *)
Theorem Insert_keeps (root : addr) (ptr : string) (value : Node)
  (h h' : heap) (out : result unit) :
  Insert root ptr value h = (h', out) ->
  extends h h' /\ length h <= length h'.
Proof.
  intros H. apply Insert_effect in H as [He _]. split; [assumption|].
  destruct (Nat.eq_dec (length h) 0) as [E|E]; [lia|].
  destruct (lookup_lt_is_Some_2 h (pred (length h))) as [n Hn]; [lia|].
  destruct (He _ _ Hn) as (n' & Hn' & _). apply lookup_lt_Some in Hn'. lia.
Qed.

(** X17.  [Insert] skips one document node, where the lookup skips them
    all.  From a document node whose first child is not a document node,
    [Insert] does what it does from that child.  When the first child is a
    document node as well, [Insert] stops at it: with the cannot-insert
    error for the empty pointer, with the unhandled-node-type error for
    every other pointer; the store is unchanged. *)
Theorem Insert_document (h : heap) (root c0 : addr) (cs : list addr)
  (r m : Node) (ptr : string) (value : Node) :
  h !! root = Some r ->
  Kind r = DocumentNode ->
  Content r = c0 :: cs ->
  h !! c0 = Some m ->
  (Kind m <> DocumentNode -> Insert root ptr value h = Insert c0 ptr value h)
  /\ (Kind m = DocumentNode ->
      forall toks v,
        jsonPointerToTokens ptr = Ok toks ->
        insert_value h value = Some v ->
        Insert root ptr value h
        = (h, Err match toks with
                  | [] => CannotInsert (Kind v) (Tag v) DocumentNode (Tag m)
                  | _ :: _ => UnhandledNodeType DocumentNode (Tag m)
                  end)).
Proof.
  intros Hr Hk Hc Hm.
  assert (Hroot : insert_root h root = Some c0).
  { unfold insert_root. now rewrite Hr, Hk, Hc. }
  split.
  - intros Hnd.
    assert (Hc0 : insert_root h c0 = Some c0).
    { unfold insert_root. rewrite Hm. apply Kind_eqb_neq in Hnd. now rewrite Hnd. }
    destruct (jsonPointerToTokens ptr) as [toks|e|p] eqn:Ht.
    + destruct (insert_value h value) as [v|] eqn:Hv.
      * rewrite (Insert_unfold _ _ _ _ _ _ _ Ht Hv Hroot).
        now rewrite (Insert_unfold _ _ _ _ _ _ _ Ht Hv Hc0).
      * unfold Insert, lift. rewrite !bind_unfold, Ht.
        unfold insert_value in Hv.
        destruct (Kind_eqb (Kind value) DocumentNode); [|discriminate].
        destruct (Content value) as [|v0 vs]; [reflexivity|].
        unfold bind, load. now rewrite Hv.
    + unfold Insert, lift. now rewrite !bind_unfold, Ht.
    + unfold Insert, lift. now rewrite !bind_unfold, Ht.
  - intros Hd toks v Ht Hv.
    rewrite (Insert_unfold _ _ _ _ _ _ _ Ht Hv Hroot).
    destruct toks as [|tok rest].
    + rewrite (insert_nil _ _ _ _ Hm), Hd. reflexivity.
    + rewrite (insert_cons _ _ _ _ _ _ Hm), Hd. reflexivity.
Qed.

(** ** Further properties: a token with several matches *)

Lemma find_loop_all (f : addr -> M (list addr)) (found : addr -> list addr)
  (h : heap) (next res : list addr) :
  (forall n, In n next -> f n h = (h, Ok (found n))) ->
  find_loop f res next h = (h, Ok (res ++ concat (map found next))).
Proof.
  revert res. induction next as [|n next IH]; intros res Hall.
  - cbn. now rewrite app_nil_r.
  - cbn [find_loop map concat]. rewrite bind_unfold, (Hall n) by now left.
    rewrite IH by (intros x Hx; apply Hall; now right).
    now rewrite app_assoc.
Qed.

Lemma find_loop_stops (f : addr -> M (list addr))
  (found : addr -> list addr) (h h1 : heap) (pre post res : list addr)
  (n : addr) (out : result (list addr)) :
  (forall x, In x pre -> f x h = (h, Ok (found x))) ->
  f n h = (h1, out) ->
  (forall l, out <> Ok l) ->
  find_loop f res (pre ++ n :: post) h = (h1, out).
Proof.
  revert res. induction pre as [|x pre IH]; intros res Hall Hn Hbad.
  - cbn [app find_loop]. rewrite bind_unfold, Hn.
    destruct out as [l| |]; [now contradiction (Hbad l) | reflexivity ..].
  - cbn [app find_loop]. rewrite bind_unfold, (Hall x) by now left.
    apply IH; [|assumption ..]. intros y Hy. apply Hall. now right.
Qed.

(** X18.  [find] after a token with several matches (a predicate token).
    When the rest of the tokens resolves from each match, the result is the
    results of the matches one after the other, in the order of the
    matches.  When it does not resolve from one of them, the lookup as a
    whole fails, with the error of the first match that fails: the results
    of the other matches are dropped. *)
Theorem find_fanout (h : heap) (root : addr) (tok : string)
  (rest : list string) (next : list addr) :
  match_ root tok h = (h, Ok next) ->
  rest <> [] ->
  (forall found : addr -> list addr,
     (forall n, In n next -> find n rest h = (h, Ok (found n))) ->
     find root (tok :: rest) h = (h, Ok (concat (map found next))))
  /\ (forall (found : addr -> list addr) pre n post h1 e,
        next = pre ++ n :: post ->
        (forall x, In x pre -> find x rest h = (h, Ok (found x))) ->
        find n rest h = (h1, Err e) ->
        find root (tok :: rest) h = (h1, Err e)).
Proof.
  intros Hm Hne. destruct rest as [|tok1 rest]; [contradiction|]. split.
  - intros found Hall. cbn [find]. rewrite bind_unfold, Hm.
    now rewrite (find_loop_all _ found).
  - intros found pre n post h1 e -> Hall Hn. cbn [find].
    rewrite bind_unfold, Hm.
    apply (find_loop_stops _ found); [assumption | assumption | discriminate].
Qed.

(** ** Further properties: after the insertion of a new key *)

Lemma insert_map_step (h : heap) (a b : addr) (r : Node) (tok : string)
  (toks : list string) (next : list addr) (value : Node) :
  h !! a = Some r -> Kind r = MappingNode ->
  match_ a tok h = (h, Ok (b :: next)) ->
  insert a (tok :: toks) value h = insert b toks value h.
Proof.
  intros Ha Hk Hm. rewrite (insert_cons _ _ _ _ _ _ Ha), Hk.
  unfold mapInsert, attempt. now rewrite bind_unfold, Hm.
Qed.

Lemma lookup_pairs_app (h : heap) (tok : string) (c extra : list addr)
  (v : addr) :
  lookup_pairs h tok c = Some v -> lookup_pairs h tok (c ++ extra) = Some v.
Proof.
  induction c as [|x|k w c IH] using list_pair_ind;
    cbn [lookup_pairs app]; try discriminate.
  destruct (h !! k) as [key|]; [|discriminate].
  destruct (String.eqb tok (Value key)); [trivial | assumption].
Qed.

Lemma lookup_pairs_transport (h h' : heap) (tok : string) (c : list addr)
  (v : addr) :
  lookup_pairs h tok c = Some v ->
  (forall a key, h !! a = Some key ->
     exists key', h' !! a = Some key' /\ Value key' = Value key) ->
  lookup_pairs h' tok c = Some v.
Proof.
  intros Hl Hto. induction c as [|x|k w c IH] using list_pair_ind;
    cbn [lookup_pairs] in *; try discriminate.
  destruct (h !! k) as [key|] eqn:Hk; [|discriminate].
  destruct (Hto _ _ Hk) as (key' & -> & ->).
  destruct (String.eqb tok (Value key)); [assumption | now apply IH].
Qed.

(** The store after the insertion of a new pair into the mapping [r]. *)
Lemma appended_values (h h' : heap) (r : addr) (n : Node) (c : list addr) :
  h !! r = Some n ->
  unchanged_outside [r] h h' ->
  h' !! r = Some (with_Content n c) ->
  forall a key, h !! a = Some key ->
    exists key', h' !! a = Some key' /\ Value key' = Value key.
Proof.
  intros Hr [_ Hout] Hr' a key Ha. destruct (Nat.eq_dec a r) as [->|Hne].
  - assert (key = n) as -> by congruence.
    exists (with_Content n c). now split.
  - exists key. split; [|reflexivity]. apply Hout; [assumption|].
    intros [E|[]]. congruence.
Qed.

(** X19.  A second insertion at a key that an insertion has made: the
    first made the pair of the key and the value, and the second goes on at
    that value.  When both values are Mappings, the pairs of the second are
    appended to the first; a second value that is not a Mapping is refused
    with the cannot-insert error, unless the first value is a Mapping with
    no content, and so is a Mapping after a first value that is not one:
    inserting the same scalar twice fails the second time. *)
Theorem insert_again (h : heap) (r : addr) (n value value2 : Node)
  (tok : string) :
  h !! r = Some n ->
  Kind n = MappingNode ->
  Nat.odd (length (Content n)) = false ->
  Forall (key_differs h tok) (pairs (Content n)) ->
  exists h1,
    insert r [tok] value h = (h1, Ok tt)
    /\ h1 !! S (length h) = Some value
    /\ (Kind value = MappingNode -> Kind value2 = MappingNode ->
          insert r [tok] value2 h1
          = (<[S (length h) :=
                 with_Content value (Content value ++ Content value2)]> h1,
             Ok tt))
    /\ (~ (Kind value = MappingNode
           /\ (Kind value2 = MappingNode \/ Content value = [])) ->
          insert r [tok] value2 h1
          = (h1, Err (CannotInsert (Kind value2) (Tag value2)
                        (Kind value) (Tag value)))).
Proof.
  intros Hr Hk Hodd Hall.
  pose proof (lookup_lt_Some _ _ _ Hr) as Hlt.
  rewrite (insert_cons _ _ _ _ _ _ Hr), Hk.
  rewrite (mapInsert_append _ _ _ _ _ _ _ Hr Hk Hodd Hall). cbv zeta.
  destruct (appended_heap_facts h r n (node_lit ScalarNode "" tok) value
              (Content n ++ [length h; S (length h)]) Hr)
    as (H3r & H3k & H3x & H3out & H3len).
  set (h1 := <[r := with_Content n (Content n ++ [length h; S (length h)])]>
               (h ++ [node_lit ScalarNode "" tok; value])) in *.
  exists h1. split; [reflexivity|]. split; [assumption|].
  assert (Hm : match_ r tok h1 = (h1, Ok [S (length h)])).
  { apply (match_appended_key h1 r (length h) (S (length h)) n
             (node_lit ScalarNode "" tok)); try assumption; try reflexivity.
    apply (key_differs_transport h); [assumption|].
    exact (appended_values h h1 r n _ Hr H3out H3r). }
  assert (Hstep : insert r [tok] value2 h1 = insert (S (length h)) [] value2 h1).
  { exact (insert_map_step h1 r (S (length h)) _ tok [] [] value2 H3r Hk Hm). }
  rewrite Hstep, (insert_nil _ _ _ _ H3x). split.
  - intros -> ->. reflexivity.
  - intros Hnot.
    destruct (Kind_eqb (Kind value) MappingNode) eqn:Ev; [|reflexivity].
    apply Kind_eqb_eq in Ev.
    destruct (Kind_eqb (Kind value2) MappingNode) eqn:Ev2.
    { apply Kind_eqb_eq in Ev2. tauto. }
    destruct (Content value) eqn:Ec; [tauto | reflexivity].
Qed.

(** X20.  The insertion of a new key leaves the other keys as they are: a
    token that was a key of the Mapping before the insertion is matched to
    the same node after it. *)
Theorem insert_missing_key_frame (h h' : heap) (r c : addr) (n value : Node)
  (tok tok0 : string) (rest : list string) :
  h !! r = Some n ->
  Kind n = MappingNode ->
  Nat.odd (length (Content n)) = false ->
  Forall (key_differs h tok) (pairs (Content n)) ->
  insert r (tok :: rest) value h = (h', Ok tt) ->
  lookup_pairs h tok0 (Content n) = Some c ->
  match_ r tok0 h = (h, Ok [c])
  /\ match_ r tok0 h' = (h', Ok [c]).
Proof.
  intros Hr Hk Hodd Hall Hins Hl.
  destruct (insert_missing_effect h r n value tok rest Hr Hk Hodd Hall)
    as (h'' & Hins' & Hout & Hr').
  assert (h'' = h') as -> by congruence.
  split.
  - rewrite (match_at_Mapping _ _ _ _ Hr Hk), Hodd.
    now apply match_pairs_lookup.
  - rewrite (match_at_Mapping _ _ _ _ Hr' Hk). cbn [with_Content Content].
    rewrite length_app, Nat.odd_add, Hodd. cbn [length Nat.odd negb xorb].
    apply match_pairs_lookup, lookup_pairs_app.
    apply (lookup_pairs_transport h); [assumption|].
    exact (appended_values h h' r n _ Hr Hout Hr').
Qed.

(** ** Further properties: where the nodes of a lookup are *)

Lemma below_trans (h : heap) (a b c : addr) :
  below h a b -> below h b c -> below h a c.
Proof.
  intros Hab Hbc. induction Hab as [a b n Ha Hin | a x b n Ha Hin Hxb IH].
  - now apply (below_step h a b c n).
  - apply (below_step h a x c n); auto.
Qed.

Lemma closed_lookup (h : heap) (a c : addr) (n : Node) :
  closed h -> h !! a = Some n -> In c (Content n) -> c < length h.
Proof.
  intros Hcl Ha Hin. unfold closed in Hcl.
  rewrite Forall_lookup in Hcl. specialize (Hcl _ _ Ha).
  rewrite Forall_forall in Hcl. apply Hcl. now apply list_elem_of_In.
Qed.

Lemma below_valid (h : heap) (a c : addr) :
  closed h -> below h a c -> c < length h.
Proof.
  intros Hcl Hb. induction Hb as [a c n Ha Hin | a x c n Ha Hin Hxc IH];
    [now apply (closed_lookup h a c n) | assumption].
Qed.

Lemma below_app_inv (h ext : heap) (a c : addr) :
  closed h -> a < length h -> below (h ++ ext) a c -> below h a c.
Proof.
  intros Hcl Ha Hb. induction Hb as [a c n Hn Hin | a x c n Hn Hin Hxc IH].
  - rewrite lookup_app_l in Hn by assumption. now apply (below_child h a c n).
  - rewrite lookup_app_l in Hn by assumption.
    apply (below_step h a x c n); [assumption ..|].
    apply IH. now apply (closed_lookup h a x n).
Qed.

Lemma closed_dummies (h ext : heap) :
  closed h -> dummies ext -> closed (h ++ ext).
Proof.
  intros Hcl Hd. unfold closed. apply Forall_app. split.
  - eapply Forall_impl; [exact Hcl|]. intros n Hn.
    eapply Forall_impl; [exact Hn|]. intros c Hc. rewrite length_app. cbn in *. lia.
  - eapply Forall_impl; [exact Hd|]. intros n ->. constructor.
Qed.

Lemma match_pairs_in (tok : string) (c : list addr) (h h' : heap)
  (res : list addr) :
  match_pairs tok c h = (h', Ok res) -> Forall (fun p => In p c) res.
Proof.
  intros H. apply match_pairs_ok in H as (_ & v & -> & Hin).
  now repeat constructor.
Qed.

(** The nodes [match] returns at a Sequence or a Mapping are children of
    the node, or the dummy it has made. *)
Lemma match_children (a : addr) (tok : string) (h h' : heap) (r : Node)
  (res : list addr) :
  h !! a = Some r ->
  Kind r = SequenceNode \/ Kind r = MappingNode ->
  match_ a tok h = (h', Ok res) ->
  Forall (fun p => In p (Content r)
                   \/ (length h <= p
                       /\ h' !! p = Some (node_lit ScalarNode "" ""))) res.
Proof.
  intros Hr [Hk | Hk].
  - rewrite (match_at_Sequence _ _ _ _ Hr Hk).
    destruct (HasPrefix tok "~{").
    { destruct (Unmarshal (tail1 tok)); [|discriminate].
      intros [= <- <-]. apply Forall_forall. intros p Hp. left.
      apply list_elem_of_In in Hp. now apply filter_In in Hp. }
    destruct (String.eqb tok "-").
    { intros [= <- <-]. constructor; [|constructor]. right. split; [lia|].
      rewrite lookup_app_r by lia. now rewrite Nat.sub_diag. }
    destruct (Atoi tok) as [i|]; [|discriminate].
    destruct ((_ <? _)%Z || _); [discriminate|].
    intros [= <- <-]. apply Forall_forall. intros p Hp. left.
    apply list_elem_of_In.
    now apply (subseteq_drop (Z.to_nat i)), (subseteq_take 1).
  - rewrite (match_at_Mapping _ _ _ _ Hr Hk).
    destruct (Nat.odd _); [discriminate|]. intros H.
    apply match_pairs_ok in H as (_ & v & -> & Hin).
    constructor; [now left | constructor].
Qed.

(** The nodes [match] returns are below the node it is given, or the dummy
    it has made. *)
Lemma match_fuel_below (fuel : nat) (a : addr) (tok : string) (h h' : heap)
  (res : list addr) :
  match_fuel fuel a tok h = (h', Ok res) ->
  Forall (fun p => below h a p
                   \/ (length h <= p
                       /\ h' !! p = Some (node_lit ScalarNode "" ""))) res.
Proof.
  revert a. induction fuel as [fuel IH] using lt_wf_ind. intros a H.
  destruct (h !! a) as [r|] eqn:Hr.
  2:{ rewrite match_fuel_unfold in H. unfold bind, load in H.
      now rewrite Hr in H. }
  destruct (Kind r) eqn:Hk.
  1, 5, 6: rewrite match_fuel_unfold in H; unfold bind, load in H;
    rewrite Hr in H; cbv zeta in H; rewrite Hk in H; discriminate.
  - (* a document *)
    destruct (Content r) as [|c0 cs] eqn:Hc.
    { rewrite match_fuel_unfold in H. unfold bind, load in H.
      rewrite Hr in H. cbv zeta in H. now rewrite Hk, Hc in H. }
    destruct fuel as [|fuel].
    { rewrite match_fuel_unfold in H. unfold bind, load in H.
      rewrite Hr in H. cbv zeta in H. now rewrite Hk, Hc in H. }
    rewrite (match_Document_step _ _ _ _ _ _ _ Hr Hk Hc) in H.
    apply IH in H; [|lia].
    eapply Forall_impl; [exact H|]. intros p [Hb | Hd]; [left | now right].
    apply (below_step h a c0 p r); [assumption | rewrite Hc; now left | assumption].
  - (* a sequence *)
    assert (Hm : match_ a tok h = (h', Ok res)).
    { unfold match_. rewrite <- H. rewrite !match_fuel_unfold.
      unfold bind, load. rewrite Hr. cbv zeta. now rewrite Hk. }
    apply (match_children _ _ _ _ _ _ Hr (or_introl Hk)) in Hm.
    eapply Forall_impl; [exact Hm|]. intros p [Hin | Hd]; [left | now right].
    now apply (below_child h a p r).
  - (* a mapping *)
    assert (Hm : match_ a tok h = (h', Ok res)).
    { unfold match_. rewrite <- H. rewrite !match_fuel_unfold.
      unfold bind, load. rewrite Hr. cbv zeta. now rewrite Hk. }
    apply (match_children _ _ _ _ _ _ Hr (or_intror Hk)) in Hm.
    eapply Forall_impl; [exact Hm|]. intros p [Hin | Hd]; [left | now right].
    now apply (below_child h a p r).
Qed.

Lemma below_dummy (h : heap) (a c : addr) :
  h !! a = Some (node_lit ScalarNode "" "") -> ~ below h a c.
Proof.
  intros Ha Hb. destruct Hb as [a c n Hn Hin | a x c n Hn Hin _];
    rewrite Ha in Hn; injection Hn as <-; contradiction Hin.
Qed.

Lemma lookup_app_Some (h ext : heap) (p : addr) (n : Node) :
  h !! p = Some n -> (h ++ ext) !! p = Some n.
Proof.
  intros H. rewrite lookup_app_l; [assumption | now apply lookup_lt_Some in H].
Qed.

(** The nodes [find] returns are below the node it is given, or dummies it
    has made. *)
Lemma find_below (toks : list string) :
  forall (root : addr) (h h' : heap) (res : list addr),
    closed h ->
    find root toks h = (h', Ok res) ->
    Forall (fun p => below h root p
                     \/ (length h <= p
                         /\ h' !! p = Some (node_lit ScalarNode "" ""))) res.
Proof.
  induction toks as [|tok rest IH]; intros root h h' res Hcl H;
    [discriminate|].
  cbn [find] in H. apply bind_ok_inv in H as (next & h1 & Hm & H).
  pose proof (match_fuel_frame _ _ _ _ _ _ Hm) as (ext1 & -> & Hd1 & _).
  apply match_fuel_below in Hm.
  destruct rest as [|tok1 rest]; [now injection H as <- <-|].
  set (Q := fun (hx : heap) (p : addr) =>
              below h root p
              \/ (length h <= p /\ hx !! p = Some (node_lit ScalarNode "" ""))).
  assert (Qmono : forall hx ext p, Q hx p -> Q (hx ++ ext) p).
  { intros hx ext p [Hb | [Hle Hp]]; [now left | right].
    split; [assumption | now apply lookup_app_Some]. }
  assert (Hloop : forall next acc extc,
            dummies extc ->
            Forall (Q (h ++ extc)) next ->
            Forall (Q (h ++ extc)) acc ->
            find_loop (fun n => find n (tok1 :: rest)) acc next (h ++ extc)
            = (h', Ok res) ->
            Forall (Q h') res).
  { clear next Hm H. intros next.
    induction next as [|n next IHn]; intros acc extc Hdc Hnext Hacc H.
    - now injection H as <- <-.
    - cbn [find_loop] in H. apply bind_ok_inv in H as (found & h2 & Hf & H).
      pose proof (find_frame _ _ _ _ _ Hf) as (ext2 & -> & Hd2 & _).
      apply Forall_cons in Hnext as [Hn Hnext].
      apply IH in Hf; [|now apply closed_dummies].
      rewrite <- app_assoc in H. apply IHn in H; [assumption | | |].
      + now apply Forall_app.
      + rewrite app_assoc. eapply Forall_impl; [exact Hnext|].
        intros p. apply Qmono.
      + rewrite app_assoc. apply Forall_app. split.
        * eapply Forall_impl; [exact Hacc|]. intros p. apply Qmono.
        * eapply Forall_impl; [exact Hf|]. intros p [Hb | [Hle Hp]].
          -- destruct Hn as [Hroot | [_ Hdum]].
             ++ left. apply (below_trans h root n p); [assumption|].
                apply (below_app_inv h extc); [assumption | | assumption].
                now apply (below_valid h root n).
             ++ now apply below_dummy in Hb.
          -- right. split; [|assumption]. rewrite length_app in Hle. lia. }
  apply (Hloop next [] ext1 Hd1 Hm); [constructor | assumption].
Qed.

(** X21.  The nodes a lookup returns are nodes of the document.  In a store
    with no nil pointer, every node that [FindAll] returns, and the node
    that [Find] returns, is below the root it was given, or is a dummy
    scalar that the lookup has made for a token [-]. *)
Theorem lookup_below (root : addr) (ptr : string) (h : heap) :
  closed h ->
  (forall h' res, FindAll root ptr h = (h', Ok res) ->
     Forall (fun p => below h root p
                      \/ (length h <= p
                          /\ h' !! p = Some (node_lit ScalarNode "" ""))) res)
  /\ (forall h' p, Find root ptr h = (h', Ok p) ->
        below h root p
        \/ (length h <= p /\ h' !! p = Some (node_lit ScalarNode "" ""))).
Proof.
  intros Hcl.
  assert (HA : forall h' res, FindAll root ptr h = (h', Ok res) ->
     Forall (fun p => below h root p
                      \/ (length h <= p
                          /\ h' !! p = Some (node_lit ScalarNode "" ""))) res).
  { intros h' res HF.
    pose proof (FindAll_ok_nonempty _ _ _ _ _ HF) as Hne.
    destruct (jsonPointerToTokens ptr) as [toks|e|x] eqn:Ht.
    - rewrite (FindAll_unfold _ _ _ _ Hne Ht) in HF.
      destruct (find root toks h) as [h1 [r|e|x]] eqn:Hf; try discriminate.
      injection HF as <- <-. now apply (find_below toks).
    - unfold FindAll, lift in HF. destruct (String.eqb ptr ""); [discriminate|].
      now rewrite bind_unfold, Ht in HF.
    - unfold FindAll, lift in HF. destruct (String.eqb ptr ""); [discriminate|].
      now rewrite bind_unfold, Ht in HF. }
  split; [exact HA|]. intros h' p HF. apply Find_ok_inv in HF.
  apply HA in HF. now apply Forall_cons in HF as [HF _].
Qed.
End Properties.

(** * Worked examples *)

Lemma find_heap_shaped : exists fp, shaped find_heap 11 fp.
Proof. eexists. shaped_tac. Qed.

Lemma find_heap_int_sized : int_sized find_heap.
Proof. repeat constructor; apply Z.leb_le; reflexivity. Qed.



(** The empty pointer is outside C1 (amended): [Insert] takes it for the
    whole document and merges a mapping into the root, and [Find] refuses
    it. *)
Example insert_find_empty_pointer :
  snd (Insert parse_flow isTreeSubset_spec 11 "" mapping_q merge_heap) = Ok tt
  /\ resolved_pointer parse_flow isTreeSubset_spec merge_heap 11 "" = ""
  /\ forall h, Find parse_flow isTreeSubset_spec 11 "" h = (h, Err EmptyPointerError).
Proof. repeat split. Qed.

(** A document that is not a tree is outside C1 (amended) too.  In the store
    below, the mapping in cell 1 has cell 0 both as a key and as the value of
    that key (an empty mapping whose [Value] is [k]).  [Insert(/k, x)] finds
    the key, replaces the empty mapping in cell 0 by [x], and with it the
    key: [Find(/k)] no longer finds it. *)
Example insert_find_shared_node :
  let h := [mkNode MappingNode "!!map" "k" [] 0 0;
            mkNode MappingNode "!!map" "" [0; 0] 0 0] in
  let h' := [scalar_x; mkNode MappingNode "!!map" "" [0; 0] 0 0] in
  Insert parse_flow isTreeSubset_spec 1 "/k" scalar_x h = (h', Ok tt)
  /\ resolved_pointer parse_flow isTreeSubset_spec h 1 "/k" = "/k"
  /\ Find parse_flow isTreeSubset_spec 1 "/k" h'
     = (h', Err (Quoted "/k" (Quoted "k" ErrNotFound))).
Proof. repeat split. Qed.

(** C10 on [find_doc]: [/d] resolves to the sequence in cell 9, and [/d/-]
    returns cell 12, which the store of 12 cells did not have. *)
Lemma find_append_sentinel_witness :
  Find parse_flow isTreeSubset_spec 11 "/d/-" find_heap
  = (find_heap ++ [node_lit ScalarNode "" ""], Ok 12).
Proof.
  refine (proj1 (proj2 (find_append_sentinel parse_flow isTreeSubset_spec
            find_heap find_heap 11 9 (mkNode SequenceNode "!!seq" "" [7; 8] 0 0)
            "/d" ["d"] eq_refl _ (or_intror eq_refl) eq_refl eq_refl))).
  repeat constructor.
Defined.

(** C2 on a two-cell store: the mapping [{q: xyz}] (cells 0, 1, 2) receives
    a mapping value whose content is the same key and value cells again; the
    merged content holds the pair twice. *)
Lemma insert_terminal_witness :
  let h := [node_lit ScalarNode "!!str" "q"; node_lit ScalarNode "!!str" "xyz";
            mkNode MappingNode "!!map" "" [0; 1]%nat 0 0] in
  let value := mkNode MappingNode "!!map" "" [0; 1]%nat 1 1 in
  insert parse_flow isTreeSubset_spec 2%nat [] value h =
  (<[2%nat := mkNode MappingNode "!!map" "" [0; 1; 0; 1]%nat 0 0]> h, Ok tt).
Proof.
  intros h value.
  exact (proj1 (insert_terminal parse_flow isTreeSubset_spec h 2%nat
                  (mkNode MappingNode "!!map" "" [0; 1]%nat 0 0) value eq_refl)
           eq_refl eq_refl).
Defined.

(** C3 at the sequence [d] of [find_doc] (cell 9, elements 7 and 8), token
    [1]: the new cell 12 takes position 1 and [f] moves to position 2. *)
Lemma insert_sequence_last_witness :
  let x := node_lit ScalarNode "!!str" "x" in
  insert parse_flow isTreeSubset_spec 9 ["1"] x find_heap =
  (<[9 := mkNode SequenceNode "!!seq" "" [7; 12; 8] 0 0]> (find_heap ++ [x]), Ok tt).
Proof.
  intros x.
  pose proof (insert_sequence_last parse_flow isTreeSubset_spec find_heap 9
                (mkNode SequenceNode "!!seq" "" [7; 8] 0 0) x "1"
                eq_refl eq_refl) as (_ & Hindex & _).
  refine (proj1 (Hindex 1%Z eq_refl _)). cbn. lia.
Defined.

(** C3, as stated, fails on a predicate token that is not well-formed: the
    token [~{] is neither [-] nor a number, and the error at the sequence [d]
    is the parser's, not the NotAnIndex error of [Atoi]. *)
Lemma insert_sequence_last_counterexample :
  let x := node_lit ScalarNode "!!str" "x" in
  insert parse_flow isTreeSubset_spec 9 ["~{"] x find_heap =
    (find_heap, Err (YamlError "{"))
  /\ Atoi "~{" = None
  /\ "~{" <> "-"
  /\ YamlError "{" <> NotAnIndex "~{".
Proof. repeat split; discriminate. Qed.

(** A token of digits only is not always an index: [strconv.Atoi] reads
    [9223372036854775807], the largest [int], and the error at the sequence
    [d] is then the out-of-bounds error; it does not read the next number,
    and the error is its own. *)
Example insert_sequence_last_beyond_int :
  let x := node_lit ScalarNode "!!str" "x" in
  Atoi "9223372036854775807" = Some maxInt
  /\ insert parse_flow isTreeSubset_spec 9 ["9223372036854775807"] x find_heap
     = (find_heap, Err OutOfBounds)
  /\ Atoi "9223372036854775808" = None
  /\ insert parse_flow isTreeSubset_spec 9 ["9223372036854775808"] x find_heap
     = (find_heap, Err (NotAnIndex "9223372036854775808")).
Proof. repeat split. Qed.

(** C4, as stated, fails on [deploy_doc]: the pointer
    [/containers/~{"name":"missing"}] is accepted by the tokenizer, and
    [FindAll] returns the empty list and no error. *)
Lemma FindAll_results_counterexample :
  let ptr := ("/containers/" ++ name_is "missing")%string in
  jsonPointerToTokens ptr = Ok ["containers"; name_is "missing"]
  /\ FindAll parse_flow isTreeSubset_spec 13 ptr deploy_heap = (deploy_heap, Ok []).
Proof. split; reflexivity. Qed.

(** C4 (amended) at the same document: with the empty result of the
    predicate token, [Find] reports the bad state; the pointer
    [/containers/1], which has no predicate token, has one result. *)
Lemma FindAll_results_witness :
  let ptr := ("/containers/" ++ name_is "missing")%string in
  Find parse_flow isTreeSubset_spec 13 ptr deploy_heap
    = (deploy_heap, Err (BadState ptr))
  /\ length [10] = 1.
Proof.
  intros ptr. split.
  - exact (proj1 (FindAll_results parse_flow isTreeSubset_spec deploy_heap
                    deploy_heap 13 ptr [] eq_refl) eq_refl).
  - refine (proj2 (FindAll_results parse_flow isTreeSubset_spec deploy_heap
                     deploy_heap 13 "/containers/1" [10] eq_refl)
              ["containers"; "1"] eq_refl _).
    repeat constructor.
Defined.

(** C5, as stated, fails on [find_doc]: the token [0] of [/d/0/c] selects
    the element [e], a Scalar that is in the document, and [Insert] does not
    go on in that element (which would be the unhandled-node-type error): it
    puts the new mapping [{c: x}] before it. *)
Lemma insert_sequence_branch_counterexample :
  let x := node_lit ScalarNode "!!str" "x" in
  let h' := fst (Insert parse_flow isTreeSubset_spec 11 "/d/0/c" x find_heap) in
  snd (Insert parse_flow isTreeSubset_spec 11 "/d/0/c" x find_heap) = Ok tt
  /\ reify 5 h' 9
     = Some (Tseq [Tmap [Tstr "c"; Tstr "x"]; Tstr "e"; Tstr "f"])
  /\ insert parse_flow isTreeSubset_spec 7 ["c"] x find_heap
     = (find_heap, Err (UnhandledNodeType ScalarNode "!!str")).
Proof. repeat split. Qed.

(** C5 (amended) at the same place: the branch taken is the one that builds
    the mapping in cells 12, 13 and 14. *)
Lemma insert_sequence_branch_witness :
  let x := node_lit ScalarNode "!!str" "x" in
  let n := mkNode MappingNode "!!map" "" [13; 14] 0 0 in
  insert parse_flow isTreeSubset_spec 9 ["0"; "c"] x find_heap
  = bind (sequenceInsertAt 9 "0" n)
      (fun _ => insert parse_flow isTreeSubset_spec 12 ["c"] x)
      (find_heap ++ [n; node_lit ScalarNode "!!str" "c";
                     node_lit MappingNode "!!map" ""]).
Proof.
  intros x n.
  pose proof (insert_sequence_branch parse_flow isTreeSubset_spec find_heap 9
                (mkNode SequenceNode "!!seq" "" [7; 8] 0 0) x "0" "c" []
                eq_refl eq_refl) as (_ & _ & Hscalar).
  refine (Hscalar 0%Z 7 (node_lit ScalarNode "!!str" "e") eq_refl _
            eq_refl eq_refl eq_refl).
  lia.
Defined.

(** C6 at the root mapping of [find_doc], token [d]: the pair [a] is skipped
    and the value of the pair [d], the sequence, is the one result. *)
Lemma match_mapping_witness :
  match_ parse_flow isTreeSubset_spec 10%nat "d" find_heap = (find_heap, Ok [9%nat]).
Proof.
  pose proof (match_mapping parse_flow isTreeSubset_spec find_heap 10%nat
                (mkNode MappingNode "!!map" "" [0; 5; 6; 9]%nat 0 0) "d"
                eq_refl eq_refl) as (_ & Hhit & _).
  apply (Hhit [0; 5]%nat 6%nat 9%nat []); try reflexivity.
  - repeat constructor. eexists. split; [reflexivity | discriminate].
  - eexists. split; reflexivity.
Defined.



(** C8, as stated, fails: on a store holding one scalar node, [find] with no
    token does not return that node; it faults. *)
Lemma find_empty_tokens_counterexample :
  let h := [node_lit ScalarNode "!!str" "x"] in
  find parse_flow isTreeSubset_spec 0%nat [] h = (h, Panic IndexOutOfRange)
  /\ find parse_flow isTreeSubset_spec 0%nat [] h <> (h, Ok [0%nat]).
Proof. split; [reflexivity | discriminate]. Qed.

(** C9 on [deploy_doc]: no container is named [missing], and [image]
    follows the predicate token. *)
Lemma insert_predicate_no_match_witness :
  Insert parse_flow isTreeSubset_spec 13
    ("/containers/" ++ name_is "missing" ++ "/image")%string
    (node_lit ScalarNode "!!str" "x") deploy_heap
  = (deploy_heap, Panic IndexOutOfRange).
Proof.
  refine (proj2 (insert_predicate_no_match parse_flow isTreeSubset_spec
                   deploy_heap 13 12 11
                   (mkNode SequenceNode "!!seq" "" [5; 10] 0 0)
                   ("/containers/" ++ name_is "missing" ++ "/image")%string
                   (name_is "missing") "image" ["containers"] []
                   (node_lit ScalarNode "!!str" "x")
                   (node_lit ScalarNode "!!str" "x")
                   (Tdoc (Tmap [Tstr "name"; Tstr "missing"]))
                   eq_refl eq_refl eq_refl _ eq_refl eq_refl eq_refl eq_refl _)).
  - eapply (descends_step _ _ _ 12 11 11 _ _ "containers" [] []);
      [reflexivity | left; reflexivity | reflexivity | reflexivity
      | apply descends_here].
  - repeat constructor.
Defined.

(** ** Worked examples of the further properties *)

(** X2 on a pointer with an empty token, an escape sequence and a slash at
    the end. *)
Lemma tokens_join_witness :
  pointer_of ["a"; ""; "~1b"; ""] = "/a//~1b/"
  /\ length ["a"; ""; "~1b"; ""] = slash_count "/a//~1b/"
  /\ Forall (fun tok => slash_count tok = 0) ["a"; ""; "~1b"; ""].
Proof. exact (tokens_join "/a//~1b/" ["a"; ""; "~1b"; ""] eq_refl). Defined.

(** X3 on the tokens of [/d/-/c]. *)
Lemma tokens_of_pointer_witness :
  jsonPointerToTokens "/d/-/c" = Ok ["d"; "-"; "c"].
Proof.
  apply (tokens_of_pointer ["d"; "-"; "c"]); [discriminate | repeat constructor].
Defined.

(** X4 at the sequence [d] of [find_doc] (cell 9, elements 7 and 8). *)
Lemma match_sequence_index_witness :
  match_ parse_flow isTreeSubset_spec 9 "1" find_heap = (find_heap, Ok [8])
  /\ match_ parse_flow isTreeSubset_spec 9 "5" find_heap
     = (find_heap, Err OutOfBounds)
  /\ match_ parse_flow isTreeSubset_spec 9 "f" find_heap
     = (find_heap, Err (NotAnIndex "f")).
Proof.
  split; [|split].
  - destruct (proj1 (match_sequence_index parse_flow isTreeSubset_spec
                       find_heap 9 _ "1" eq_refl eq_refl) 1%Z eq_refl)
      as (c & Hc & Hm); [cbn; lia|].
    injection Hc as <-. exact Hm.
  - apply (proj1 (proj2 (match_sequence_index parse_flow isTreeSubset_spec
                           find_heap 9 _ "5" eq_refl eq_refl)) 5%Z eq_refl).
    cbn. lia.
  - apply (proj2 (proj2 (match_sequence_index parse_flow isTreeSubset_spec
                           find_heap 9 _ "f" eq_refl eq_refl)));
      [reflexivity | reflexivity | discriminate].
Defined.

(** X5 at the containers of [deploy_doc] (cell 11, elements 5 and 10): the
    one named [app] is the first. *)
Lemma match_sequence_predicate_witness :
  match_ parse_flow isTreeSubset_spec 11 (name_is "app") deploy_heap
  = (deploy_heap, Ok [5]).
Proof.
  destruct (proj1 (match_sequence_predicate parse_flow isTreeSubset_spec
                     deploy_heap 11 _ (name_is "app") eq_refl eq_refl eq_refl)
              _ eq_refl) as (res & Hm & Hres & _).
  rewrite Hres in Hm. exact Hm.
Defined.

(** X6 at the document node of [find_doc] (cell 11, child 10). *)
Lemma match_document_witness :
  match_ parse_flow isTreeSubset_spec 11 "d" find_heap
  = match_ parse_flow isTreeSubset_spec 10 "d" find_heap.
Proof.
  exact (proj2 (match_document parse_flow isTreeSubset_spec find_heap 11 _ "d"
                  eq_refl eq_refl) 10 [] eq_refl).
Defined.

(** X7 on a document node that is its own first child. *)
Lemma match_divergence_witness :
  exists h',
    match_ parse_flow isTreeSubset_spec 0 "a" [mkNode DocumentNode "" "" [0] 0 0]
    = (h', Panic StackOverflow).
Proof.
  apply (proj2 (match_divergence parse_flow isTreeSubset_spec
                  [mkNode DocumentNode "" "" [0] 0 0] 0 "a")).
  intros k. exists 0. induction k as [|k IH]; [reflexivity | exact IH].
Defined.

(** X9 on [find_doc]: [/a] resolves to the mapping in cell 5, from which
    [/b/c] resolves to cell 3, and so does [/a/b/c] from the root. *)
Lemma Find_compose_witness :
  Find parse_flow isTreeSubset_spec 11 "/a/b/c" find_heap = (find_heap, Ok 3).
Proof.
  refine (proj1 (proj2 (proj1 (Find_compose parse_flow isTreeSubset_spec 11
                                 "/a" "/b/c" ["a"] find_heap eq_refl _)
                          find_heap 5 eq_refl)) find_heap 3 eq_refl).
  repeat constructor.
Defined.

(** X11 on [find_doc], with the pointer of the package's test for
    [ErrNotFound]. *)
Lemma FindAll_not_found_witness :
  exists toks tok node m,
    jsonPointerToTokens "/bad/path" = Ok toks
    /\ In tok toks
    /\ Quoted "/bad/path" (Quoted "bad" ErrNotFound)
       = Quoted "/bad/path" (Quoted tok ErrNotFound)
    /\ find_heap !! node = Some m /\ Kind m = MappingNode
    /\ Nat.even (length (Content m)) = true
    /\ Forall (key_differs find_heap tok) (pairs (Content m)).
Proof.
  exact (FindAll_not_found parse_flow isTreeSubset_spec 11 "/bad/path"
           find_heap find_heap _ eq_refl eq_refl).
Defined.

(** X12 on [find_doc]: from the document node (cell 11) as from the root
    mapping (cell 10). *)
Lemma lookup_document_witness :
  FindAll parse_flow isTreeSubset_spec 11 "/d/0" find_heap
  = FindAll parse_flow isTreeSubset_spec 10 "/d/0" find_heap
  /\ Find parse_flow isTreeSubset_spec 11 "/d/0" find_heap
     = Find parse_flow isTreeSubset_spec 10 "/d/0" find_heap.
Proof.
  exact (lookup_document parse_flow isTreeSubset_spec find_heap 11 10 [] _
           "/d/0" eq_refl eq_refl eq_refl).
Defined.

(** X13 on [find_doc]: the key [d] of the root mapping has the sequence in
    cell 9, and a scalar is not inserted over it. *)
Lemma insert_existing_key_witness :
  insert parse_flow isTreeSubset_spec 10 ["d"] scalar_x find_heap
  = (find_heap, Err (CannotInsert ScalarNode "!!str" SequenceNode "!!seq")).
Proof.
  refine (proj1 (proj2 (insert_existing_key parse_flow isTreeSubset_spec
                          find_heap 10 9 _ _ scalar_x "d"
                          eq_refl eq_refl eq_refl eq_refl eq_refl)) _).
  intros [H _]. discriminate H.
Defined.

(** X14 on [find_doc]: [f] is not a key of the root mapping, and the
    insertion at [/f/d] makes the key, a mapping for it, and the key [d] in
    that mapping. *)
Lemma insert_missing_key_witness :
  exists h' p,
    insert parse_flow isTreeSubset_spec 10 ["f"; "d"] scalar_x find_heap
      = (h', Ok tt)
    /\ unchanged_outside [10] find_heap h'
    /\ h' !! 10 = Some (mkNode MappingNode "!!map" "" [0; 5; 6; 9; 12; 13] 0 0)
    /\ h' !! 12 = Some (node_lit ScalarNode "" "f")
    /\ find parse_flow isTreeSubset_spec 10 ["f"; "d"] h' = (h', Ok [p])
    /\ h' !! p = Some scalar_x
    /\ (["d"] = [] -> p = 13 /\ length h' = 14).
Proof.
  apply (insert_missing_key parse_flow isTreeSubset_spec find_heap 10
           (mkNode MappingNode "!!map" "" [0; 5; 6; 9] 0 0) scalar_x "f" ["d"]);
    try reflexivity.
  repeat constructor; (eexists; split; [reflexivity | discriminate]).
Defined.

(** X15 on [find_doc]: the insertion at [/d/5], out of the bounds of the
    sequence, leaves the store as it is. *)
Lemma Insert_atomic_witness :
  exists ext, find_heap = find_heap ++ ext.
Proof.
  apply (Insert_atomic parse_flow isTreeSubset_spec 11 "/d/5" scalar_x
           find_heap find_heap (Err OutOfBounds) eq_refl).
  discriminate.
Defined.

(** X16 on [find_doc] and the insertion at [/d/-/c]. *)
Lemma Insert_keeps_witness :
  extends find_heap find_heap_dash_c
  /\ length find_heap <= length find_heap_dash_c.
Proof.
  exact (Insert_keeps parse_flow isTreeSubset_spec 11 "/d/-/c" scalar_x
           find_heap find_heap_dash_c (Ok tt) eq_refl).
Defined.

(** X17 on [find_doc]: from the document node (cell 11) as from the root
    mapping (cell 10). *)
Lemma Insert_document_witness :
  Insert parse_flow isTreeSubset_spec 11 "/d/-/c" scalar_x find_heap
  = Insert parse_flow isTreeSubset_spec 10 "/d/-/c" scalar_x find_heap.
Proof.
  apply (proj1 (Insert_document parse_flow isTreeSubset_spec find_heap 11 10 []
                  _ _ "/d/-/c" scalar_x eq_refl eq_refl eq_refl eq_refl)).
  discriminate.
Defined.

(** X18 on the containers of [deploy_doc]: the predicate [~{}] selects both
    (cells 5 and 10), and [image] resolves in each (cells 4 and 9). *)
Lemma find_fanout_witness :
  find parse_flow isTreeSubset_spec 11 ["~{}"; "image"] deploy_heap
  = (deploy_heap, Ok [4; 9]).
Proof.
  refine (proj1 (find_fanout parse_flow isTreeSubset_spec deploy_heap 11 "~{}"
                   ["image"] [5; 10] eq_refl _)
            (fun n => if Nat.eqb n 5 then [4] else [9]) _).
  - discriminate.
  - intros n [<-|[<-|[]]]; reflexivity.
Defined.

(** X19 on [find_doc]: the scalar [x] is inserted at the new key [f], and
    refused there the second time. *)
Lemma insert_again_witness :
  exists h1,
    insert parse_flow isTreeSubset_spec 10 ["f"] scalar_x find_heap = (h1, Ok tt)
    /\ insert parse_flow isTreeSubset_spec 10 ["f"] scalar_x h1
       = (h1, Err (CannotInsert ScalarNode "!!str" ScalarNode "!!str")).
Proof.
  destruct (insert_again parse_flow isTreeSubset_spec find_heap 10
              (mkNode MappingNode "!!map" "" [0; 5; 6; 9] 0 0)
              scalar_x scalar_x "f" eq_refl eq_refl eq_refl)
    as (h1 & H1 & _ & _ & H2).
  - repeat constructor; (eexists; split; [reflexivity | discriminate]).
  - exists h1. split; [exact H1|]. apply H2. intros [H _]. discriminate H.
Defined.

(** X20 on [find_doc]: after the insertion at the new key [f], the key [d]
    of the root mapping still has the sequence in cell 9. *)
Lemma insert_missing_key_frame_witness :
  let h' := fst (insert parse_flow isTreeSubset_spec 10 ["f"] scalar_x find_heap) in
  match_ parse_flow isTreeSubset_spec 10 "d" find_heap = (find_heap, Ok [9])
  /\ match_ parse_flow isTreeSubset_spec 10 "d" h' = (h', Ok [9]).
Proof.
  intros h'.
  apply (insert_missing_key_frame parse_flow isTreeSubset_spec find_heap h' 10 9
           (mkNode MappingNode "!!map" "" [0; 5; 6; 9] 0 0) scalar_x "f" "d" []);
    try reflexivity.
  repeat constructor; (eexists; split; [reflexivity | discriminate]).
Defined.

(** X21 on [find_doc]: the node that [/a/b/c] resolves to (cell 3) is below
    the document node. *)
Lemma lookup_below_witness :
  below find_heap 11 3
  \/ (length find_heap <= 3
      /\ find_heap !! 3 = Some (node_lit ScalarNode "" "")).
Proof.
  refine (proj2 (lookup_below parse_flow isTreeSubset_spec 11 "/a/b/c"
                   find_heap _) find_heap 3 eq_refl).
  unfold closed. repeat (constructor; try (cbn; lia)).
Defined.
